(** * A shallow embedding of the Monkey interpreter

    The development follows the package structure of the Go sources:
    [token] and [lexer] (the token stream), [ast] (syntax trees), [parser]
    (the Pratt parser), [object] (runtime values, hash keys and
    environments) and [evaluator] (built-ins and [Eval]).

    Conventions of the embedding:
    - Go's [int64] is a [Z] together with an explicit wrap-around
      ([wrap64]); [uint64] is a [Z] reduced modulo [2^64];
    - a Go [string] is a Rocq [string] (a sequence of bytes);
    - a run-time panic of the Go program is an explicit outcome [Panic];
    - recursion that is not structural takes a [fuel] argument; running out
      of fuel is the outcome [OutOfFuel] (resp. [None] in the parser);
    - environments are mutable and shared in Go: they live in a heap
      (a list of scopes) and are referred to by their index;
    - a result that depends on what the embedding does not track (the
      address of an object, the capacity of a slice, the order of a
      range over a map) is the outcome [Unmodelled]. *)

From Stdlib Require Import ZArith Lia Ascii String.
From stdpp Require Import base option list strings pretty gmap.

Set Warnings "-register-all".

Local Open Scope string_scope.
Local Open Scope list_scope.
Local Open Scope Z_scope.

(** Sequencing in the small monads of the development (parser state,
    outcomes, evaluator state); each one interprets it in its own scope. *)
Reserved Notation "x <- m ;; k"
  (at level 20, m at level 99, k at level 200).
Reserved Notation "m ;;; k"
  (at level 100, k at level 200, right associativity).

(* ===================================================================== *)
(** ** Machine integers *)
(* ===================================================================== *)

Definition int64_min : Z := - 2 ^ 63.
Definition int64_max : Z := 2 ^ 63 - 1.
Definition in_int64 (z : Z) : Prop := int64_min <= z <= int64_max.

(** Two's complement wrap-around of a mathematical integer into [int64]. *)
Definition wrap64 (z : Z) : Z := (z + 2 ^ 63) mod 2 ^ 64 - 2 ^ 63.

(** The conversion [uint64(x)] of an [int64]: the same 64 bits. *)
Definition to_uint64 (z : Z) : Z := z mod 2 ^ 64.

(* ===================================================================== *)
(** ** Package token *)
(* ===================================================================== *)

Module token.

(** Modelled from the spec: the token package is not among the sources.
    [TokenType] is a string type (the parser compares a token type with
    the literal [","]); the kinds are those of section 3.1 of the
    specification. Punctuation kinds are spelled by their symbol and the
    other kinds by their name. *)
Definition TokenType := string.

Record Token := { Type_ : TokenType; Literal : string }.

Definition ILLEGAL : TokenType := "ILLEGAL".
Definition EOF : TokenType := "EOF".
Definition IDENT : TokenType := "IDENT".
Definition INT : TokenType := "INT".
Definition STRING : TokenType := "STRING".
Definition ASSIGN : TokenType := "=".
Definition PLUS : TokenType := "+".
Definition MINUS : TokenType := "-".
Definition BANG : TokenType := "!".
Definition ASTERISK : TokenType := "*".
Definition SLASH : TokenType := "/".
Definition LT : TokenType := "<".
Definition GT : TokenType := ">".
Definition EQ : TokenType := "==".
Definition NOT_EQ : TokenType := "!=".
Definition COMMA : TokenType := ",".
Definition SEMICOLON : TokenType := ";".
Definition COLON : TokenType := ":".
Definition LPAREN : TokenType := "(".
Definition RPAREN : TokenType := ")".
Definition LBRACE : TokenType := "{".
Definition RBRACE : TokenType := "}".
Definition LBRACKET : TokenType := "[".
Definition RBRACKET : TokenType := "]".
Definition FUNCTION : TokenType := "FUNCTION".
Definition LET : TokenType := "LET".
Definition TRUE : TokenType := "TRUE".
Definition FALSE : TokenType := "FALSE".
Definition IF : TokenType := "IF".
Definition ELSE : TokenType := "ELSE".
Definition RETURN : TokenType := "RETURN".

(** The zero value of the struct, as in [var t token.Token]. *)
Definition zero : Token := {| Type_ := EmptyString; Literal := EmptyString |}.

(** Reserved words of the language. *)
Definition LookupIdent (ident : string) : TokenType :=
  if String.eqb ident "fn" then FUNCTION
  else if String.eqb ident "let" then LET
  else if String.eqb ident "true" then TRUE
  else if String.eqb ident "false" then FALSE
  else if String.eqb ident "if" then IF
  else if String.eqb ident "else" then ELSE
  else if String.eqb ident "return" then RETURN
  else IDENT.

End token.

(* ===================================================================== *)
(** ** Package lexer *)
(* ===================================================================== *)

Module lexer.
Import token.

Definition byte_between (lo c hi : ascii) : bool :=
  ((nat_of_ascii lo <=? nat_of_ascii c)%nat
   && (nat_of_ascii c <=? nat_of_ascii hi)%nat)%bool.

Definition isLetter (c : ascii) : bool :=
  (byte_between "a" c "z" || byte_between "A" c "Z" || Ascii.eqb c "_")%bool.

Definition isDigit (c : ascii) : bool := byte_between "0" c "9".

Definition isWhitespace (c : ascii) : bool :=
  (Ascii.eqb c " " || Ascii.eqb c "009" || Ascii.eqb c "010"
   || Ascii.eqb c "013")%bool.

(** The longest prefix of [s] whose bytes satisfy [f], and the rest. *)
Fixpoint readWhile (f : ascii -> bool) (s : string) : string * string :=
  match s with
  | EmptyString => (EmptyString, EmptyString)
  | String c r =>
      if f c then let '(w, r') := readWhile f r in (String c w, r')
      else (EmptyString, s)
  end.

(** A string literal: everything up to the closing quote, which is
    dropped; no escape sequences. *)
Definition readString (s : string) : string * string :=
  let '(w, r) := readWhile (fun c => negb (Ascii.eqb c "034")) s in
  (w, match r with String _ r' => r' | EmptyString => EmptyString end).

Definition single (t : TokenType) (c : ascii) : Token :=
  {| Type_ := t; Literal := String c EmptyString |}.

(** Modelled from the spec: the lexer's source is not among the sources
    (only its test is). Section 6.1: white space is skipped;
    identifiers are [[A-Za-z_][A-Za-z0-9_]*] and reserved words map to
    their kind; integers are [[0-9]+]; strings are double-quoted with
    no escapes; [==] and [!=] are two-character tokens; anything else
    is [ILLEGAL]. The token sequence of the whole input is computed at
    once; [NextToken] hands it out one token at a time. *)
Fixpoint tokenize (fuel : nat) (s : string) : list Token :=
  match fuel with
  | O => []
  | S fuel' =>
      match s with
      | EmptyString => []
      | String c r =>
          if isWhitespace c then tokenize fuel' r
          else if isLetter c then
            let '(w, r') := readWhile (fun x => (isLetter x || isDigit x)%bool) s in
            {| Type_ := LookupIdent w; Literal := w |} :: tokenize fuel' r'
          else if isDigit c then
            let '(w, r') := readWhile isDigit s in
            {| Type_ := INT; Literal := w |} :: tokenize fuel' r'
          else if Ascii.eqb c "034" then
            let '(w, r') := readString r in
            {| Type_ := STRING; Literal := w |} :: tokenize fuel' r'
          else if Ascii.eqb c "=" then
            match r with
            | String "=" r' => {| Type_ := EQ; Literal := "==" |} :: tokenize fuel' r'
            | _ => single ASSIGN c :: tokenize fuel' r
            end
          else if Ascii.eqb c "!" then
            match r with
            | String "=" r' => {| Type_ := NOT_EQ; Literal := "!=" |} :: tokenize fuel' r'
            | _ => single BANG c :: tokenize fuel' r
            end
          else if Ascii.eqb c "+" then single PLUS c :: tokenize fuel' r
          else if Ascii.eqb c "-" then single MINUS c :: tokenize fuel' r
          else if Ascii.eqb c "*" then single ASTERISK c :: tokenize fuel' r
          else if Ascii.eqb c "/" then single SLASH c :: tokenize fuel' r
          else if Ascii.eqb c "<" then single LT c :: tokenize fuel' r
          else if Ascii.eqb c ">" then single GT c :: tokenize fuel' r
          else if Ascii.eqb c "," then single COMMA c :: tokenize fuel' r
          else if Ascii.eqb c ";" then single SEMICOLON c :: tokenize fuel' r
          else if Ascii.eqb c ":" then single COLON c :: tokenize fuel' r
          else if Ascii.eqb c "(" then single LPAREN c :: tokenize fuel' r
          else if Ascii.eqb c ")" then single RPAREN c :: tokenize fuel' r
          else if Ascii.eqb c "{" then single LBRACE c :: tokenize fuel' r
          else if Ascii.eqb c "}" then single RBRACE c :: tokenize fuel' r
          else if Ascii.eqb c "[" then single LBRACKET c :: tokenize fuel' r
          else if Ascii.eqb c "]" then single RBRACKET c :: tokenize fuel' r
          else single ILLEGAL c :: tokenize fuel' r
      end
  end.

(** The lexer's state: the tokens not handed out yet. *)
Record Lexer := { pending : list Token }.

Definition New (input : string) : Lexer :=
  {| pending := tokenize (S (String.length input)) input |}.

(** After the input is exhausted [NextToken] answers [EOF] for ever. *)
Definition NextToken (l : Lexer) : Token * Lexer :=
  match pending l with
  | [] => ({| Type_ := EOF; Literal := EmptyString |}, l)
  | t :: r => (t, {| pending := r |})
  end.

End lexer.

(* ===================================================================== *)
(** ** Package ast *)
(* ===================================================================== *)

Module ast.

Record Identifier := { Token : token.Token; Value : string }.

(** Nodes are pointers behind interfaces in Go. An [Expression] field
    may hold the nil interface ([NoExpression]): the parser stores the
    nil result of a failed sub-parse. A statement slot may hold a nil
    [*LetStatement] ([NilLetStatement]): [parseLetStatement] returns
    that pointer on failure and [parseStatement] wraps it in the
    [Statement] interface. [IndexExpression] and [HashLiteral] are used
    by the parser and the evaluator but not declared in the sources;
    their fields are those the code accesses.

    Modelled from the spec: [HashLiteral.Pairs] is the sequence of
    (key, value) expressions of section 3.2. In the code it is a map from
    expression nodes to expression nodes, which [Eval] ranges over in an
    order that Go leaves unspecified: the sequence stands for the set of
    its pairs, and [Eval] is modelled on literals of at most one pair. *)
Inductive Expression :=
| NoExpression
| Ident (i : Identifier)
| IntegerLiteral (Token : token.Token) (Value : Z)
| BooleanExpression (Token : token.Token) (Value : bool)
| StringLiteral (Token : token.Token) (Value : string)
| PrefixExpression (Token : token.Token) (Operator : string) (Right : Expression)
| InfixExpression (Token : token.Token) (Left : Expression) (Operator : string)
    (Right : Expression)
| IfExpression (Token : token.Token) (Condition : Expression)
    (Consequence : BlockStatement) (Alternative : option BlockStatement)
| FunctionLiteral (Token : token.Token) (Parameters : list Identifier)
    (Body : BlockStatement)
| CallExpression (Token : token.Token) (Function : Expression)
    (Arguments : list Expression)
| ArrayLiteral (Token : token.Token) (Elements : list Expression)
| IndexExpression (Left : Expression) (Index : Expression)
| HashLiteral (Pairs : list (Expression * Expression))
with Statement :=
| NilLetStatement
| LetStatement (Token : token.Token) (Name : Identifier) (Value : Expression)
| ReturnStatement (Token : token.Token) (ReturnValue : Expression)
| ExpressionStatement (Token : token.Token) (Expression_ : Expression)
| Block (b : BlockStatement)
with BlockStatement :=
| mkBlock (Token : token.Token) (Statements : list Statement).

Record Program := { Statements : list Statement }.

Definition block_Statements (b : BlockStatement) : list Statement :=
  match b with mkBlock _ ss => ss end.

(** The interface [ast.Node], as [Eval] receives it. *)
Inductive Node :=
| NProgram (p : Program)
| NStatement (s : Statement)
| NExpression (e : Expression).

End ast.

(* ===================================================================== *)
(** ** Package strconv of the Go standard library *)
(* ===================================================================== *)

Module strconv.

Inductive NumError := ErrSyntax | ErrRange.

Definition digit_of (c : ascii) : option Z :=
  if lexer.isDigit c then Some (Z.of_nat (nat_of_ascii c) - 48) else None.

(** The value of a sequence of decimal digits, most significant first. *)
Fixpoint digits (s : string) (acc : Z) : option Z :=
  match s with
  | EmptyString => Some acc
  | String c r =>
      match digit_of c with
      | Some d => digits r (10 * acc + d)
      | None => None
      end
  end.

(** [strconv.ParseInt(s, 10, bitSize)], after its documentation: an
    optional sign followed by decimal digits; on a syntax error the
    value is 0; when the number does not fit in a signed integer of
    [bitSize] bits the error is [ErrRange] and the value is the integer
    of that size with the largest magnitude and the same sign. *)
Definition ParseInt (s : string) (bitSize : Z) : Z * option NumError :=
  let '(neg, body) :=
    match s with
    | String "+" r => (false, r)
    | String "-" r => (true, r)
    | _ => (false, s)
    end in
  match body with
  | EmptyString => (0, Some ErrSyntax)
  | _ =>
      match digits body 0 with
      | None => (0, Some ErrSyntax)
      | Some un =>
          let cutoff := 2 ^ (bitSize - 1) in
          if (negb neg && (cutoff <=? un))%bool then (cutoff - 1, Some ErrRange)
          else if (neg && (cutoff <? un))%bool then (- cutoff, Some ErrRange)
          else (if neg then - un else un, None)
      end
  end.

End strconv.

(* ===================================================================== *)
(** ** Package parser *)
(* ===================================================================== *)

Module parser.
Import token ast.

Definition LOWEST : Z := 1.
Definition EQUALS : Z := 2.
Definition LESSGREATER : Z := 3.
Definition SUM : Z := 4.
Definition PRODUCT : Z := 5.
Definition PREFIX : Z := 6.
Definition CALL : Z := 7.
Definition INDEX : Z := 8.

(** The parse functions that [New] registers, by name. *)
Inductive prefixParseFn :=
| fn_parseIdentifier | fn_parseIntegerLiteral | fn_parsePrefixExpression
| fn_parseBoolean | fn_parseGroupedExpression | fn_parseIfExpression
| fn_parseFunctionLiteral | fn_parseStringLiteral | fn_parseArrayLiteral.

Inductive infixParseFn :=
| fn_parseInfixExpression | fn_parseCallExpression | fn_parseIndexExpression.

(** The two dispatch tables are filled once, in [New], and never change:
    they are kept out of the parser's state. *)
Definition prefixParseFns : gmap TokenType prefixParseFn :=
  <[LBRACKET := fn_parseArrayLiteral]>
  (<[STRING := fn_parseStringLiteral]>
  (<[FUNCTION := fn_parseFunctionLiteral]>
  (<[IF := fn_parseIfExpression]>
  (<[LPAREN := fn_parseGroupedExpression]>
  (<[FALSE := fn_parseBoolean]>
  (<[TRUE := fn_parseBoolean]>
  (<[MINUS := fn_parsePrefixExpression]>
  (<[BANG := fn_parsePrefixExpression]>
  (<[INT := fn_parseIntegerLiteral]>
  (<[IDENT := fn_parseIdentifier]> ∅)))))))))).

Definition infixParseFns : gmap TokenType infixParseFn :=
  <[LBRACKET := fn_parseIndexExpression]>
  (<[LPAREN := fn_parseCallExpression]>
  (<[GT := fn_parseInfixExpression]>
  (<[LT := fn_parseInfixExpression]>
  (<[NOT_EQ := fn_parseInfixExpression]>
  (<[EQ := fn_parseInfixExpression]>
  (<[ASTERISK := fn_parseInfixExpression]>
  (<[SLASH := fn_parseInfixExpression]>
  (<[MINUS := fn_parseInfixExpression]>
  (<[PLUS := fn_parseInfixExpression]> ∅))))))))).

Definition precedences : gmap TokenType Z :=
  list_to_map
    [ (EQ, EQUALS); (NOT_EQ, EQUALS); (LT, LESSGREATER); (GT, LESSGREATER);
      (PLUS, SUM); (MINUS, SUM); (SLASH, PRODUCT); (ASTERISK, PRODUCT);
      (LPAREN, CALL); (LBRACKET, INDEX) ].

Record Parser := {
  l : lexer.Lexer;
  curToken : token.Token;
  peekToken : token.Token;
  errors : list string
}.

(** Parser methods read and update the parser; [None] is fuel
    exhaustion in the recursive ones. *)
Definition M (A : Type) : Type := Parser -> option (A * Parser).

Definition ret {A} (a : A) : M A := fun p => Some (a, p).

Definition bind {A B} (m : M A) (k : A -> M B) : M B :=
  fun p => match m p with Some (a, p') => k a p' | None => None end.

Definition out_of_fuel {A} : M A := fun _ => None.

Definition reads {A} (f : Parser -> A) : M A := fun p => Some (f p, p).

Declare Scope parser_scope.
Delimit Scope parser_scope with parser.
Notation "x <- m ;; k" := (bind m (fun x => k)) (only parsing) : parser_scope.
Notation "m ;;; k" := (bind m (fun _ => k)) (only parsing) : parser_scope.
Local Open Scope parser_scope.

(** The parser after [p.errors = append(p.errors, msg)]. *)
Definition with_error (p : Parser) (msg : string) : Parser :=
  {| l := l p; curToken := curToken p; peekToken := peekToken p;
     errors := errors p ++ [msg] |}.

Definition appendError (msg : string) : M unit :=
  fun p => Some (tt, with_error p msg).

(** The parser after [nextToken]. *)
Definition advance (p : Parser) : Parser :=
  let '(t, l') := lexer.NextToken (l p) in
  {| l := l'; curToken := peekToken p; peekToken := t; errors := errors p |}.

Definition nextToken : M unit := fun p => Some (tt, advance p).

Definition Errors (p : Parser) : list string := errors p.

Definition peekPrecedence : M Z :=
  reads (fun p => default LOWEST (precedences !! Type_ (peekToken p))).

Definition curPrecedence : M Z :=
  reads (fun p => default LOWEST (precedences !! Type_ (curToken p))).

Definition peekError (t : TokenType) : M unit :=
  peek <- reads peekToken;;
  appendError ("Expected token " +:+ t +:+ ", instead got " +:+ Type_ peek).

Definition curTokenIs (t : TokenType) : M bool :=
  reads (fun p => String.eqb (Type_ (curToken p)) t).

Definition peekTokenIs (t : TokenType) : M bool :=
  reads (fun p => String.eqb (Type_ (peekToken p)) t).

Definition expectPeek (t : TokenType) : M bool :=
  is_t <- peekTokenIs t;;
  if is_t : bool then nextToken;;; ret true
  else peekError t;;; ret false.

Definition noPrefixParseFuncError (t : TokenType) : M unit :=
  appendError ("No prefix parse function found for " +:+ t).

Definition curIdentifier : M Identifier :=
  reads (fun p => {| Token := curToken p; Value := Literal (curToken p) |}).

Definition parseStringLiteral : M Expression :=
  cur <- reads curToken;;
  ret (StringLiteral cur (Literal cur)).

Definition parseBoolean : M Expression :=
  cur <- reads curToken;;
  is_true <- curTokenIs TRUE;;
  ret (BooleanExpression cur is_true).

Definition parseIntegerLiteral : M Expression :=
  cur <- reads curToken;;
  let '(val, err) := strconv.ParseInt (Literal cur) 32 in
  match err with
  | Some _ => appendError ("could not parse " +:+ Literal cur +:+ " as integer")
  | None => ret tt
  end;;;
  ret (IntegerLiteral cur val).

Definition parseIdentifier : M Expression :=
  i <- curIdentifier;;
  ret (Ident i).

(** [parseFunctionParameters]: the loop [for p.peekTokenIs(token.COMMA)]. *)
Fixpoint parseFunctionParameters_loop (fuel : nat) (params : list Identifier)
  : M (list Identifier) :=
  match fuel with
  | O => out_of_fuel
  | S fuel' =>
      more <- peekTokenIs COMMA;;
      if more : bool then
        nextToken;;; nextToken;;;
        ident <- curIdentifier;;
        parseFunctionParameters_loop fuel' (params ++ [ident])
      else ret params
  end.

(** A nil slice and an empty slice are the same list. *)
Definition parseFunctionParameters (fuel : nat) : M (list Identifier) :=
  nextToken;;;
  empty <- curTokenIs RPAREN;;
  if empty : bool then ret []
  else
    ident <- curIdentifier;;
    params <- parseFunctionParameters_loop fuel [ident];;
    ok <- expectPeek RPAREN;;
    if ok : bool then ret params else ret [].

Section methods.

(** The recursive calls of the parse methods: [parseExpression] and
    [parseStatement] with less fuel. [fuel] bounds the loops. *)
Variable recExpression : Z -> M Expression.
Variable recStatement : M Statement.
Variable fuel : nat.

Definition parseInfixExpression (left : Expression) : M Expression :=
  cur <- reads curToken;;
  precedence <- curPrecedence;;
  nextToken;;;
  right <- recExpression precedence;;
  ret (InfixExpression cur left (Literal cur) right).

Definition parsePrefixExpression : M Expression :=
  cur <- reads curToken;;
  nextToken;;;
  right <- recExpression PREFIX;;
  ret (PrefixExpression cur (Literal cur) right).

Definition parseGroupedExpression : M Expression :=
  nextToken;;;
  exp <- recExpression LOWEST;;
  ok <- expectPeek RPAREN;;
  if ok : bool then ret exp else ret NoExpression.

Fixpoint parseBlockStatement_loop (n : nat) (stmts : list Statement)
  : M (list Statement) :=
  match n with
  | O => out_of_fuel
  | S n' =>
      at_rbrace <- curTokenIs RBRACE;;
      at_eof <- curTokenIs EOF;;
      if (negb at_rbrace && negb at_eof)%bool then
        stmt <- recStatement;;
        nextToken;;;
        parseBlockStatement_loop n' (stmts ++ [stmt])
      else ret stmts
  end.

Definition parseBlockStatement : M BlockStatement :=
  cur <- reads curToken;;
  nextToken;;;
  stmts <- parseBlockStatement_loop fuel [];;
  ret (mkBlock cur stmts).

Definition parseIfExpression : M Expression :=
  ok <- expectPeek LPAREN;;
  if negb ok then ret NoExpression else
  nextToken;;;
  condition <- recExpression LOWEST;;
  ok <- expectPeek RPAREN;;
  if negb ok then ret NoExpression else
  ok <- expectPeek LBRACE;;
  if negb ok then ret NoExpression else
  consequence <- parseBlockStatement;;
  has_else <- peekTokenIs ELSE;;
  if has_else : bool then
    nextToken;;;
    ok <- expectPeek LBRACE;;
    if negb ok then ret NoExpression else
    alternative <- parseBlockStatement;;
    ret (IfExpression token.zero condition consequence (Some alternative))
  else ret (IfExpression token.zero condition consequence None).

Definition parseFunctionLiteral : M Expression :=
  cur <- reads curToken;;
  ok <- expectPeek LPAREN;;
  if negb ok then ret NoExpression else
  params <- parseFunctionParameters fuel;;
  nextToken;;;
  body <- parseBlockStatement;;
  ret (FunctionLiteral cur params body).

(** [parseExpressionList]: the loop [for p.peekTokenIs(",")]. *)
Fixpoint parseExpressionList_loop (n : nat) (args : list Expression)
  : M (list Expression) :=
  match n with
  | O => out_of_fuel
  | S n' =>
      more <- peekTokenIs ",";;
      if more : bool then
        nextToken;;; nextToken;;;
        e <- recExpression LOWEST;;
        parseExpressionList_loop n' (args ++ [e])
      else ret args
  end.

Definition parseExpressionList (end_ : TokenType) : M (list Expression) :=
  nextToken;;;
  empty <- curTokenIs end_;;
  if empty : bool then ret []
  else
    e <- recExpression LOWEST;;
    args <- parseExpressionList_loop fuel [e];;
    ok <- expectPeek end_;;
    if ok : bool then ret args else ret [].

Definition parseCallExpression (function : Expression) : M Expression :=
  cur <- reads curToken;;
  args <- parseExpressionList RPAREN;;
  ret (CallExpression cur function args).

Definition parseArrayLiteral : M Expression :=
  cur <- reads curToken;;
  elements <- parseExpressionList RBRACKET;;
  ret (ArrayLiteral cur elements).

Definition parseIndexExpression (left : Expression) : M Expression :=
  nextToken;;;
  index <- recExpression LOWEST;;
  ok <- expectPeek RBRACKET;;
  if ok : bool then ret (IndexExpression left index) else ret NoExpression.

Definition callPrefix (fn : prefixParseFn) : M Expression :=
  match fn with
  | fn_parseIdentifier => parseIdentifier
  | fn_parseIntegerLiteral => parseIntegerLiteral
  | fn_parsePrefixExpression => parsePrefixExpression
  | fn_parseBoolean => parseBoolean
  | fn_parseGroupedExpression => parseGroupedExpression
  | fn_parseIfExpression => parseIfExpression
  | fn_parseFunctionLiteral => parseFunctionLiteral
  | fn_parseStringLiteral => parseStringLiteral
  | fn_parseArrayLiteral => parseArrayLiteral
  end.

Definition callInfix (fn : infixParseFn) (left : Expression) : M Expression :=
  match fn with
  | fn_parseInfixExpression => parseInfixExpression left
  | fn_parseCallExpression => parseCallExpression left
  | fn_parseIndexExpression => parseIndexExpression left
  end.

(** The loop of [parseExpression]:
    [for !p.peekTokenIs(token.SEMICOLON) && precedence < p.peekPrecedence()]. *)
Fixpoint parseExpression_loop (n : nat) (precedence : Z) (leftExp : Expression)
  : M Expression :=
  match n with
  | O => out_of_fuel
  | S n' =>
      at_semi <- peekTokenIs SEMICOLON;;
      peek_prec <- peekPrecedence;;
      if (negb at_semi && (precedence <? peek_prec))%bool then
        peek <- reads peekToken;;
        match infixParseFns !! Type_ peek with
        | None => ret leftExp
        | Some infix =>
            nextToken;;;
            leftExp' <- callInfix infix leftExp;;
            parseExpression_loop n' precedence leftExp'
        end
      else ret leftExp
  end.

Definition parseExpression_body (precedence : Z) : M Expression :=
  cur <- reads curToken;;
  match prefixParseFns !! Type_ cur with
  | None => noPrefixParseFuncError (Type_ cur);;; ret NoExpression
  | Some prefix =>
      leftExp <- callPrefix prefix;;
      parseExpression_loop fuel precedence leftExp
  end.

Definition parseExpressionStatement : M Statement :=
  cur <- reads curToken;;
  e <- recExpression LOWEST;;
  at_semi <- peekTokenIs SEMICOLON;;
  (if at_semi : bool then nextToken else ret tt);;;
  ret (ExpressionStatement cur e).

Definition parseReturnStatement : M Statement :=
  cur <- reads curToken;;
  nextToken;;;
  e <- recExpression LOWEST;;
  expectPeek SEMICOLON;;;
  ret (ReturnStatement cur e).

Definition parseLetStatement : M Statement :=
  cur <- reads curToken;;
  ok <- expectPeek IDENT;;
  if negb ok then ret NilLetStatement else
  name <- curIdentifier;;
  ok <- expectPeek ASSIGN;;
  if negb ok then ret NilLetStatement else
  nextToken;;;
  e <- recExpression LOWEST;;
  expectPeek SEMICOLON;;;
  ret (LetStatement cur name e).

Definition parseStatement_body : M Statement :=
  cur <- reads curToken;;
  if String.eqb (Type_ cur) LET then parseLetStatement
  else if String.eqb (Type_ cur) RETURN then parseReturnStatement
  else parseExpressionStatement.

End methods.

Fixpoint parseExpression (fuel : nat) (precedence : Z) {struct fuel} : M Expression :=
  match fuel with
  | O => out_of_fuel
  | S fuel' =>
      parseExpression_body (parseExpression fuel') (parseStatement fuel') fuel'
        precedence
  end
with parseStatement (fuel : nat) {struct fuel} : M Statement :=
  match fuel with
  | O => out_of_fuel
  | S fuel' => parseStatement_body (parseExpression fuel')
  end.

Fixpoint ParseProgram_loop (fuel n : nat) (stmts : list Statement)
  : M (list Statement) :=
  match n with
  | O => out_of_fuel
  | S n' =>
      at_eof <- curTokenIs EOF;;
      if at_eof : bool then ret stmts
      else
        statement <- parseStatement fuel;;
        nextToken;;;
        ParseProgram_loop fuel n' (stmts ++ [statement])
  end.

Definition ParseProgram (fuel : nat) : M Program :=
  stmts <- ParseProgram_loop fuel fuel [];;
  ret {| Statements := stmts |}.

Definition New (lx : lexer.Lexer) : Parser :=
  let p := {| l := lx; curToken := token.zero; peekToken := token.zero;
              errors := [] |} in
  advance (advance p).

(** Lexing and parsing a source text, as the tests do: the program and
    the parser's error list. *)
Definition parse (fuel : nat) (input : string) : option (Program * list string) :=
  match ParseProgram fuel (New (lexer.New input)) with
  | Some (prog, p) => Some (prog, Errors p)
  | None => None
  end.

End parser.

(* ===================================================================== *)
(** ** Outcomes of the evaluator *)
(* ===================================================================== *)

(** What a call of the Go program can do: return a value, panic at run
    time, or (in the embedding only) exhaust its fuel. [Unmodelled] marks
    the places where the result depends on something the embedding does
    not track: the address of an object on Go's heap, the capacity and
    the sharing of the array under a slice, the order of a [range] over
    a map, and the parts of a [fmt] format that are left out. *)
Inductive Outcome (A : Type) : Type :=
| Ok (a : A)
| Panic (msg : string)
| OutOfFuel
| Unmodelled (what : string).

Arguments Ok {A} a.
Arguments Panic {A} msg.
Arguments OutOfFuel {A}.
Arguments Unmodelled {A} what.

Definition obind {A B} (m : Outcome A) (k : A -> Outcome B) : Outcome B :=
  match m with
  | Ok a => k a
  | Panic msg => Panic msg
  | OutOfFuel => OutOfFuel
  | Unmodelled w => Unmodelled w
  end.

Declare Scope outcome_scope.
Delimit Scope outcome_scope with outcome.
Notation "x <- m ;; k" := (obind m (fun x => k)) (only parsing) : outcome_scope.

Definition nil_dereference : string :=
  "invalid memory address or nil pointer dereference".
Definition index_out_of_range : string := "index out of range".
Definition slice_bounds_out_of_range : string := "slice bounds out of range".
Definition interface_conversion : string := "interface conversion".
Definition integer_divide_by_zero : string := "integer divide by zero".

(** [s[i]] on a slice: a run-time panic outside [0 <= i < len(s)]. *)
Definition slice_index {A} (s : list A) (i : Z) : Outcome A :=
  if (i <? 0) then Panic index_out_of_range
  else match s !! Z.to_nat i with
       | Some a => Ok a
       | None => Panic index_out_of_range
       end.

(** [s[low:]] on a slice: a run-time panic unless [0 <= low <= len(s)]. *)
Definition slice_from {A} (s : list A) (low : Z) : Outcome (list A) :=
  if ((0 <=? low) && (low <=? Z.of_nat (List.length s)))%bool
  then Ok (drop (Z.to_nat low) s)
  else Panic slice_bounds_out_of_range.

(* ===================================================================== *)
(** ** Package fmt of the Go standard library *)
(* ===================================================================== *)

Module fmt.

Definition is_letter (c : ascii) : bool :=
  (lexer.byte_between "a" c "z" || lexer.byte_between "A" c "Z")%bool.

(** [fmt.Sprintf(format)] called without operands, after the
    documentation of the package: the bytes of the format are copied up
    to a percent sign; [%%] is a percent sign; a percent sign followed by
    a letter is a verb, which finds no operand and is reported as
    [%!verb(MISSING)]; a percent sign that ends the format is reported as
    [%!(NOVERB)]. Flags, widths, precisions and argument indexes (a
    percent sign followed by any other byte) are left out. *)
Fixpoint Sprintf (format : string) : Outcome string :=
  match format with
  | EmptyString => Ok EmptyString
  | String c rest =>
      if Ascii.eqb c "%" then
        match rest with
        | EmptyString => Ok "%!(NOVERB)"
        | String verb rest' =>
            if Ascii.eqb verb "%" then
              obind (Sprintf rest') (fun r => Ok (String "%" r))
            else if is_letter verb then
              obind (Sprintf rest')
                (fun r => Ok ("%!" +:+ String verb ("(MISSING)" +:+ r)))
            else Unmodelled "flags, width, precision or index in a format"
        end
      else obind (Sprintf rest) (fun r => Ok (String c r))
  end.

End fmt.

(* ===================================================================== *)
(** ** Package object *)
(* ===================================================================== *)

Module object.

Definition ObjectType := string.

Definition INTEGER_OBJ : ObjectType := "INTEGER".
Definition BOOLEAN_OBJ : ObjectType := "BOOLEAN".
Definition NULL_OBJ : ObjectType := "NULL".
Definition RETURN_VALUE_OBJ : ObjectType := "RETURN_VALUE".
Definition ERROR_OBJ : ObjectType := "ERROR".
Definition FUNCTION_OBJ : ObjectType := "FUNCTION".
Definition STRING_OBJ : ObjectType := "STRING".
Definition BUILTIN_OBJ : ObjectType := "BUILTIN".
Definition ARRAY_OBJ : ObjectType := "ARRAY".
Definition HASH_OBJ : ObjectType := "HASH".

Record HashKey := mkHashKey { Type_ : ObjectType; Value : Z }.

#[global] Instance HashKey_eq_dec : EqDecision HashKey.
Proof. solve_decision. Defined.

#[global] Instance HashKey_countable : Countable HashKey.
Proof.
  refine (inj_countable' (fun k => (Type_ k, Value k))
            (fun tv => mkHashKey tv.1 tv.2) _).
  intros []; reflexivity.
Defined.

(** The Go functions stored in [Builtin.Fn], by name. *)
Inductive BuiltinFn := fn_length | fn_head | fn_tail | fn_last | fn_push.

#[global] Instance BuiltinFn_eq_dec : EqDecision BuiltinFn.
Proof. solve_decision. Defined.

(** An environment is referred to by its index in the heap. *)
Abbreviation EnvRef := nat.

(** The values of the interface type [Object]. [Nil] is the nil
    interface value: [Eval] returns it for an empty block or a missing
    expression. *)
Inductive Object :=
| Nil
| Integer (Value : Z)
| Boolean (Value : bool)
| Null
| ReturnValue (Value : Object)
| Error (Message : string)
| Function (Parameters : list ast.Identifier) (Body : ast.BlockStatement)
    (Env : EnvRef)
| String (Value : string)
| Builtin (Fn : BuiltinFn)
| Array (Elements : list Object)
| Hash (Pairs : gmap HashKey HashPair)
with HashPair :=
| mkHashPair (Key : Object) (Value : Object).

Definition HashPair_Value (p : HashPair) : Object :=
  match p with mkHashPair _ v => v end.

(** The method [Type()]; there is none to call on the nil interface. *)
Definition Type_of (o : Object) : Outcome ObjectType :=
  match o with
  | Nil => Panic nil_dereference
  | Integer _ => Ok INTEGER_OBJ
  | Boolean _ => Ok BOOLEAN_OBJ
  | Null => Ok NULL_OBJ
  | ReturnValue _ => Ok RETURN_VALUE_OBJ
  | Error _ => Ok ERROR_OBJ
  | Function _ _ _ => Ok FUNCTION_OBJ
  | String _ => Ok STRING_OBJ
  | Builtin _ => Ok BUILTIN_OBJ
  | Array _ => Ok ARRAY_OBJ
  | Hash _ => Ok HASH_OBJ
  end.

(** FNV-1a, 64 bits ([hash/fnv.New64a]). *)
Definition fnv_offset64 : Z := 14695981039346656037.
Definition fnv_prime64 : Z := 1099511628211.

Fixpoint fnv64a (h : Z) (s : string) : Z :=
  match s with
  | EmptyString => h
  | String.String c r =>
      fnv64a ((Z.lxor h (Z.of_nat (nat_of_ascii c)) * fnv_prime64) mod 2 ^ 64) r
  end.

Definition Integer_HashKey (v : Z) : HashKey :=
  {| Type_ := INTEGER_OBJ; Value := to_uint64 v |}.

Definition Boolean_HashKey (b : bool) : HashKey :=
  let value := if b then 1 else 0 in
  {| Type_ := BOOLEAN_OBJ; Value := to_uint64 value |}.

Definition String_HashKey (s : string) : HashKey :=
  {| Type_ := STRING_OBJ; Value := fnv64a fnv_offset64 s |}.

(** The interface [Hashable]: the type assertion [o.(Hashable)]
    succeeds on integers, booleans and strings, and then [HashKey()]
    is the method of the dynamic type. *)
Definition HashKey_of (o : Object) : option HashKey :=
  match o with
  | Integer v => Some (Integer_HashKey v)
  | Boolean b => Some (Boolean_HashKey b)
  | String s => Some (String_HashKey s)
  | _ => None
  end.

(** *** Environments *)

Record Environment := {
  store : gmap string Object;
  outer : option EnvRef
}.

(** Go's heap, restricted to the environments. A reference outside the
    heap plays the role of a nil [*Environment]. *)
Abbreviation Heap := (list Environment).

Definition NewEnvironment (h : Heap) : EnvRef * Heap :=
  (List.length h, (h ++ [{| store := ∅; outer := None |}])%list).

Definition NewEnclosedEnvironment (outer : EnvRef) (h : Heap) : EnvRef * Heap :=
  (List.length h, (h ++ [{| store := ∅; outer := Some outer |}])%list).

(** [Environment.Get]: the pair [(val, ok)] is [Some val] when [ok]
    holds. The recursion follows the [outer] links; [fuel] bounds it. *)
Fixpoint Get_fuel (fuel : nat) (h : Heap) (e : EnvRef) (key : string)
  : Outcome (option Object) :=
  match fuel with
  | O => OutOfFuel
  | S fuel' =>
      match h !! e with
      | None => Panic nil_dereference
      | Some env =>
          match store env !! key, outer env with
          | None, Some o => Get_fuel fuel' h o key
          | r, _ => Ok r
          end
      end
  end.

(** A chain of [outer] links without a cycle is no longer than the
    heap. *)
Definition Get (h : Heap) (e : EnvRef) (key : string) : Outcome (option Object) :=
  Get_fuel (S (List.length h)) h e key.

(** [Environment.Set] updates the scope in place and returns [val]. *)
Definition Set_ (h : Heap) (e : EnvRef) (key : string) (val : Object)
  : Outcome (Object * Heap) :=
  match h !! e with
  | None => Panic nil_dereference
  | Some env =>
      Ok (val, <[e := {| store := <[key := val]> (store env);
                         outer := outer env |}]> h)
  end.

End object.

(* ===================================================================== *)
(** ** Package evaluator *)
(* ===================================================================== *)

Module evaluator.
Import ast.

Abbreviation Object := object.Object.
Abbreviation Heap := object.Heap.
Abbreviation EnvRef := object.EnvRef.

(** The three shared objects. Every boolean and every null of a run is
    one of them, so comparing two of them by address is comparing their
    values. *)
Definition TRUE : Object := object.Boolean true.
Definition FALSE : Object := object.Boolean false.
Definition NULL : Object := object.Null.

(** [newError(format, a...)] at the calls whose format is a constant:
    every verb of these formats is [%v] and every operand is a string (an
    operator, an object type), so that [msg], the message [fmt.Sprintf]
    produces, is the format with the operands in the place of the
    verbs. *)
Definition newError (msg : string) : Object := object.Error msg.

(** [newError(format)] at the call of [evalIdentifier], where the format
    is computed from the program's text and there is no operand. *)
Definition newError_format (format : string) : Outcome Object :=
  obind (fmt.Sprintf format) (fun msg => Ok (object.Error msg)).

Definition isError (obj : Object) : bool :=
  match obj with object.Error _ => true | _ => false end.

Definition nativeBoolToBooleanObject (val : bool) : Object :=
  if val then TRUE else FALSE.

Definition isTruthy (obj : Object) : bool :=
  match obj with
  | object.Boolean false | object.Null => false
  | _ => true
  end.

Definition unwrapReturnValue (obj : Object) : Object :=
  match obj with object.ReturnValue v => v | _ => obj end.

(** *** builtins.go *)

Section builtin_functions.
Local Open Scope outcome_scope.

Definition wrong_number_of_arguments (got : nat) (want : string) : Object :=
  object.Error ("wrong number of arguments. got=" +:+ pretty got
                +:+ ", want=" +:+ want +:+ ")").

Definition length (args : list Object) : Outcome Object :=
  if negb (List.length args =? 1)%nat
  then Ok (wrong_number_of_arguments (List.length args) "1")
  else
    arg <- slice_index args 0;;
    match arg with
    | object.String v => Ok (object.Integer (Z.of_nat (String.length v)))
    | object.Array elements =>
        Ok (object.Integer (Z.of_nat (List.length elements)))
    | _ =>
        t <- object.Type_of arg;;
        Ok (object.Error ("argument to `len` not supported, got " +:+ t))
    end.

Definition head (args : list Object) : Outcome Object :=
  if negb (List.length args =? 1)%nat
  then Ok (wrong_number_of_arguments (List.length args) "1")
  else
    arg <- slice_index args 0;;
    match arg with
    | object.Array elements =>
        if (List.length elements =? 0)%nat then Ok NULL
        else slice_index elements 0
    | _ =>
        t <- object.Type_of arg;;
        Ok (object.Error ("argument to `len` not supported, got " +:+ t))
    end.

Definition tail (args : list Object) : Outcome Object :=
  if negb (List.length args =? 1)%nat
  then Ok (wrong_number_of_arguments (List.length args) "1")
  else
    arg <- slice_index args 0;;
    match arg with
    | object.Array elements =>
        if (List.length elements <? 2)%nat then Ok (object.Array [])
        else
          rest <- slice_from elements 1;;
          Ok (object.Array rest)
    | _ =>
        t <- object.Type_of arg;;
        Ok (object.Error ("argument to `len` not supported, got " +:+ t))
    end.

Definition last (args : list Object) : Outcome Object :=
  if negb (List.length args =? 1)%nat
  then Ok (wrong_number_of_arguments (List.length args) "1")
  else
    arg <- slice_index args 0;;
    match arg with
    | object.Array elements =>
        if (List.length elements =? 0)%nat then Ok NULL
        else slice_index elements (Z.of_nat (List.length elements) - 1)
    | _ =>
        t <- object.Type_of arg;;
        Ok (object.Error ("argument to `len` not supported, got " +:+ t))
    end.

(** On an array [push] returns [append(arr.Elements, args[1])]. When the
    array under [arr.Elements] has spare capacity, [append] writes the
    new element into it, and that element is then shared with every
    array an earlier [push] made of [arr] in the same way: a later [push]
    changes the result of an earlier one. The values of the embedding
    are not shared and carry no capacity, so this call is left out. *)
Definition push (args : list Object) : Outcome Object :=
  if negb (List.length args =? 2)%nat
  then Ok (wrong_number_of_arguments (List.length args) "2")
  else
    arr <- slice_index args 0;;
    match arr with
    | object.Array elements =>
        x <- slice_index args 1;;
        Unmodelled "append to a slice of unknown capacity"
    | _ =>
        t <- object.Type_of arr;;
        Ok (object.Error ("argument to `push` not supported, got " +:+ t))
    end.

Definition builtins : gmap string object.BuiltinFn :=
  list_to_map
    [ ("len", object.fn_length); ("head", object.fn_head);
      ("tail", object.fn_tail); ("last", object.fn_last);
      ("push", object.fn_push) ].

(** The call [function.Fn(args...)]. *)
Definition callBuiltin (fn : object.BuiltinFn) (args : list Object)
  : Outcome Object :=
  match fn with
  | object.fn_length => length args
  | object.fn_head => head args
  | object.fn_tail => tail args
  | object.fn_last => last args
  | object.fn_push => push args
  end.

End builtin_functions.

(** *** evaluator.go *)

(** Evaluation reads and updates the heap of environments. *)
Definition E (A : Type) : Type := Heap -> Outcome (A * Heap).

Definition ret {A} (a : A) : E A := fun h => Ok (a, h).

Definition bind {A B} (m : E A) (k : A -> E B) : E B :=
  fun h => obind (m h) (fun r => k r.1 r.2).

Definition lift {A} (o : Outcome A) : E A :=
  fun h => obind o (fun a => Ok (a, h)).

Declare Scope eval_scope.
Delimit Scope eval_scope with eval.
Notation "x <- m ;; k" := (bind m (fun x => k)) (only parsing) : eval_scope.
Notation "m ;;; k" := (bind m (fun _ => k)) (only parsing) : eval_scope.
Local Open Scope eval_scope.

Definition Env_Get (e : EnvRef) (key : string) : E (option Object) :=
  fun h => obind (object.Get h e key) (fun r => Ok (r, h)).

Definition Env_Set (e : EnvRef) (key : string) (val : Object) : E Object :=
  fun h => object.Set_ h e key val.

Definition NewEnclosedEnvironment (outer : EnvRef) : E EnvRef :=
  fun h => Ok (object.NewEnclosedEnvironment outer h).

(** The comparison [left == right] of two interface values whose
    [Type()] agree: the addresses are compared. Booleans and null are
    shared objects, and a built-in is the pointer stored in the table;
    two objects of the other kinds are equal when they are the same
    allocation, which the embedding does not track. *)
Definition same_object (left right : Object) : Outcome bool :=
  match left, right with
  | object.Boolean a, object.Boolean b => Ok (Bool.eqb a b)
  | object.Null, object.Null => Ok true
  | object.Builtin f, object.Builtin g => Ok (bool_decide (f = g))
  | object.Nil, object.Nil => Ok true
  | object.ReturnValue _, object.ReturnValue _
  | object.Error _, object.Error _
  | object.Function _ _ _, object.Function _ _ _
  | object.Array _, object.Array _
  | object.Hash _, object.Hash _
  | object.Integer _, object.Integer _
  | object.String _, object.String _ => Unmodelled "address of an object"
  | _, _ => Ok false
  end.

Definition evalInfixIntegerExpression (op : string) (left right : Object)
  : Outcome Object :=
  match left, right with
  | object.Integer leftVal, object.Integer rightVal =>
      if String.eqb op "+" then Ok (object.Integer (wrap64 (leftVal + rightVal)))
      else if String.eqb op "-" then Ok (object.Integer (wrap64 (leftVal - rightVal)))
      else if String.eqb op "*" then Ok (object.Integer (wrap64 (leftVal * rightVal)))
      else if String.eqb op "/" then
        if rightVal =? 0 then Panic integer_divide_by_zero
        else Ok (object.Integer (wrap64 (Z.quot leftVal rightVal)))
      else if String.eqb op "==" then Ok (nativeBoolToBooleanObject (leftVal =? rightVal))
      else if String.eqb op "!=" then
        Ok (nativeBoolToBooleanObject (negb (leftVal =? rightVal)))
      else if String.eqb op ">" then Ok (nativeBoolToBooleanObject (leftVal >? rightVal))
      else if String.eqb op "<" then Ok (nativeBoolToBooleanObject (leftVal <? rightVal))
      else
        Ok (newError ("unknown operator: " +:+ object.INTEGER_OBJ +:+ " " +:+ op
                      +:+ " " +:+ object.INTEGER_OBJ))
  | _, _ => Panic interface_conversion
  end.

Definition evalInfixStringExpression (op : string) (left right : Object)
  : Outcome Object :=
  match left, right with
  | object.String leftVal, object.String rightVal =>
      if String.eqb op "+" then Ok (object.String (leftVal +:+ rightVal))
      else
        Ok (newError ("unknown operator: " +:+ object.STRING_OBJ +:+ " " +:+ op
                      +:+ " " +:+ object.STRING_OBJ))
  | _, _ => Panic interface_conversion
  end.

Definition evalInfixExpression (op : string) (left right : Object)
  : Outcome Object :=
  (lt <- object.Type_of left;;
   rt <- object.Type_of right;;
   if negb (String.eqb lt rt) then
     Ok (newError ("type mismatch: " +:+ lt +:+ " " +:+ op +:+ " " +:+ rt))
   else if (String.eqb lt object.INTEGER_OBJ && String.eqb rt object.INTEGER_OBJ)%bool
   then evalInfixIntegerExpression op left right
   else if (String.eqb lt object.STRING_OBJ && String.eqb rt object.STRING_OBJ)%bool
   then evalInfixStringExpression op left right
   else if String.eqb op "==" then
     b <- same_object left right;; Ok (nativeBoolToBooleanObject b)
   else if String.eqb op "!=" then
     b <- same_object left right;; Ok (nativeBoolToBooleanObject (negb b))
   else
     Ok (newError ("unknown operator: " +:+ lt +:+ " " +:+ op +:+ " " +:+ rt))
  )%outcome.

Definition evalMinusPrefixOperatorExpression (right : Object) : Outcome Object :=
  (t <- object.Type_of right;;
   if negb (String.eqb t object.INTEGER_OBJ) then
     Ok (newError ("unknown operator: -" +:+ t))
   else
     match right with
     | object.Integer v => Ok (object.Integer (wrap64 (- v)))
     | _ => Panic interface_conversion
     end)%outcome.

Definition evalBangPrefixOperatorExpression (right : Object) : Object :=
  match right with
  | object.Boolean true => FALSE
  | object.Boolean false => TRUE
  | object.Null => TRUE
  | _ => FALSE
  end.

Definition evalPrefixExpression (op : string) (right : Object) : Outcome Object :=
  if String.eqb op "!" then Ok (evalBangPrefixOperatorExpression right)
  else if String.eqb op "-" then evalMinusPrefixOperatorExpression right
  else (t <- object.Type_of right;;
        Ok (newError ("unknown operator: " +:+ op +:+ " " +:+ t)))%outcome.

Definition evalIndexExpression (left index : Object) : Outcome Object :=
  match left with
  | object.Array elements =>
      match index with
      | object.Integer idx =>
          let max := Z.of_nat (List.length elements) - 1 in
          if ((idx <? 0) || (idx >? max))%bool then Ok NULL
          else slice_index elements idx
      | _ => Panic interface_conversion
      end
  | object.Hash pairs =>
      match object.HashKey_of index with
      | None =>
          (t <- object.Type_of index;;
           Ok (newError ("unusable as hash key: " +:+ t)))%outcome
      | Some key =>
          match pairs !! key with
          | None => Ok NULL
          | Some entry => Ok (object.HashPair_Value entry)
          end
      end
  | _ => Ok NULL
  end.

Definition evalIdentifier (node : Identifier) (env : EnvRef) : E Object :=
  r <- Env_Get env (Value node);;
  match builtins !! Value node with
  | Some builtin => ret (object.Builtin builtin)
  | None =>
      match r with
      | None => lift (newError_format ("identifier not found: " +:+ Value node))
      | Some val => ret val
      end
  end.

Section eval.

(** The recursive calls of [Eval], with less fuel. *)
Variable Eval_rec : Node -> EnvRef -> E Object.

(** The loop of [evalProgram]; [result] is the variable of that name. *)
Fixpoint evalProgram_loop (statements : list Statement) (env : EnvRef)
  (result : Object) : E Object :=
  match statements with
  | [] => ret result
  | statement :: rest =>
      result <- Eval_rec (NStatement statement) env;;
      match result with
      | object.ReturnValue v => ret v
      | object.Error _ => ret result
      | _ => evalProgram_loop rest env result
      end
  end.

Definition evalProgram (statements : list Statement) (env : EnvRef) : E Object :=
  evalProgram_loop statements env object.Nil.

Fixpoint evalBlockStatement_loop (statements : list Statement) (env : EnvRef)
  (result : Object) : E Object :=
  match statements with
  | [] => ret result
  | statement :: rest =>
      result <- Eval_rec (NStatement statement) env;;
      match result with
      | object.ReturnValue _ => ret result
      | object.Error _ => ret result
      | _ => evalBlockStatement_loop rest env result
      end
  end.

Definition evalBlockStatement (block : BlockStatement) (env : EnvRef) : E Object :=
  evalBlockStatement_loop (block_Statements block) env object.Nil.

Fixpoint evalExpressions_loop (nodes : list Expression) (env : EnvRef)
  (objects : list Object) : E (list Object) :=
  match nodes with
  | [] => ret objects
  | node :: rest =>
      obj <- Eval_rec (NExpression node) env;;
      if isError obj then ret [obj]
      else evalExpressions_loop rest env (objects ++ [obj])
  end.

Definition evalExpressions (nodes : list Expression) (env : EnvRef)
  : E (list Object) :=
  evalExpressions_loop nodes env [].

Definition evalIfExpression (condition_node : Expression)
  (consequence : BlockStatement) (alternative : option BlockStatement)
  (env : EnvRef) : E Object :=
  condition <- Eval_rec (NExpression condition_node) env;;
  if isError condition then ret condition
  else if isTruthy condition then Eval_rec (NStatement (Block consequence)) env
  else match alternative with
       | Some alt => Eval_rec (NStatement (Block alt)) env
       | None => ret NULL
       end.

(** The loop [for i, arg := range args] of [applyFunction]. *)
Fixpoint bindArguments (parameters : list Identifier) (callEnv : EnvRef)
  (i : Z) (args : list Object) : E unit :=
  match args with
  | [] => ret tt
  | arg :: rest =>
      param <- lift (slice_index parameters i);;
      Env_Set callEnv (Value param) arg;;;
      bindArguments parameters callEnv (i + 1) rest
  end.

Definition applyFunction (fn : Object) (args : list Object) : E Object :=
  match fn with
  | object.Function parameters body env =>
      callEnv <- NewEnclosedEnvironment env;;
      bindArguments parameters callEnv 0 args;;;
      result <- evalBlockStatement body callEnv;;
      ret (unwrapReturnValue result)
  | object.Builtin f => lift (callBuiltin f args)
  | _ =>
      t <- lift (object.Type_of fn);;
      ret (newError ("not a function: " +:+ t))
  end.

(** The loop of the [HashLiteral] case, the pairs being taken in the
    order of [node_pairs]. *)
Fixpoint evalHashLiteral_loop (node_pairs : list (Expression * Expression))
  (env : EnvRef) (pairs : gmap object.HashKey object.HashPair)
  : E Object :=
  match node_pairs with
  | [] => ret (object.Hash pairs)
  | (key, value) :: rest =>
      keyObj <- Eval_rec (NExpression key) env;;
      if isError keyObj then ret keyObj
      else
        match object.HashKey_of keyObj with
        | None =>
            t <- lift (object.Type_of keyObj);;
            ret (newError ("Can't use expression of type " +:+ t
                           +:+ " as hash key"))
        | Some hashKey =>
            valObj <- Eval_rec (NExpression value) env;;
            if isError valObj then ret valObj
            else evalHashLiteral_loop rest env
                   (<[hashKey := object.mkHashPair keyObj valObj]> pairs)
        end
  end.

Definition Eval_statement (node : Statement) (env : EnvRef) : E Object :=
  match node with
  | ExpressionStatement _ expression => Eval_rec (NExpression expression) env
  | ReturnStatement _ returnValue =>
      val <- Eval_rec (NExpression returnValue) env;;
      if isError val then ret val
      else ret (object.ReturnValue val)
  | LetStatement _ name value =>
      val <- Eval_rec (NExpression value) env;;
      if isError val then ret val
      else Env_Set env (Value name) val
  | NilLetStatement => lift (Panic nil_dereference)
  | Block block => evalBlockStatement block env
  end.

Definition Eval_expression (node : Expression) (env : EnvRef) : E Object :=
  match node with
  | NoExpression => ret object.Nil
  | HashLiteral pairs =>
      match pairs with
      | [] | [_] => evalHashLiteral_loop pairs env ∅
      | _ => lift (Unmodelled "order of a range over a map")
      end
  | StringLiteral _ value => ret (object.String value)
  | FunctionLiteral _ parameters body =>
      ret (object.Function parameters body env)
  | CallExpression _ function arguments =>
      function <- Eval_rec (NExpression function) env;;
      if isError function then ret function
      else
        args <- evalExpressions arguments env;;
        match args with
        | [arg] => if isError arg then ret arg else applyFunction function args
        | _ => applyFunction function args
        end
  | ArrayLiteral _ elements =>
      elements <- evalExpressions elements env;;
      match elements with
      | [element] =>
          if isError element then ret element else ret (object.Array elements)
      | _ => ret (object.Array elements)
      end
  | IndexExpression left_node index_node =>
      left <- Eval_rec (NExpression left_node) env;;
      if isError left then ret left
      else
        index <- Eval_rec (NExpression index_node) env;;
        if isError index then ret index
        else lift (evalIndexExpression left index)
  | Ident node => evalIdentifier node env
  | IfExpression _ condition consequence alternative =>
      evalIfExpression condition consequence alternative env
  | IntegerLiteral _ value => ret (object.Integer value)
  | BooleanExpression _ value => ret (nativeBoolToBooleanObject value)
  | PrefixExpression _ operator right_node =>
      right <- Eval_rec (NExpression right_node) env;;
      if isError right then ret right
      else lift (evalPrefixExpression operator right)
  | InfixExpression _ left_node operator right_node =>
      left <- Eval_rec (NExpression left_node) env;;
      right <- Eval_rec (NExpression right_node) env;;
      if isError left then ret left
      else if isError right then ret right
      else lift (evalInfixExpression operator left right)
  end.

Definition Eval_body (node : Node) (env : EnvRef) : E Object :=
  match node with
  | NProgram program => evalProgram (Statements program) env
  | NStatement statement => Eval_statement statement env
  | NExpression expression => Eval_expression expression env
  end.

End eval.

Fixpoint Eval (fuel : nat) (node : Node) (env : EnvRef) : E Object :=
  match fuel with
  | O => fun _ => OutOfFuel
  | S fuel' => Eval_body (Eval fuel') node env
  end.

(** The test helper [testEval]: lex, parse, and evaluate the program in
    a fresh environment. *)
Definition testEval (fuel : nat) (input : string) : Outcome Object :=
  match parser.parse fuel input with
  | None => OutOfFuel
  | Some (program, _) =>
      let '(env, h) := object.NewEnvironment [] in
      obind (Eval fuel (NProgram program) env h) (fun r => Ok r.1)
  end.

End evaluator.

(* ===================================================================== *)
(** * Vocabulary of the properties *)
(* ===================================================================== *)

Section vocabulary.
Import parser evaluator.

(** ** Built-in functions *)

(** The number of arguments a built-in asks for. *)
Definition arity (fn : object.BuiltinFn) : nat :=
  match fn with object.fn_push => 2%nat | _ => 1%nat end.

(** Whether a built-in supports [arg] as its first argument. *)
Definition supported (fn : object.BuiltinFn) (arg : Object) : bool :=
  match fn, arg with
  | object.fn_length, object.String _ => true
  | _, object.Array _ => true
  | _, _ => false
  end.

Definition is_Array (o : Object) : bool :=
  match o with object.Array _ => true | _ => false end.

(** ** Parser *)

(** The dynamic type of the statement is pointer to [ast.LetStatement]:
    what a type assertion to that type and the type switch of [Eval]
    test. The nil pointer of that type passes both. *)
Definition is_LetStatement (s : ast.Statement) : bool :=
  match s with
  | ast.NilLetStatement | ast.LetStatement _ _ _ => true
  | _ => false
  end.

(** What [p.expectPeek(token.SEMICOLON)] leaves behind, its result being
    ignored: the semicolon is consumed, or its absence is recorded. *)
Definition after_semicolon (p : Parser) : Parser :=
  if String.eqb (token.Type_ (peekToken p)) token.SEMICOLON then advance p
  else with_error p ("Expected token ;, instead got "
                     +:+ token.Type_ (peekToken p)).

(** [m2] returns whatever [m1] returns. *)
Definition M_le {A} (m1 m2 : M A) : Prop :=
  forall p r, m1 p = Some r -> m2 p = Some r.

(** ** Evaluator *)

(** [m2] has the outcome of [m1], unless [m1] ran out of fuel. *)
Definition E_le {A} (m1 m2 : E A) : Prop :=
  forall h, m1 h = OutOfFuel \/ m2 h = m1 h.

(** Every environment that is allocated before [m] still is after it. *)
Definition grows {A} (m : E A) : Prop :=
  forall h a h', m h = Ok (a, h') -> (List.length h <= List.length h')%nat.

(** Environments are created after the environment they enclose: every
    [outer] link points to an older environment. *)
Definition wf_heap (h : Heap) : Prop :=
  forall (e : EnvRef) env o,
    h !! e = Some env -> object.outer env = Some o -> (o < e)%nat.

(** No byte of [s] is a percent sign. *)
Fixpoint percent_free (s : string) : bool :=
  match s with
  | EmptyString => true
  | String c r => negb (Ascii.eqb c "%") && percent_free r
  end.

(** The results at which a block and a program stop. *)
Definition stops (r : Object) : bool :=
  match r with
  | object.ReturnValue _ | object.Error _ => true
  | _ => false
  end.

(** [RunsThrough ev env statements h h']: evaluated in sequence from the
    heap [h], none of the statements gives a [ReturnValue] or an [Error],
    and the heap is [h'] at the end. *)
Inductive RunsThrough (ev : ast.Node -> EnvRef -> E Object) (env : EnvRef)
  : list ast.Statement -> Heap -> Heap -> Prop :=
| RunsThrough_nil (h : Heap) : RunsThrough ev env [] h h
| RunsThrough_cons (s : ast.Statement) (rest : list ast.Statement)
    (h h1 h2 : Heap) (r : Object) :
    ev (ast.NStatement s) env h = Ok (r, h1) ->
    stops r = false ->
    RunsThrough ev env rest h1 h2 ->
    RunsThrough ev env (s :: rest) h h2.

(** [EvaluatesTo ev env nodes h objects h']: evaluated in sequence from
    the heap [h], the expressions [nodes] give the values [objects], one
    each and none of them an [Error], and the heap is [h'] at the end. *)
Inductive EvaluatesTo (ev : ast.Node -> EnvRef -> E Object) (env : EnvRef)
  : list ast.Expression -> Heap -> list Object -> Heap -> Prop :=
| EvaluatesTo_nil (h : Heap) : EvaluatesTo ev env [] h [] h
| EvaluatesTo_cons (node : ast.Expression) (rest : list ast.Expression)
    (h h1 h2 : Heap) (obj : Object) (objects : list Object) :
    ev (ast.NExpression node) env h = Ok (obj, h1) ->
    isError obj = false ->
    EvaluatesTo ev env rest h1 objects h2 ->
    EvaluatesTo ev env (node :: rest) h (obj :: objects) h2.

(** The heap after [let len = 5]: a global environment that binds [len]. *)
Definition heap_with_len : Heap :=
  [{| object.store := {["len" := object.Integer 5]}; object.outer := None |}].

(** The value expression of [let x = if (true) { return 5; };]. *)
Definition if_true_return_5 : ast.Expression :=
  ast.IfExpression token.zero
    (ast.BooleanExpression {| token.Type_ := token.TRUE; token.Literal := "true" |} true)
    (ast.mkBlock {| token.Type_ := token.LBRACE; token.Literal := "{" |}
       [ast.ReturnStatement {| token.Type_ := token.RETURN; token.Literal := "return" |}
          (ast.IntegerLiteral {| token.Type_ := token.INT; token.Literal := "5" |} 5)])
    None.

(** ** Test inputs *)

(** A string literal of the language: [s] between double quotes. *)
Definition quoted (s : string) : string :=
  String "034" s +:+ String "034" EmptyString.

Definition unlines (lines : list string) : string :=
  fold_right (fun line rest => line +:+ String "010" (String "009" rest))
    EmptyString lines.

(** The kinds and literals of a token sequence, as the lexer's test lists
    them. *)
Definition kinds_and_literals (ts : list token.Token)
  : list (token.TokenType * string) :=
  map (fun t => (token.Type_ t, token.Literal t)) ts.

(** The expressions of a program's expression statements. *)
Definition expressions_of (r : option (ast.Program * list string))
  : option (list ast.Expression * list string) :=
  match r with
  | Some (program, errs) =>
      Some (omap (fun s => match s with
                           | ast.ExpressionStatement _ e => Some e
                           | _ => None
                           end) (ast.Statements program), errs)
  | None => None
  end.

(** ** Syntax trees without nil *)

(** A tree is free of nil when no expression slot holds the nil interface
    and no statement slot holds a nil [*LetStatement]. *)
Fixpoint nil_free_Expression (e : ast.Expression) : bool :=
  match e with
  | ast.NoExpression => false
  | ast.Ident _ | ast.IntegerLiteral _ _ | ast.BooleanExpression _ _
  | ast.StringLiteral _ _ => true
  | ast.PrefixExpression _ _ r => nil_free_Expression r
  | ast.InfixExpression _ l _ r =>
      nil_free_Expression l && nil_free_Expression r
  | ast.IfExpression _ condition consequence alternative =>
      nil_free_Expression condition && nil_free_Block consequence
      && match alternative with
         | Some alt => nil_free_Block alt
         | None => true
         end
  | ast.FunctionLiteral _ _ body => nil_free_Block body
  | ast.CallExpression _ function arguments =>
      nil_free_Expression function && List.forallb nil_free_Expression arguments
  | ast.ArrayLiteral _ elements => List.forallb nil_free_Expression elements
  | ast.IndexExpression l index =>
      nil_free_Expression l && nil_free_Expression index
  | ast.HashLiteral pairs =>
      List.forallb (fun kv => match kv with
                              | (k, v) => nil_free_Expression k && nil_free_Expression v
                              end) pairs
  end
with nil_free_Statement (s : ast.Statement) : bool :=
  match s with
  | ast.NilLetStatement => false
  | ast.LetStatement _ _ value => nil_free_Expression value
  | ast.ReturnStatement _ value => nil_free_Expression value
  | ast.ExpressionStatement _ expression => nil_free_Expression expression
  | ast.Block block => nil_free_Block block
  end
with nil_free_Block (b : ast.BlockStatement) : bool :=
  match b with
  | ast.mkBlock _ statements => List.forallb nil_free_Statement statements
  end.

(** [recorded P m Q]: [m] only appends to the parser's errors, and when
    it appends none (and [P] holds) its result satisfies [Q]. *)
Definition recorded {A} (P : Prop) (m : M A) (Q : A -> Prop) : Prop :=
  forall p a p',
    m p = Some (a, p') ->
    errors p `prefix_of` errors p'
    /\ (P -> errors p' = errors p -> Q a).

(** ** A program that tells lexical from dynamic scope *)

Definition name (s : string) : ast.Identifier :=
  {| ast.Token := {| token.Type_ := token.IDENT; token.Literal := s |};
     ast.Value := s |}.

(** The block [{ e }], [first] being the first token of [e]. *)
Definition block_of (first : token.Token) (e : ast.Expression)
  : ast.BlockStatement :=
  ast.mkBlock {| token.Type_ := token.LBRACE; token.Literal := "{" |}
    [ast.ExpressionStatement first e].

(** [let x = a; let f = fn() { x }; let g = fn(x) { f() }; g(b)], the
    two integer literals being written [lit_a] and [lit_b] in the text. *)
Definition scoping_program (a b : Z) (lit_a lit_b : string) : ast.Program :=
  let tok_let := {| token.Type_ := token.LET; token.Literal := "let" |} in
  let tok_fn := {| token.Type_ := token.FUNCTION; token.Literal := "fn" |} in
  let tok_call := {| token.Type_ := token.LPAREN; token.Literal := "(" |} in
  let int n lit := ast.IntegerLiteral {| token.Type_ := token.INT; token.Literal := lit |} n in
  {| ast.Statements :=
       [ ast.LetStatement tok_let (name "x") (int a lit_a);
         ast.LetStatement tok_let (name "f")
           (ast.FunctionLiteral tok_fn []
              (block_of (ast.Token (name "x")) (ast.Ident (name "x"))));
         ast.LetStatement tok_let (name "g")
           (ast.FunctionLiteral tok_fn [name "x"]
              (block_of (ast.Token (name "f"))
                 (ast.CallExpression tok_call (ast.Ident (name "f")) [])));
         ast.ExpressionStatement (ast.Token (name "g"))
           (ast.CallExpression tok_call (ast.Ident (name "g")) [int b lit_b]) ] |}.

(** ** Heaps over time *)

(** [extends h h']: every environment of [h] is still there in [h'], with
    the same enclosing environment and with every name it bound still
    bound (possibly to another value). *)
Definition extends (h h' : Heap) : Prop :=
  (List.length h <= List.length h')%nat
  /\ forall (e : EnvRef) env,
       h !! e = Some env ->
       exists env',
         h' !! e = Some env'
         /\ object.outer env' = object.outer env
         /\ forall key, is_Some (object.store env !! key) ->
                        is_Some (object.store env' !! key).

(** [m] only extends the heap. *)
Definition keeps {A} (m : E A) : Prop :=
  forall h a h', m h = Ok (a, h') -> extends h h'.

Definition no_error (o : Object) : Prop := isError o = false.

End vocabulary.

(* ===================================================================== *)
(** * Properties *)
(* ===================================================================== *)

(** ** Machine integers and slices *)

Lemma to_uint64_inj (i j : Z) :
  in_int64 i -> in_int64 j -> to_uint64 i = to_uint64 j -> i = j.
Proof.
  unfold in_int64, int64_min, int64_max, to_uint64.
  intros Hi Hj Heq.
  pose proof (Z.div_mod i (2 ^ 64) ltac:(lia)) as Di.
  pose proof (Z.div_mod j (2 ^ 64) ltac:(lia)) as Dj.
  pose proof (Z.mod_pos_bound i (2 ^ 64) ltac:(lia)) as Bi.
  rewrite Heq in Di.
  lia.
Qed.

Lemma wrap64_in_int64 (z : Z) : in_int64 (wrap64 z).
Proof.
  unfold in_int64, int64_min, int64_max, wrap64.
  pose proof (Z.mod_pos_bound (z + 2 ^ 63) (2 ^ 64) ltac:(lia)). lia.
Qed.

Lemma to_uint64_wrap64 (u : Z) :
  0 <= u < 2 ^ 64 -> to_uint64 (wrap64 u) = u.
Proof.
  intros Hu. unfold to_uint64, wrap64.
  rewrite Zminus_mod_idemp_l.
  replace (u + 2 ^ 63 - 2 ^ 63) with u by lia.
  apply Z.mod_small. lia.
Qed.

Lemma slice_index_Ok {A} (s : list A) (i : Z) :
  0 <= i < Z.of_nat (List.length s) -> exists a, slice_index s i = Ok a.
Proof.
  intros Hi. unfold slice_index.
  destruct (Z.ltb_spec i 0); [lia|].
  destruct (s !! Z.to_nat i) as [a|] eqn:Hl; [eauto|].
  apply lookup_ge_None in Hl. lia.
Qed.

Lemma slice_index_out_of_range {A} (s : list A) (i : Z) :
  Z.of_nat (List.length s) <= i -> slice_index s i = Panic index_out_of_range.
Proof.
  intros Hi. unfold slice_index.
  destruct (Z.ltb_spec i 0); [reflexivity|].
  rewrite (proj2 (lookup_ge_None s (Z.to_nat i))); [reflexivity|lia].
Qed.

Lemma slice_index_0 {A} (a : A) (s : list A) : slice_index (a :: s) 0 = Ok a.
Proof. reflexivity. Qed.

Lemma slice_from_Ok {A} (s : list A) (low : Z) :
  0 <= low <= Z.of_nat (List.length s) ->
  slice_from s low = Ok (drop (Z.to_nat low) s).
Proof.
  intros [H1 H2]. unfold slice_from.
  destruct (Z.leb_spec 0 low); [|lia].
  destruct (Z.leb_spec low (Z.of_nat (List.length s))); [reflexivity|lia].
Qed.

(** ** Hash keys *)

Section hash_keys.
Import object.

(** C10. Hash keys are injective on integers (the conversion to
    [uint64] is a bijection between the two 64-bit ranges) and on the
    two booleans, and two hashable values whose types differ have
    different hash keys, since the key records the type. *)
Theorem HashKey_injective :
  (forall i j : Z, in_int64 i -> in_int64 j ->
     HashKey_of (Integer i) = HashKey_of (Integer j) -> i = j)
  /\ (forall u : Z, 0 <= u < 2 ^ 64 ->
        exists i, in_int64 i /\ Value (Integer_HashKey i) = u)
  /\ HashKey_of (Boolean true) <> HashKey_of (Boolean false)
  /\ (forall (u v : Object) (ku kv : HashKey),
        HashKey_of u = Some ku -> HashKey_of v = Some kv ->
        Type_of u <> Type_of v -> ku <> kv).
Proof.
  repeat split.
  - intros i j Hi Hj Heq. simpl in Heq.
    injection Heq as Heq. eauto using to_uint64_inj.
  - intros u Hu. exists (wrap64 u).
    split; [apply wrap64_in_int64 | simpl; by apply to_uint64_wrap64].
  - discriminate.
  - intros u v ku kv Hu Hv Hty ->.
    destruct u; try discriminate; destruct v; try discriminate;
      simpl in *; simplify_eq; try discriminate; by apply Hty.
Qed.

Lemma HashKey_injective_witness :
  in_int64 (-1) /\ in_int64 (-1)
  /\ (HashKey_of (Integer (-1)) = HashKey_of (Integer (-1)) -> -1 = -1)
  /\ Integer_HashKey (-1) = {| Type_ := INTEGER_OBJ; Value := 2 ^ 64 - 1 |}.
Proof.
  assert (H : in_int64 (-1)) by (unfold in_int64, int64_min, int64_max; lia).
  split; [exact H|]. split; [exact H|]. split.
  - exact (proj1 HashKey_injective (-1) (-1) H H).
  - reflexivity.
Defined.

End hash_keys.

(** ** Built-in functions *)

Section builtin_properties.
Import evaluator.

Lemma Type_of_not_Nil (o : Object) :
  o <> object.Nil -> exists t, object.Type_of o = Ok t.
Proof. destruct o; intros H; simpl; eauto; congruence. Qed.

Lemma tail_Array (elements : list Object) :
  tail [object.Array elements] = Ok (object.Array (drop 1 elements)).
Proof.
  destruct elements as [|x [|y elements]]; try reflexivity.
  unfold tail. rewrite slice_index_0. cbn [List.length Nat.eqb negb obind].
  change (S (S (List.length elements)) <? 2)%nat with false. cbv iota.
  rewrite slice_from_Ok; [reflexivity|].
  cbn [List.length]. lia.
Qed.

(** A built-in returns a value, or panics in the call of [Type()], for
    the error message, on a nil first argument, or is [push] on an
    array. *)
Lemma callBuiltin_outcome (fn : object.BuiltinFn) (args : list Object) :
  (exists result, callBuiltin fn args = Ok result)
  \/ (callBuiltin fn args = Panic nil_dereference
      /\ args !! 0%nat = Some object.Nil)
  \/ (exists what elements,
        callBuiltin fn args = Unmodelled what
        /\ fn = object.fn_push
        /\ args !! 0%nat = Some (object.Array elements)).
Proof.
  destruct fn; simpl.
  - destruct args as [|a [|? ?]]; simpl; eauto.
    destruct a; simpl; eauto.
  - destruct args as [|a [|? ?]]; simpl; eauto.
    destruct a as [| | | | | | | | |elements|]; simpl; eauto.
    destruct elements; simpl; eauto.
  - destruct args as [|a [|? ?]]; simpl; eauto.
    destruct a as [| | | | | | | | |elements|]; simpl; eauto.
    rewrite tail_Array. eauto.
  - destruct args as [|a [|? ?]]; simpl; eauto.
    destruct a as [| | | | | | | | |elements|]; simpl; eauto.
    destruct elements as [|x elements]; [simpl; eauto|].
    destruct (slice_index_Ok (x :: elements)
                (Z.of_nat (List.length (x :: elements)) - 1)) as [a Ha].
    { simpl. lia. }
    left. exists a. unfold last.
    cbn [List.length Nat.eqb negb obind slice_index lookup list_lookup Z.ltb
         Z.compare Z.to_nat].
    exact Ha.
  - destruct args as [|a [|b [|? ?]]]; simpl; eauto.
    destruct a; simpl; eauto 10.
Qed.

Lemma callBuiltin_wrong_count (fn : object.BuiltinFn) (args : list Object) :
  List.length args <> arity fn ->
  exists msg, callBuiltin fn args = Ok (object.Error msg).
Proof.
  intros H.
  destruct fn; simpl in *;
    unfold evaluator.length, head, tail, last, push;
    match goal with
    | |- context [(?n =? ?m)%nat] => destruct (Nat.eqb_spec n m)
    end; try lia; simpl; eauto.
Qed.

Lemma callBuiltin_unsupported (fn : object.BuiltinFn) (arg : Object)
  (rest : list Object) :
  arg <> object.Nil -> supported fn arg = false ->
  exists msg, callBuiltin fn (arg :: rest) = Ok (object.Error msg).
Proof.
  intros Hnil Hsup.
  destruct (decide (List.length (arg :: rest) = arity fn)) as [Hlen|Hlen];
    [|by apply callBuiltin_wrong_count].
  destruct fn; simpl in Hlen;
    destruct rest as [|b [|? ?]]; simpl in Hlen; try lia;
    destruct arg; simpl in *; try done; eauto.
Qed.

Lemma callBuiltin_nil (fn : object.BuiltinFn) (rest : list Object) :
  List.length (object.Nil :: rest) = arity fn ->
  callBuiltin fn (object.Nil :: rest) = Panic nil_dereference.
Proof.
  intros Hlen.
  destruct fn; simpl in Hlen;
    destruct rest as [|b [|? ?]]; simpl in Hlen; try lia; reflexivity.
Qed.

(** C2, at the failing inputs. [tail] of an array is the array of all
    elements but the first, and the empty array for the empty array; but
    every single-element array maps to the empty array too, where the
    row [tail([1])] of the repository's test table expects [[1]]. A
    first argument that is neither an array nor the nil interface gives
    an [Error]. *)
Theorem tail_spec :
  (forall elements : list Object,
     tail [object.Array elements] = Ok (object.Array (drop 1 elements)))
  /\ tail [object.Array []] = Ok (object.Array [])
  /\ (forall x : Object, tail [object.Array [x]] = Ok (object.Array []))
  /\ (forall arg : Object,
        arg <> object.Nil -> is_Array arg = false ->
        exists msg, tail [arg] = Ok (object.Error msg)).
Proof.
  split; [exact tail_Array|]. split; [reflexivity|]. split; [reflexivity|].
  intros arg Hnil Harr.
  apply (callBuiltin_unsupported object.fn_tail arg [] Hnil).
  by destruct arg.
Qed.

Lemma tail_spec_witness :
  object.Integer 1 <> object.Nil
  /\ is_Array (object.Integer 1) = false
  /\ exists msg, tail [object.Integer 1] = Ok (object.Error msg).
Proof.
  split; [discriminate|]. split; [reflexivity|].
  apply (proj2 (proj2 (proj2 tail_spec))); [discriminate|reflexivity].
Defined.

(** The row [tail([1]);] of [TestBuiltinFunctions], from the source
    text on: the empty array, not [[1]]. *)
Lemma tail_singleton_test_row :
  tail [object.Array [object.Integer 1]] <> Ok (object.Array [object.Integer 1])
  /\ testEval 10 "tail([1]);" = Ok (object.Array []).
Proof. split; [discriminate | vm_compute; reflexivity]. Qed.

End builtin_properties.

(** ** The parser: more fuel never changes a result *)

Section parser_fuel.
Import parser.
Local Open Scope parser_scope.

Lemma M_le_refl {A} (m : M A) : M_le m m.
Proof. intros p r H. exact H. Qed.

Lemma M_le_out_of_fuel {A} (m : M A) : M_le out_of_fuel m.
Proof. intros p r H. discriminate. Qed.

Lemma M_le_bind {A B} (m1 m2 : M A) (k1 k2 : A -> M B) :
  M_le m1 m2 -> (forall a, M_le (k1 a) (k2 a)) ->
  M_le (bind m1 k1) (bind m2 k2).
Proof.
  intros Hm Hk p r. unfold bind.
  destruct (m1 p) as [[a p']|] eqn:H1; [|discriminate].
  rewrite (Hm _ _ H1). apply Hk.
Qed.

(** Goals [M_le m1 m2] where [m2] is [m1] with the recursive calls and
    the loop bounds replaced by larger ones. *)
Ltac M_le_step :=
  first
    [ assumption
    | apply M_le_refl
    | apply M_le_out_of_fuel
    | apply M_le_bind; [|intros ?]
    | match goal with
      | |- M_le (if ?b then _ else _) _ => destruct b
      | |- M_le (match ?x with _ => _ end) _ => destruct x
      | |- M_le (let '(_, _) := ?x in _) _ => destruct x
      | H : forall _, M_le (?f _) (?g _) |- M_le (?f _) (?g _) => apply H
      end ].

Ltac M_le_auto := repeat M_le_step.

Lemma parseFunctionParameters_loop_mono (n m : nat) :
  (n <= m)%nat -> forall params,
  M_le (parseFunctionParameters_loop n params) (parseFunctionParameters_loop m params).
Proof.
  revert m. induction n as [|n IH]; intros m Hle params; [apply M_le_out_of_fuel|].
  destruct m as [|m]; [lia|]. simpl.
  M_le_auto. apply IH. lia.
Qed.

Section methods_mono.
Variables (recE1 recE2 : Z -> M ast.Expression) (recS1 recS2 : M ast.Statement).
Variables (n m : nat).
Hypothesis HE : forall precedence, M_le (recE1 precedence) (recE2 precedence).
Hypothesis HS : M_le recS1 recS2.
Hypothesis Hnm : (n <= m)%nat.

Lemma parseBlockStatement_loop_mono (k1 k2 : nat) :
  (k1 <= k2)%nat -> forall stmts,
  M_le (parseBlockStatement_loop recS1 k1 stmts) (parseBlockStatement_loop recS2 k2 stmts).
Proof.
  revert k2. induction k1 as [|k1 IH]; intros k2 Hle stmts; [apply M_le_out_of_fuel|].
  destruct k2 as [|k2]; [lia|]. simpl.
  M_le_auto. apply IH. lia.
Qed.

Lemma parseBlockStatement_mono :
  M_le (parseBlockStatement recS1 n) (parseBlockStatement recS2 m).
Proof.
  unfold parseBlockStatement. M_le_auto. by apply parseBlockStatement_loop_mono.
Qed.

Lemma parseExpressionList_loop_mono (k1 k2 : nat) :
  (k1 <= k2)%nat -> forall args,
  M_le (parseExpressionList_loop recE1 k1 args) (parseExpressionList_loop recE2 k2 args).
Proof.
  revert k2. induction k1 as [|k1 IH]; intros k2 Hle args; [apply M_le_out_of_fuel|].
  destruct k2 as [|k2]; [lia|]. simpl.
  M_le_auto. apply IH. lia.
Qed.

Lemma parseExpressionList_mono (end_ : token.TokenType) :
  M_le (parseExpressionList recE1 n end_) (parseExpressionList recE2 m end_).
Proof.
  unfold parseExpressionList. M_le_auto. by apply parseExpressionList_loop_mono.
Qed.

Lemma callPrefix_mono (fn : prefixParseFn) :
  M_le (callPrefix recE1 recS1 n fn) (callPrefix recE2 recS2 m fn).
Proof.
  pose proof parseBlockStatement_mono. 
  destruct fn; simpl;
    unfold parsePrefixExpression, parseGroupedExpression, parseIfExpression,
      parseFunctionLiteral, parseArrayLiteral;
    M_le_auto;
    try (apply parseExpressionList_mono);
    try (by apply parseExpressionList_loop_mono);
    try (unfold parseFunctionParameters; M_le_auto;
         by apply parseFunctionParameters_loop_mono).
Qed.

Lemma callInfix_mono (fn : infixParseFn) (left : ast.Expression) :
  M_le (callInfix recE1 n fn left) (callInfix recE2 m fn left).
Proof.
  destruct fn; simpl;
    unfold parseInfixExpression, parseCallExpression, parseIndexExpression;
    M_le_auto;
    first [apply parseExpressionList_mono | by apply parseExpressionList_loop_mono].
Qed.

Lemma parseExpression_loop_mono (k1 k2 : nat) :
  (k1 <= k2)%nat -> forall precedence leftExp,
  M_le (parseExpression_loop recE1 n k1 precedence leftExp)
       (parseExpression_loop recE2 m k2 precedence leftExp).
Proof.
  revert k2. induction k1 as [|k1 IH]; intros k2 Hle precedence leftExp;
    [apply M_le_out_of_fuel|].
  destruct k2 as [|k2]; [lia|]. simpl.
  M_le_auto; [apply callInfix_mono | apply IH; lia].
Qed.

Lemma parseExpression_body_mono (precedence : Z) :
  M_le (parseExpression_body recE1 recS1 n precedence)
       (parseExpression_body recE2 recS2 m precedence).
Proof.
  unfold parseExpression_body.
  M_le_auto; [apply callPrefix_mono | by apply parseExpression_loop_mono].
Qed.

Lemma parseStatement_body_mono :
  M_le (parseStatement_body recE1) (parseStatement_body recE2).
Proof.
  unfold parseStatement_body, parseLetStatement, parseReturnStatement,
    parseExpressionStatement.
  M_le_auto.
Qed.

End methods_mono.

Lemma parse_mono (n : nat) :
  forall m, (n <= m)%nat ->
  (forall precedence, M_le (parseExpression n precedence) (parseExpression m precedence))
  /\ M_le (parseStatement n) (parseStatement m).
Proof.
  induction n as [|n IH]; intros m Hle.
  { split; intros; apply M_le_out_of_fuel. }
  destruct m as [|m]; [lia|].
  destruct (IH m ltac:(lia)) as [HE HS].
  split; [intros precedence|]; simpl.
  - apply parseExpression_body_mono; [assumption..|lia].
  - by apply parseStatement_body_mono.
Qed.

Lemma ParseProgram_loop_mono (fuel1 fuel2 k1 k2 : nat) :
  (fuel1 <= fuel2)%nat -> (k1 <= k2)%nat -> forall stmts,
  M_le (ParseProgram_loop fuel1 k1 stmts) (ParseProgram_loop fuel2 k2 stmts).
Proof.
  intros Hfuel. revert k2.
  induction k1 as [|k1 IH]; intros k2 Hle stmts; [apply M_le_out_of_fuel|].
  destruct k2 as [|k2]; [lia|]. simpl.
  M_le_auto; [by apply parse_mono | apply IH; lia].
Qed.

(** Once the parser returns, it returns the same program and errors with
    any larger amount of fuel. *)
Lemma parse_fuel_mono (n m : nat) (input : string)
  (r : ast.Program * list string) :
  (n <= m)%nat -> parse n input = Some r -> parse m input = Some r.
Proof.
  intros Hle. unfold parse, ParseProgram.
  destruct (bind (ParseProgram_loop n n []) _ _) as [[prog p]|] eqn:H;
    [|discriminate].
  intros Hr.
  erewrite (M_le_bind _ (ParseProgram_loop m m []) _ _ _ _ _ _ H); [exact Hr|..].
  Unshelve.
  - by apply ParseProgram_loop_mono.
  - intros a. apply M_le_refl.
Qed.

End parser_fuel.

(** ** The parser: statements *)

Section parser_properties.
Import parser.

Lemma expectPeek_SEMICOLON (p : Parser) :
  exists ok, expectPeek token.SEMICOLON p = Some (ok, after_semicolon p).
Proof.
  unfold expectPeek, after_semicolon, peekTokenIs, peekError, bind, reads,
    nextToken, appendError, ret.
  destruct (String.eqb _ _); eauto.
Qed.

Lemma expectPeek_true (t : token.TokenType) (p : Parser) :
  token.Type_ (peekToken p) = t -> expectPeek t p = Some (true, advance p).
Proof.
  intros <-. unfold expectPeek, peekTokenIs, bind, reads, nextToken, ret.
  by rewrite String.eqb_refl.
Qed.

Lemma curToken_advance (p : Parser) : curToken (advance p) = peekToken p.
Proof. unfold advance. by destruct (lexer.NextToken (l p)). Qed.

Lemma errors_advance (p : Parser) : errors (advance p) = errors p.
Proof. unfold advance. by destruct (lexer.NextToken (l p)). Qed.

(** The end of a let statement and of a return statement, whatever the
    expression is: the statement is produced, and [expectPeek] consumes
    the semicolon or records that the next token is none. *)
Lemma let_return_semicolon (fuel : nat) (p p' : Parser) (e : ast.Expression) :
  (token.Type_ (curToken p) = token.LET ->
   token.Type_ (peekToken p) = token.IDENT ->
   token.Type_ (peekToken (advance p)) = token.ASSIGN ->
   parseExpression fuel LOWEST (advance (advance (advance p))) = Some (e, p') ->
   parseStatement (S fuel) p
   = Some (ast.LetStatement (curToken p)
             {| ast.Token := peekToken p;
                ast.Value := token.Literal (peekToken p) |} e,
           after_semicolon p'))
  /\ (token.Type_ (curToken p) = token.RETURN ->
      parseExpression fuel LOWEST (advance p) = Some (e, p') ->
      parseStatement (S fuel) p
      = Some (ast.ReturnStatement (curToken p) e, after_semicolon p'))
  /\ (token.Type_ (peekToken p') <> token.SEMICOLON ->
      errors (after_semicolon p')
      = (errors p' ++ ["Expected token ;, instead got "
                       +:+ token.Type_ (peekToken p')])%list)
  /\ (token.Type_ (peekToken p') = token.SEMICOLON ->
      errors (after_semicolon p') = errors p').
Proof.
  split; [|split; [|split]].
  - intros Hcur Hident Hassign He.
    cbn [parseStatement]. unfold parseStatement_body, bind, reads.
    rewrite Hcur. change (String.eqb token.LET token.LET) with true. cbv iota.
    unfold parseLetStatement, bind, reads.
    rewrite (expectPeek_true _ _ Hident). cbn [negb].
    unfold curIdentifier, reads.
    rewrite (expectPeek_true _ _ Hassign). cbn [negb].
    unfold nextToken. rewrite He.
    destruct (expectPeek_SEMICOLON p') as [ok ->].
    unfold ret. by rewrite curToken_advance.
  - intros Hcur He.
    cbn [parseStatement]. unfold parseStatement_body, bind, reads.
    rewrite Hcur.
    change (String.eqb token.RETURN token.LET) with false.
    change (String.eqb token.RETURN token.RETURN) with true. cbv iota.
    unfold parseReturnStatement, bind, reads, nextToken. rewrite He.
    by destruct (expectPeek_SEMICOLON p') as [ok ->].
  - intros Hne. unfold after_semicolon.
    destruct (String.eqb_spec (token.Type_ (peekToken p')) token.SEMICOLON);
      [done|reflexivity].
  - intros Heq. unfold after_semicolon.
    rewrite Heq, String.eqb_refl. apply errors_advance.
Qed.

(** The tokens of [let = 5;]. *)
Lemma lex_let_without_name :
  kinds_and_literals (lexer.pending (lexer.New "let = 5;"))
  = [ (token.LET, "let"); (token.ASSIGN, "="); (token.INT, "5");
      (token.SEMICOLON, ";") ].
Proof. reflexivity. Qed.

(** The program and the errors for the input [let = 5;]: the failed let
    statement leaves a nil [*LetStatement] in the statement list, and
    parsing goes on with [=] and [5] as expression statements. *)
Lemma parse_let_without_name_result :
  parse 4 "let = 5;"
  = Some ({| ast.Statements :=
               [ ast.NilLetStatement;
                 ast.ExpressionStatement
                   {| token.Type_ := token.ASSIGN; token.Literal := "=" |}
                   ast.NoExpression;
                 ast.ExpressionStatement
                   {| token.Type_ := token.INT; token.Literal := "5" |}
                   (ast.IntegerLiteral
                      {| token.Type_ := token.INT; token.Literal := "5" |} 5) ] |},
          [ "Expected token IDENT, instead got =";
            "No prefix parse function found for =" ]).
Proof. vm_compute. reflexivity. Qed.

(** *** Integer literals *)

Lemma digit_of_not_sign (c : ascii) (d : Z) :
  strconv.digit_of c = Some d -> c <> "+"%char /\ c <> "-"%char.
Proof. intros H; split; intros ->; discriminate. Qed.

(** On a literal made of decimal digits, as the lexer produces them,
    [ParseInt] with [bitSize] 32 reports a range error from [2^31] on. *)
Lemma ParseInt_32_digits (c : ascii) (r : string) (v : Z) :
  strconv.digits (String c r) 0 = Some v ->
  strconv.ParseInt (String c r) 32
  = if v <? 2 ^ 31 then (v, None) else (2 ^ 31 - 1, Some strconv.ErrRange).
Proof.
  intros Hv.
  assert (Hbody : strconv.ParseInt (String c r) 32
                  = match strconv.digits (String c r) 0 with
                    | None => (0, Some strconv.ErrSyntax)
                    | Some un =>
                        if 2 ^ 31 <=? un then (2 ^ 31 - 1, Some strconv.ErrRange)
                        else (un, None)
                    end).
  { simpl in Hv. destruct (strconv.digit_of c) as [d|] eqn:Hd; [|discriminate].
    apply digit_of_not_sign in Hd as [Hplus Hminus].
    destruct c as [[] [] [] [] [] [] [] []]; try done. }
  rewrite Hbody, Hv.
  destruct (Z.leb_spec (2 ^ 31) v), (Z.ltb_spec v (2 ^ 31)); try lia; reflexivity.
Qed.

(** C4, at the failing input. The literal [3000000000] fits in 64 bits,
    but [parseIntegerLiteral] asks [ParseInt] for 32 bits: it records
    the error and stores the largest 32-bit integer. *)
Theorem parse_3000000000 (fuel : nat) :
  let tok := {| token.Type_ := token.INT; token.Literal := "3000000000" |} in
  in_int64 3000000000
  /\ parse (3 + fuel) "3000000000"
     = Some ({| ast.Statements :=
                  [ast.ExpressionStatement tok (ast.IntegerLiteral tok 2147483647)] |},
             ["could not parse 3000000000 as integer"]).
Proof.
  split; [unfold in_int64, int64_min, int64_max; lia|].
  apply (parse_fuel_mono 3); [lia|]. vm_compute. reflexivity.
Qed.

(** X24. An integer literal made of decimal digits is parsed to its
    value, without an error, when the value is below [2^31]; from [2^31]
    on the error [could not parse <literal> as integer] is recorded and
    the literal holds [2^31 - 1]. *)
Lemma parseIntegerLiteral_spec (p : Parser) (c : ascii) (r : string) (v : Z) :
  token.Literal (curToken p) = String c r ->
  strconv.digits (String c r) 0 = Some v ->
  parseIntegerLiteral p
  = if v <? 2 ^ 31
    then Some (ast.IntegerLiteral (curToken p) v, p)
    else Some (ast.IntegerLiteral (curToken p) (2 ^ 31 - 1),
               with_error p ("could not parse " +:+ String c r +:+ " as integer")).
Proof.
  intros Hlit Hv. unfold parseIntegerLiteral, bind, reads.
  rewrite Hlit, (ParseInt_32_digits _ _ _ Hv).
  destruct (v <? 2 ^ 31); reflexivity.
Qed.

End parser_properties.

(** ** The evaluator: more fuel never changes a result *)

Section evaluator_fuel.
Import evaluator.
Local Open Scope eval_scope.

Lemma E_le_refl {A} (m : E A) : E_le m m.
Proof. intros h. by right. Qed.

Lemma E_le_bind {A B} (m1 m2 : E A) (k1 k2 : A -> E B) :
  E_le m1 m2 -> (forall a, E_le (k1 a) (k2 a)) ->
  E_le (bind m1 k1) (bind m2 k2).
Proof.
  intros Hm Hk h. unfold bind.
  destruct (Hm h) as [H1|H2].
  - left. by rewrite H1.
  - rewrite H2. destruct (m1 h) as [[a h']| | |]; simpl; try by right.
    apply Hk.
Qed.

Ltac E_le_step :=
  first
    [ assumption
    | apply E_le_refl
    | apply E_le_bind; [|intros ?]
    | match goal with
      | |- E_le (if ?b then _ else _) _ => destruct b
      | |- E_le (match ?x with _ => _ end) _ => destruct x
      | H : context [E_le] |- E_le _ _ => apply H
      end ].

Ltac E_le_auto := repeat E_le_step.

Section combinators_mono.
Variables ev1 ev2 : ast.Node -> EnvRef -> E Object.
Hypothesis Hev : forall node env, E_le (ev1 node env) (ev2 node env).

Lemma evalProgram_loop_mono statements env result :
  E_le (evalProgram_loop ev1 statements env result)
       (evalProgram_loop ev2 statements env result).
Proof.
  revert result. induction statements as [|s rest IH]; intros result; simpl;
    E_le_auto.
Qed.

Lemma evalBlockStatement_loop_mono statements env result :
  E_le (evalBlockStatement_loop ev1 statements env result)
       (evalBlockStatement_loop ev2 statements env result).
Proof.
  revert result. induction statements as [|s rest IH]; intros result; simpl;
    E_le_auto.
Qed.

Lemma evalBlockStatement_mono block env :
  E_le (evalBlockStatement ev1 block env) (evalBlockStatement ev2 block env).
Proof. apply evalBlockStatement_loop_mono. Qed.

Lemma evalExpressions_loop_mono nodes env objects :
  E_le (evalExpressions_loop ev1 nodes env objects)
       (evalExpressions_loop ev2 nodes env objects).
Proof.
  revert objects. induction nodes as [|n rest IH]; intros objects; simpl;
    E_le_auto.
Qed.

Lemma evalHashLiteral_loop_mono node_pairs env pairs :
  E_le (evalHashLiteral_loop ev1 node_pairs env pairs)
       (evalHashLiteral_loop ev2 node_pairs env pairs).
Proof.
  revert pairs. induction node_pairs as [|[k v] rest IH]; intros pairs; simpl;
    E_le_auto.
Qed.

Lemma applyFunction_mono fn args :
  E_le (applyFunction ev1 fn args) (applyFunction ev2 fn args).
Proof.
  destruct fn; simpl; E_le_auto. apply evalBlockStatement_mono.
Qed.

Lemma Eval_body_mono node env :
  E_le (Eval_body ev1 node env) (Eval_body ev2 node env).
Proof.
  pose proof evalProgram_loop_mono. pose proof evalBlockStatement_mono.
  pose proof evalExpressions_loop_mono. pose proof evalHashLiteral_loop_mono.
  pose proof applyFunction_mono.
  destruct node as [program|statement|expression]; simpl.
  - apply evalProgram_loop_mono.
  - destruct statement; simpl; E_le_auto.
  - destruct expression; simpl;
      unfold evalIfExpression, evalExpressions; E_le_auto.
Qed.

End combinators_mono.

Lemma Eval_mono (n : nat) :
  forall m, (n <= m)%nat ->
  forall node env, E_le (Eval n node env) (Eval m node env).
Proof.
  induction n as [|n IH]; intros m Hle node env; [intros h; by left|].
  destruct m as [|m]; [lia|]. simpl.
  apply Eval_body_mono. apply IH. lia.
Qed.

(** Once [Eval] has an outcome, it has the same outcome with any larger
    amount of fuel. *)
Lemma Eval_fuel_mono (n m : nat) node env h (r : Outcome (Object * Heap)) :
  (n <= m)%nat -> Eval n node env h = r -> r <> OutOfFuel ->
  Eval m node env h = r.
Proof.
  intros Hle Hr Hfuel.
  destruct (Eval_mono n m Hle node env h) as [H|H]; congruence.
Qed.

Lemma testEval_fuel_mono (n m : nat) (input : string) (r : Outcome Object) :
  (n <= m)%nat -> testEval n input = r -> r <> OutOfFuel ->
  testEval m input = r.
Proof.
  intros Hle. unfold testEval.
  destruct (parser.parse n input) as [[program errs]|] eqn:Hparse;
    [|intros <-; done].
  rewrite (parse_fuel_mono n m _ _ Hle Hparse).
  destruct (object.NewEnvironment []) as [env h].
  intros Hr Hfuel.
  destruct (Eval_mono n m Hle (ast.NProgram program) env h) as [H|H].
  - rewrite H in Hr. simpl in Hr. congruence.
  - by rewrite H.
Qed.

End evaluator_fuel.

(** ** Source texts on which the code goes wrong *)

Section failing_inputs.
Import parser evaluator.

(** C3, at the failing inputs. A let statement and a return statement
    without the closing semicolon are parsed to the statement that the
    text with the semicolon gives, but [expectPeek], whose result is
    dropped, records a parser error; an expression statement, which only
    tests for the semicolon, records none. The last text is an input of
    the repository's [TestReturnStatement] (up to white space), whose
    [return 9] has no semicolon. *)
Theorem missing_semicolon_is_an_error (fuel : nat) :
  (exists program,
     parse (9 + fuel) "let x = 5;" = Some (program, [])
     /\ parse (9 + fuel) "let x = 5"
        = Some (program, ["Expected token ;, instead got EOF"]))
  /\ (exists program,
        parse (9 + fuel) "return 5;" = Some (program, [])
        /\ parse (9 + fuel) "return 5"
           = Some (program, ["Expected token ;, instead got EOF"]))
  /\ (exists program,
        parse (9 + fuel) "5;" = Some (program, [])
        /\ parse (9 + fuel) "5" = Some (program, []))
  /\ (exists program,
        parse (9 + fuel)
          "if (10 > 1) { if (10 > 1) { if (true) { return 9; } return 10; } return 1; }"
        = Some (program, [])
        /\ parse (9 + fuel)
             "if (10 > 1) { if (10 > 1) { if (true) { return 9 } return 10; } return 1; }"
           = Some (program, ["Expected token ;, instead got }"])).
Proof.
  repeat split; eexists;
    (split; (apply (parse_fuel_mono 9); [lia | vm_compute; reflexivity])).
Qed.

(** C6, at the failing input. Parsing [let = 5;] records that an
    identifier was expected, but the program is not without a let
    statement: the nil pointer that [parseLetStatement] returns is
    stored as the first statement, a statement of the dynamic type of a
    let statement, in front of two expression statements for [=] and
    [5]; and evaluating that program panics. *)
Theorem parse_let_without_name (fuel : nat) :
  parse (4 + fuel) "let = 5;"
  = Some ({| ast.Statements :=
               [ ast.NilLetStatement;
                 ast.ExpressionStatement
                   {| token.Type_ := token.ASSIGN; token.Literal := "=" |}
                   ast.NoExpression;
                 ast.ExpressionStatement
                   {| token.Type_ := token.INT; token.Literal := "5" |}
                   (ast.IntegerLiteral
                      {| token.Type_ := token.INT; token.Literal := "5" |} 5) ] |},
          [ "Expected token IDENT, instead got =";
            "No prefix parse function found for =" ])
  /\ (exists program errs,
        parse (4 + fuel) "let = 5;" = Some (program, errs)
        /\ is_LetStatement <$> ast.Statements program = [true; false; false])
  /\ testEval (4 + fuel) "let = 5;" = Panic nil_dereference.
Proof.
  assert (Hparse := parse_fuel_mono 4 (4 + fuel) _ _ ltac:(lia)
                      parse_let_without_name_result).
  split; [exact Hparse|]. split.
  - eexists _, _. split; [exact Hparse|reflexivity].
  - apply (testEval_fuel_mono 4); [lia|vm_compute; reflexivity|discriminate].
Qed.

(** C9, at the failing input. No built-in reads a slice out of bounds,
    and a wrong number of arguments or a first argument of an
    unsupported type gives an [Error]; but the message for an
    unsupported argument is made by calling [Type()] on it, which on the
    nil interface is a run-time panic, for every built-in. [Eval] does
    produce the nil interface: it is the value of an empty block, and
    the source text [len(if (true) {})] panics. *)
Theorem builtin_on_nil_panics (fn : object.BuiltinFn) (args : list Object)
  (fuel : nat) :
  callBuiltin fn args <> Panic index_out_of_range
  /\ callBuiltin fn args <> Panic slice_bounds_out_of_range
  /\ (List.length args <> arity fn ->
      exists msg, callBuiltin fn args = Ok (object.Error msg))
  /\ (forall arg : Object,
        args !! 0%nat = Some arg -> arg <> object.Nil ->
        supported fn arg = false ->
        exists msg, callBuiltin fn args = Ok (object.Error msg))
  /\ (List.length args = arity fn -> args !! 0%nat = Some object.Nil ->
      callBuiltin fn args = Panic nil_dereference)
  /\ testEval (5 + fuel) "len(if (true) {})" = Panic nil_dereference.
Proof.
  assert (Hout := callBuiltin_outcome fn args).
  split; [|split; [|split; [|split; [|split]]]].
  - destruct Hout as [[r ->]|[[-> _]|(w & e & -> & _)]]; discriminate.
  - destruct Hout as [[r ->]|[[-> _]|(w & e & -> & _)]]; discriminate.
  - apply callBuiltin_wrong_count.
  - intros arg Harg Hnil Hsup.
    destruct args as [|a rest]; simplify_eq/=.
    by apply callBuiltin_unsupported.
  - intros Hlen Harg.
    destruct args as [|a rest]; simplify_eq/=.
    by apply callBuiltin_nil.
  - apply (testEval_fuel_mono 5); [lia|vm_compute; reflexivity|discriminate].
Qed.

Lemma builtin_on_nil_panics_witness :
  List.length [object.Nil] = arity object.fn_length
  /\ [object.Nil] !! 0%nat = Some object.Nil
  /\ callBuiltin object.fn_length [object.Nil] = Panic nil_dereference
  /\ List.length (@nil Object) <> arity object.fn_push
  /\ (exists msg, callBuiltin object.fn_push [] = Ok (object.Error msg))
  /\ [object.Integer 5; object.Integer 5] !! 0%nat = Some (object.Integer 5)
  /\ object.Integer 5 <> object.Nil
  /\ supported object.fn_push (object.Integer 5) = false
  /\ (exists msg,
        callBuiltin object.fn_push [object.Integer 5; object.Integer 5]
        = Ok (object.Error msg)).
Proof.
  destruct (builtin_on_nil_panics object.fn_length [object.Nil] 0)
    as (_ & _ & _ & _ & Hnil & _).
  destruct (builtin_on_nil_panics object.fn_push [] 0)
    as (_ & _ & Hcount & _).
  destruct (builtin_on_nil_panics object.fn_push
              [object.Integer 5; object.Integer 5] 0)
    as (_ & _ & _ & Hsup & _).
  split; [reflexivity|]. split; [reflexivity|].
  split; [exact (Hnil eq_refl eq_refl)|].
  split; [discriminate|].
  split; [apply Hcount; discriminate|].
  split; [reflexivity|]. split; [discriminate|]. split; [reflexivity|].
  apply (Hsup (object.Integer 5)); [reflexivity|discriminate|reflexivity].
Defined.

End failing_inputs.

(** ** The evaluator: the heap only grows *)

Section evaluator_heap.
Import evaluator.
Local Open Scope eval_scope.

Lemma grows_ret {A} (a : A) : grows (ret a).
Proof. intros h a' h' H. unfold ret in H. by simplify_eq. Qed.

Lemma grows_lift {A} (o : Outcome A) : grows (lift o).
Proof. intros h a h' H. unfold lift in H. destruct o; by simplify_eq/=. Qed.

Lemma grows_bind {A B} (m : E A) (k : A -> E B) :
  grows m -> (forall a, grows (k a)) -> grows (bind m k).
Proof.
  intros Hm Hk h b h' H. unfold bind in H.
  destruct (m h) as [[a h1]| | |] eqn:H1; simplify_eq/=.
  specialize (Hm _ _ _ H1). specialize (Hk _ _ _ _ H). lia.
Qed.

Lemma grows_Env_Get e key : grows (Env_Get e key).
Proof.
  intros h a h' H. unfold Env_Get in H.
  destruct (object.Get h e key); by simplify_eq/=.
Qed.

Lemma grows_Env_Set e key val : grows (Env_Set e key val).
Proof.
  intros h a h' H. unfold Env_Set, object.Set_ in H.
  case_match; simplify_eq. by rewrite length_insert.
Qed.

Lemma grows_NewEnclosedEnvironment outer : grows (NewEnclosedEnvironment outer).
Proof.
  intros h a h' H. unfold NewEnclosedEnvironment, object.NewEnclosedEnvironment in H.
  simplify_eq. rewrite length_app. lia.
Qed.

Ltac grows_step :=
  first
    [ assumption
    | apply grows_ret
    | apply grows_lift
    | apply grows_Env_Get
    | apply grows_Env_Set
    | apply grows_NewEnclosedEnvironment
    | apply grows_bind; [|intros ?]
    | match goal with
      | |- grows (if ?b then _ else _) => destruct b
      | |- grows (match ?x with _ => _ end) => destruct x
      | H : context [grows] |- grows _ => apply H
      end ].

Ltac grows_auto := repeat grows_step.

Section combinators_grow.
Variable ev : ast.Node -> EnvRef -> E Object.
Hypothesis Hev : forall node env, grows (ev node env).

Lemma evalProgram_loop_grows statements env result :
  grows (evalProgram_loop ev statements env result).
Proof.
  revert result. induction statements as [|s rest IH]; intros result; simpl;
    grows_auto.
Qed.

Lemma evalBlockStatement_loop_grows statements env result :
  grows (evalBlockStatement_loop ev statements env result).
Proof.
  revert result. induction statements as [|s rest IH]; intros result; simpl;
    grows_auto.
Qed.

Lemma evalExpressions_loop_grows nodes env objects :
  grows (evalExpressions_loop ev nodes env objects).
Proof.
  revert objects. induction nodes as [|n rest IH]; intros objects; simpl;
    grows_auto.
Qed.

Lemma evalHashLiteral_loop_grows node_pairs env pairs :
  grows (evalHashLiteral_loop ev node_pairs env pairs).
Proof.
  revert pairs. induction node_pairs as [|[k v] rest IH]; intros pairs; simpl;
    grows_auto.
Qed.

Lemma bindArguments_grows parameters callEnv i args :
  grows (bindArguments parameters callEnv i args).
Proof.
  revert i. induction args as [|arg rest IH]; intros i; simpl; grows_auto.
Qed.

Lemma applyFunction_grows fn args : grows (applyFunction ev fn args).
Proof.
  pose proof bindArguments_grows. pose proof evalBlockStatement_loop_grows.
  destruct fn; simpl; unfold evalBlockStatement; grows_auto.
Qed.

Lemma Eval_body_grows node env : grows (Eval_body ev node env).
Proof.
  pose proof evalProgram_loop_grows. pose proof evalBlockStatement_loop_grows.
  pose proof evalExpressions_loop_grows. pose proof evalHashLiteral_loop_grows.
  pose proof applyFunction_grows.
  destruct node as [program|statement|expression]; simpl.
  - apply evalProgram_loop_grows.
  - destruct statement; simpl; unfold evalBlockStatement; grows_auto.
  - destruct expression; simpl;
      unfold evalIfExpression, evalExpressions, evalIdentifier; grows_auto.
Qed.

End combinators_grow.

Lemma Eval_grows (fuel : nat) node env : grows (Eval fuel node env).
Proof.
  revert node env. induction fuel as [|fuel IH]; intros node env.
  - intros h a h' H. discriminate.
  - simpl. by apply Eval_body_grows.
Qed.

End evaluator_heap.

(** ** The evaluator: identifiers *)

Section identifier_properties.
Import evaluator.

Lemma Get_fuel_total (h : Heap) (key : string) :
  wf_heap h ->
  forall (fuel : nat) (e : EnvRef),
    (e < fuel)%nat -> (e < List.length h)%nat ->
    exists r, object.Get_fuel fuel h e key = Ok r.
Proof.
  intros Hwf. induction fuel as [|fuel IH]; intros e Hfuel He; [lia|].
  simpl. destruct (h !! e) as [env|] eqn:Hl.
  - destruct (object.store env !! key); [eauto|].
    destruct (object.outer env) as [o|] eqn:Ho; [|eauto].
    specialize (Hwf _ _ _ Hl Ho). apply IH; lia.
  - apply lookup_ge_None in Hl. lia.
Qed.

Lemma Get_total (h : Heap) (e : EnvRef) (key : string) :
  wf_heap h -> (e < List.length h)%nat -> exists r, object.Get h e key = Ok r.
Proof. intros Hwf He. apply Get_fuel_total; [done|lia|done]. Qed.

(** A binding of the environment's own scope is what [Get] finds. *)
Lemma Get_own_scope (h : Heap) (e : EnvRef) env (key : string) (val : Object) :
  h !! e = Some env -> object.store env !! key = Some val ->
  object.Get h e key = Ok (Some val).
Proof. intros Hl Hs. unfold object.Get. simpl. by rewrite Hl, Hs. Qed.

(** A format without a percent sign is printed as it is. *)
Lemma Sprintf_percent_free (s : string) :
  percent_free s = true -> fmt.Sprintf s = Ok s.
Proof.
  induction s as [|c r IH]; [reflexivity|]. simpl.
  destruct (Ascii.eqb c "%"); [discriminate|]. simpl.
  intros Hr. by rewrite (IH Hr).
Qed.

Lemma percent_free_app (s t : string) :
  percent_free (s +:+ t) = (percent_free s && percent_free t)%bool.
Proof.
  induction s as [|c r IH]; [reflexivity|]. simpl.
  by rewrite IH, andb_assoc.
Qed.

(** C1, as amended. An identifier is looked up in the environment and in
    the built-ins table. A name of the built-ins table evaluates to the
    built-in, whether or not the environment binds it; any other name
    evaluates to the value the environment gives it and, when the
    environment has none, to the error whose message [fmt.Sprintf] makes
    of the format [identifier not found: <name>]: that very text when
    the name holds no percent sign. The lookup in the environment returns
    in every well-formed heap. *)
Theorem identifier_resolution (fuel : nat) (node : ast.Identifier)
  (env : EnvRef) (h : Heap) :
  (forall r : option Object,
     object.Get h env (ast.Value node) = Ok r ->
     Eval (S fuel) (ast.NExpression (ast.Ident node)) env h
     = match builtins !! ast.Value node with
       | Some builtin => Ok (object.Builtin builtin, h)
       | None =>
           match r with
           | Some val => Ok (val, h)
           | None =>
               obind (fmt.Sprintf ("identifier not found: " +:+ ast.Value node))
                 (fun msg => Ok (object.Error msg, h))
           end
       end)
  /\ (percent_free (ast.Value node) = true ->
      fmt.Sprintf ("identifier not found: " +:+ ast.Value node)
      = Ok ("identifier not found: " +:+ ast.Value node))
  /\ (wf_heap h -> (env < List.length h)%nat ->
      exists r, object.Get h env (ast.Value node) = Ok r).
Proof.
  split; [|split].
  - intros r Hr.
    cbn [Eval Eval_body Eval_expression].
    unfold evalIdentifier, bind, Env_Get. rewrite Hr. cbn [obind fst snd].
    destruct (builtins !! ast.Value node); [reflexivity|].
    destruct r; [reflexivity|].
    unfold lift, newError_format.
    by destruct (fmt.Sprintf _).
  - intros Hfree. apply Sprintf_percent_free.
    by rewrite percent_free_app, Hfree.
  - intros Hwf He. by apply Get_total.
Qed.

Lemma wf_heap_with_len : wf_heap heap_with_len.
Proof.
  intros e env o Hl Ho. destruct e as [|e]; simpl in Hl; [|done].
  by simplify_eq.
Qed.

Lemma identifier_resolution_witness :
  let node := name "len" in
  let unbound := name "foobar" in
  wf_heap heap_with_len /\ (0 < List.length heap_with_len)%nat
  /\ percent_free (ast.Value unbound) = true
  /\ (exists r, object.Get heap_with_len 0%nat (ast.Value node) = Ok r)
  /\ object.Get heap_with_len 0%nat (ast.Value node) = Ok (Some (object.Integer 5))
  /\ Eval 1 (ast.NExpression (ast.Ident node)) 0%nat heap_with_len
     = Ok (object.Builtin object.fn_length, heap_with_len)
  /\ object.Get heap_with_len 0%nat (ast.Value unbound) = Ok None
  /\ Eval 1 (ast.NExpression (ast.Ident unbound)) 0%nat heap_with_len
     = Ok (object.Error "identifier not found: foobar", heap_with_len).
Proof.
  intros node unbound.
  assert (Hlen : (0 < List.length heap_with_len)%nat) by (simpl; lia).
  destruct (identifier_resolution 0 node 0%nat heap_with_len)
    as (Hnode & _ & Hget).
  destruct (identifier_resolution 0 unbound 0%nat heap_with_len)
    as (Hunbound & Hmsg & _).
  split; [exact wf_heap_with_len|]. split; [exact Hlen|].
  split; [reflexivity|].
  split; [exact (Hget wf_heap_with_len Hlen)|].
  split; [reflexivity|].
  split; [exact (Hnode (Some (object.Integer 5)) eq_refl)|].
  split; [reflexivity|].
  rewrite (Hunbound None eq_refl).
  change (builtins !! ast.Value unbound) with (@None object.BuiltinFn).
  cbv iota. by rewrite (Hmsg eq_refl).
Defined.

(** C1, counterexample. With [len] bound to 5 in the environment, the
    identifier [len] still evaluates to the built-in. (And an identifier
    node whose name holds a verb, which no source text gives, is reported
    under another name.) *)
Lemma identifier_shadowing_counterexample :
  object.Get heap_with_len 0%nat "len" = Ok (Some (object.Integer 5))
  /\ testEval 4 "let len = 5; len" = Ok (object.Builtin object.fn_length)
  /\ testEval 4 "let len = 5; len" <> Ok (object.Integer 5)
  /\ Eval 1 (ast.NExpression (ast.Ident (name "%d"))) 0%nat heap_with_len
     = Ok (object.Error "identifier not found: %!d(MISSING)", heap_with_len).
Proof.
  split; [reflexivity|]. split; [vm_compute; reflexivity|].
  split; [discriminate|reflexivity].
Qed.

End identifier_properties.

(** ** The evaluator: calls, blocks and returns *)

Section call_properties.
Import evaluator.

Lemma Env_Set_Ok (h : Heap) (e : EnvRef) (key : string) (val : Object) :
  (e < List.length h)%nat ->
  exists h', Env_Set e key val h = Ok (val, h')
             /\ List.length h' = List.length h.
Proof.
  intros He. unfold Env_Set, object.Set_.
  destruct (lookup_lt_is_Some_2 h e He) as [env ->].
  eexists. split; [reflexivity|]. by rewrite length_insert.
Qed.

(** The loop of [applyFunction] indexes the parameters by the position
    of the argument: it panics at the first argument without a
    parameter. *)
Lemma bindArguments_extra (ev : ast.Node -> EnvRef -> E Object)
  (parameters : list ast.Identifier) (callEnv : EnvRef) (args : list Object) :
  forall (i : Z) (h : Heap),
    0 <= i <= Z.of_nat (List.length parameters) ->
    (callEnv < List.length h)%nat ->
    Z.of_nat (List.length parameters) < i + Z.of_nat (List.length args) ->
    bindArguments parameters callEnv i args h = Panic index_out_of_range.
Proof.
  induction args as [|arg rest IH]; intros i h Hi Henv Hlen; simpl in *.
  - unfold ret. lia.
  - unfold bind, lift.
    destruct (Z.lt_ge_cases i (Z.of_nat (List.length parameters))) as [Hlt|Hge].
    + destruct (slice_index_Ok parameters i ltac:(lia)) as [param ->]. simpl.
      destruct (Env_Set_Ok h callEnv (ast.Value param) arg Henv) as (h' & -> & Hh').
      simpl. apply IH; lia.
    + by rewrite slice_index_out_of_range.
Qed.

Lemma applyFunction_extra_arguments (ev : ast.Node -> EnvRef -> E Object)
  parameters body env (args : list Object) (h : Heap) :
  (List.length parameters < List.length args)%nat ->
  applyFunction ev (object.Function parameters body env) args h
  = Panic index_out_of_range.
Proof.
  intros Hlen. simpl.
  unfold bind at 1. unfold NewEnclosedEnvironment, object.NewEnclosedEnvironment.
  simpl. unfold bind at 1.
  rewrite (bindArguments_extra ev); [reflexivity|lia| |lia].
  rewrite length_app. simpl. lia.
Qed.

(** C5, at the failing input. A call with more arguments than parameters
    does not ignore the extra argument: [function.Parameters[i]] is out
    of range and the evaluator panics. *)
Theorem extra_argument_panics (fuel : nat) :
  testEval (5 + fuel) "fn(x) { x; }(5, 6)" = Panic index_out_of_range.
Proof.
  apply (testEval_fuel_mono 5); [lia| |discriminate].
  vm_compute. reflexivity.
Qed.

End call_properties.

Section block_properties.
Import evaluator.

Lemma evalBlockStatement_loop_through ev env pre h h1 :
  RunsThrough ev env pre h h1 ->
  forall rest result, exists result',
    evalBlockStatement_loop ev (pre ++ rest) env result h
    = evalBlockStatement_loop ev rest env result' h1.
Proof.
  induction 1 as [h|s pre h h1 h2 r Hs Hr _ IH]; intros rest result.
  - by exists result.
  - destruct (IH rest r) as [result' Hresult']. exists result'.
    simpl. unfold bind at 1. rewrite Hs. simpl.
    by destruct r.
Qed.

Lemma evalProgram_loop_through ev env pre h h1 :
  RunsThrough ev env pre h h1 ->
  forall rest result, exists result',
    evalProgram_loop ev (pre ++ rest) env result h
    = evalProgram_loop ev rest env result' h1.
Proof.
  induction 1 as [h|s pre h h1 h2 r Hs Hr _ IH]; intros rest result.
  - by exists result.
  - destruct (IH rest r) as [result' Hresult']. exists result'.
    simpl. unfold bind at 1. rewrite Hs. simpl.
    by destruct r.
Qed.

Lemma RunsThrough_grows fuel env pre h h1 :
  RunsThrough (Eval fuel) env pre h h1 -> (List.length h <= List.length h1)%nat.
Proof.
  induction 1 as [h|s pre h h1 h2 r Hs Hr _ IH]; [lia|].
  apply Eval_grows in Hs. lia.
Qed.

(** C7. A block stops at the first statement whose value is a
    [ReturnValue] or an [Error] and returns that value as it is; a
    program stops there too and returns the payload of the
    [ReturnValue]; [applyFunction] returns the value of the body with an
    outermost [ReturnValue] removed. So the nested return of the
    specification's scenario D evaluates to the integer 9. *)
Theorem return_bubbles (fuel : nat) :
  (forall tok pre s rest env h h1 h2 r,
     RunsThrough (Eval fuel) env pre h h1 ->
     Eval fuel (ast.NStatement s) env h1 = Ok (r, h2) ->
     stops r = true ->
     Eval (S fuel) (ast.NStatement (ast.Block (ast.mkBlock tok (pre ++ s :: rest))))
       env h = Ok (r, h2)
     /\ Eval (S fuel) (ast.NProgram {| ast.Statements := pre ++ s :: rest |}) env h
        = Ok (unwrapReturnValue r, h2))
  /\ (forall parameters body fenv args (h h1 h2 : Heap) r,
        bindArguments parameters (List.length h) 0 args
          (h ++ [{| object.store := ∅; object.outer := Some fenv |}])
        = Ok (tt, h1) ->
        evalBlockStatement (Eval fuel) body (List.length h) h1 = Ok (r, h2) ->
        applyFunction (Eval fuel) (object.Function parameters body fenv) args h
        = Ok (unwrapReturnValue r, h2))
  /\ ((9 <= fuel)%nat ->
      testEval fuel "if (10 > 1) { if (10 > 1) { return 9; } return 10; }"
      = Ok (object.Integer 9)).
Proof.
  split; [|split].
  - intros tok pre s rest env h h1 h2 r Hpre Hs Hr. split.
    + simpl. unfold evalBlockStatement. simpl.
      destruct (evalBlockStatement_loop_through _ _ _ _ _ Hpre (s :: rest) object.Nil)
        as [result' ->].
      simpl. unfold bind. rewrite Hs. simpl. by destruct r.
    + simpl. unfold evalProgram.
      destruct (evalProgram_loop_through _ _ _ _ _ Hpre (s :: rest) object.Nil)
        as [result' ->].
      simpl. unfold bind. rewrite Hs. simpl. by destruct r.
  - intros parameters body fenv args h h1 h2 r Hbind Hbody.
    simpl. unfold bind at 1.
    unfold NewEnclosedEnvironment, object.NewEnclosedEnvironment. simpl.
    unfold bind at 1. rewrite Hbind. simpl.
    unfold bind. by rewrite Hbody.
  - intros Hfuel. apply (testEval_fuel_mono 9); [lia| |discriminate].
    vm_compute. reflexivity.
Qed.

Lemma return_bubbles_witness :
  let int n s := ast.IntegerLiteral {| token.Type_ := token.INT; token.Literal := s |} n in
  let ret_tok := {| token.Type_ := token.RETURN; token.Literal := "return" |} in
  let h := [{| object.store := ∅; object.outer := None |}] in
  RunsThrough (Eval 2) 0%nat [] h h
  /\ Eval 3 (ast.NStatement
               (ast.Block (ast.mkBlock token.zero
                  ([] ++ ast.ReturnStatement ret_tok (int 9 "9")
                      :: [ast.ReturnStatement ret_tok (int 10 "10")]))))
       0%nat h
     = Ok (object.ReturnValue (object.Integer 9), h)
  /\ Eval 3 (ast.NProgram
               {| ast.Statements :=
                    [] ++ ast.ReturnStatement ret_tok (int 9 "9")
                       :: [ast.ReturnStatement ret_tok (int 10 "10")] |})
       0%nat h
     = Ok (object.Integer 9, h)
  /\ testEval 9 "if (10 > 1) { if (10 > 1) { return 9; } return 10; }"
     = Ok (object.Integer 9).
Proof.
  intros int ret_tok h.
  destruct (return_bubbles 2) as (Hblock & _ & _).
  destruct (return_bubbles 9) as (_ & _ & Hscenario).
  assert (Hpre : RunsThrough (Eval 2) 0%nat [] h h) by constructor.
  destruct (Hblock token.zero [] (ast.ReturnStatement ret_tok (int 9 "9"))
              [ast.ReturnStatement ret_tok (int 10 "10")] 0%nat h h h
              (object.ReturnValue (object.Integer 9)) Hpre eq_refl eq_refl)
    as [H1 H2].
  split; [exact Hpre|]. split; [exact H1|]. split; [exact H2|].
  apply Hscenario. lia.
Defined.

End block_properties.

(** ** The evaluator: let statements *)

Section let_properties.
Import evaluator.

Lemma Set_returns_val (h h' : Heap) (e : EnvRef) (key : string) (val r : Object) :
  object.Set_ h e key val = Ok (r, h') -> r = val.
Proof. unfold object.Set_. case_match; intros; by simplify_eq. Qed.

Lemma Get_after_Set (h h' : Heap) (e : EnvRef) (key : string) (val r : Object) :
  object.Set_ h e key val = Ok (r, h') ->
  object.Get h' e key = Ok (Some val).
Proof.
  unfold object.Set_. destruct (h !! e) as [env|] eqn:Hl; intros; simplify_eq.
  eapply Get_own_scope.
  - apply list_lookup_insert_eq. by eapply lookup_lt_Some.
  - simpl. apply lookup_insert_eq.
Qed.

(** C8, as amended. A let statement evaluates to the value it binds. When
    a program ends with [let x = E;], the statements before it run
    through, and [E] evaluates to a value [v] that is not an error, the
    program evaluates to [v], or to the payload of [v] when [v] is a
    [ReturnValue] (which the program loop unwraps); [x] is bound to [v]. *)
Theorem let_statement_value (fuel : nat) (pre : list ast.Statement)
  (tok : token.Token) (name : ast.Identifier) (value : ast.Expression)
  (env : EnvRef) (h h1 h2 : Heap) (v : Object) :
  (env < List.length h)%nat ->
  RunsThrough (Eval (S fuel)) env pre h h1 ->
  Eval fuel (ast.NExpression value) env h1 = Ok (v, h2) ->
  isError v = false ->
  exists h3,
    Eval (S fuel) (ast.NStatement (ast.LetStatement tok name value)) env h1
    = Ok (v, h3)
    /\ Eval (S (S fuel))
         (ast.NProgram {| ast.Statements := pre ++ [ast.LetStatement tok name value] |})
         env h
       = Ok (unwrapReturnValue v, h3)
    /\ object.Get h3 env (ast.Value name) = Ok (Some v).
Proof.
  intros Henv Hpre Hvalue Herr.
  pose proof (RunsThrough_grows _ _ _ _ _ Hpre) as Hh1.
  pose proof (Eval_grows _ _ _ _ _ _ Hvalue) as Hh2.
  destruct (Env_Set_Ok h2 env (ast.Value name) v ltac:(lia)) as (h3 & Hset & _).
  assert (Hlet : Eval (S fuel) (ast.NStatement (ast.LetStatement tok name value))
                   env h1 = Ok (v, h3)).
  { simpl. unfold bind. rewrite Hvalue. simpl. by rewrite Herr. }
  exists h3. split; [exact Hlet|]. split.
  - change (Eval (S (S fuel)) ?n env h) with (Eval_body (Eval (S fuel)) n env h).
    cbn [Eval_body ast.Statements]. unfold evalProgram.
    destruct (evalProgram_loop_through _ _ _ _ _ Hpre
                [ast.LetStatement tok name value] object.Nil) as [result' ->].
    cbn [evalProgram_loop]. unfold bind. rewrite Hlet. cbn [obind fst snd].
    by destruct v.
  - by eapply Get_after_Set.
Qed.

Lemma let_statement_value_witness :
  let int5 := ast.IntegerLiteral {| token.Type_ := token.INT; token.Literal := "5" |} 5 in
  let x := {| ast.Token := {| token.Type_ := token.IDENT; token.Literal := "x" |};
              ast.Value := "x" |} in
  let tok := {| token.Type_ := token.LET; token.Literal := "let" |} in
  let h := [{| object.store := ∅; object.outer := None |}] in
  (0 < List.length h)%nat
  /\ RunsThrough (Eval 2) 0%nat [] h h
  /\ Eval 1 (ast.NExpression int5) 0%nat h = Ok (object.Integer 5, h)
  /\ exists h3,
       Eval 3 (ast.NProgram {| ast.Statements := [] ++ [ast.LetStatement tok x int5] |})
         0%nat h
       = Ok (object.Integer 5, h3)
       /\ object.Get h3 0%nat "x" = Ok (Some (object.Integer 5)).
Proof.
  intros int5 x tok h.
  assert (Hlen : (0 < List.length h)%nat) by (simpl; lia).
  assert (Hpre : RunsThrough (Eval 2) 0%nat [] h h) by constructor.
  destruct (let_statement_value 1 [] tok x int5 0%nat h h h (object.Integer 5)
              Hlen Hpre eq_refl eq_refl) as (h3 & _ & Hprogram & Hget).
  split; [exact Hlen|]. split; [exact Hpre|]. split; [reflexivity|].
  exists h3. split; [exact Hprogram|exact Hget].
Defined.

(** C8, counterexample. The value of a let statement can be a
    [ReturnValue], which is not an error; the program then evaluates to
    its payload and not to the value that was bound. *)
Lemma let_statement_value_counterexample :
  let input := "let x = if (true) { return 5; };" in
  let h := [{| object.store := ∅; object.outer := None |}] in
  let v := object.ReturnValue (object.Integer 5) in
  (exists tok name,
     parser.parse 6 input
     = Some ({| ast.Statements := [ast.LetStatement tok name if_true_return_5] |}, []))
  /\ Eval 4 (ast.NExpression if_true_return_5) 0%nat h = Ok (v, h)
  /\ isError v = false
  /\ testEval 6 input = Ok (object.Integer 5)
  /\ testEval 6 input <> Ok v.
Proof.
  intros input h v.
  split; [eexists _, _; vm_compute; reflexivity|].
  split; [vm_compute; reflexivity|]. split; [reflexivity|].
  split; [vm_compute; reflexivity|]. vm_compute. discriminate.
Qed.

End let_properties.

(** ** The repository's tests, run on the embedding *)

Section repository_tests.
Import evaluator.

(** [TestNextToken]: the modelled lexer emits the token sequence that the
    repository's lexer test expects. *)
Lemma TestNextToken :
  kinds_and_literals
    (lexer.pending (lexer.New (unlines
       [ "let five = 5;"; "let ten = 10;"; "let add = fn(x, y) {"; " x + y;";
         "};"; "let result = add(five, ten);"; "!-/*5;"; "5 < 10 > 5;";
         "if (5 < 10) {"; "  return true;"; "} else {"; "  return false;"; "}";
         "10 == 10; 10 != 9;";
         quoted "foobar" +:+ ";"; quoted "foo bar" +:+ ";";
         "test[a];"; "arr[3];"; "[1, 2, 3];";
         "{ " +:+ quoted "a" +:+ ": " +:+ quoted "b" +:+ " };" ])))
  = [ (token.LET, "let"); (token.IDENT, "five"); (token.ASSIGN, "=");
      (token.INT, "5"); (token.SEMICOLON, ";");
      (token.LET, "let"); (token.IDENT, "ten"); (token.ASSIGN, "=");
      (token.INT, "10"); (token.SEMICOLON, ";");
      (token.LET, "let"); (token.IDENT, "add"); (token.ASSIGN, "=");
      (token.FUNCTION, "fn"); (token.LPAREN, "("); (token.IDENT, "x");
      (token.COMMA, ","); (token.IDENT, "y"); (token.RPAREN, ")");
      (token.LBRACE, "{"); (token.IDENT, "x"); (token.PLUS, "+");
      (token.IDENT, "y"); (token.SEMICOLON, ";"); (token.RBRACE, "}");
      (token.SEMICOLON, ";");
      (token.LET, "let"); (token.IDENT, "result"); (token.ASSIGN, "=");
      (token.IDENT, "add"); (token.LPAREN, "("); (token.IDENT, "five");
      (token.COMMA, ","); (token.IDENT, "ten"); (token.RPAREN, ")");
      (token.SEMICOLON, ";");
      (token.BANG, "!"); (token.MINUS, "-"); (token.SLASH, "/");
      (token.ASTERISK, "*"); (token.INT, "5"); (token.SEMICOLON, ";");
      (token.INT, "5"); (token.LT, "<"); (token.INT, "10"); (token.GT, ">");
      (token.INT, "5"); (token.SEMICOLON, ";");
      (token.IF, "if"); (token.LPAREN, "("); (token.INT, "5"); (token.LT, "<");
      (token.INT, "10"); (token.RPAREN, ")"); (token.LBRACE, "{");
      (token.RETURN, "return"); (token.TRUE, "true"); (token.SEMICOLON, ";");
      (token.RBRACE, "}"); (token.ELSE, "else"); (token.LBRACE, "{");
      (token.RETURN, "return"); (token.FALSE, "false"); (token.SEMICOLON, ";");
      (token.RBRACE, "}");
      (token.INT, "10"); (token.EQ, "=="); (token.INT, "10");
      (token.SEMICOLON, ";");
      (token.INT, "10"); (token.NOT_EQ, "!="); (token.INT, "9");
      (token.SEMICOLON, ";");
      (token.STRING, "foobar"); (token.SEMICOLON, ";");
      (token.STRING, "foo bar"); (token.SEMICOLON, ";");
      (token.IDENT, "test"); (token.LBRACKET, "["); (token.IDENT, "a");
      (token.RBRACKET, "]"); (token.SEMICOLON, ";");
      (token.IDENT, "arr"); (token.LBRACKET, "["); (token.INT, "3");
      (token.RBRACKET, "]"); (token.SEMICOLON, ";");
      (token.LBRACKET, "["); (token.INT, "1"); (token.COMMA, ",");
      (token.INT, "2"); (token.COMMA, ","); (token.INT, "3");
      (token.RBRACKET, "]"); (token.SEMICOLON, ";");
      (token.LBRACE, "{"); (token.STRING, "a"); (token.COLON, ":");
      (token.STRING, "b"); (token.RBRACE, "}"); (token.SEMICOLON, ";") ].
Proof. vm_compute. reflexivity. Qed.

(** [TestOperatorPrecedenceParsing]: an input parses, without errors, to
    the expression that its expected, fully parenthesised form parses
    to. *)
Lemma TestOperatorPrecedenceParsing :
  Forall (fun t => expressions_of (parser.parse 20 t.1)
                   = expressions_of (parser.parse 20 t.2)
                   /\ exists es, expressions_of (parser.parse 20 t.1) = Some (es, []))
    [ ("3 > 5 == false", "((3 > 5) == false)");
      ("3 < 5 == true", "((3 < 5) == true)");
      ("-a * b", "((-a) * b)");
      ("!-a", "(!(-a))");
      ("a + b + c", "((a + b) + c)");
      ("a + b - c", "((a + b) - c)");
      ("a * b * c", "((a * b) * c)");
      ("a * b / c", "((a * b) / c)");
      ("a + b / c", "(a + (b / c))");
      ("a + b * c + d / e - f", "(((a + (b * c)) + (d / e)) - f)");
      ("5 > 4 == 3 < 4", "((5 > 4) == (3 < 4))");
      ("5 < 4 != 3 > 4", "((5 < 4) != (3 > 4))");
      ("3 + 4 * 5 == 3 * 1 + 4 * 5", "((3 + (4 * 5)) == ((3 * 1) + (4 * 5)))");
      ("1 + (2 + 3) + 4", "((1 + (2 + 3)) + 4)");
      ("(5 + 5) * 2", "((5 + 5) * 2)");
      ("2 / (5 + 5)", "(2 / (5 + 5))");
      ("-(5 + 5)", "(-(5 + 5))");
      ("!(true == true)", "(!(true == true))");
      ("a + add(b * c) + d", "((a + add((b * c))) + d)");
      ("add(a, b, 1, 2 * 3, 4 + 5, add(6, 7 * 8))",
       "add(a, b, 1, (2 * 3), (4 + 5), add(6, (7 * 8)))");
      ("add(a + b + c * d / f + g)", "add((((a + b) + ((c * d) / f)) + g))") ].
Proof.
  repeat (apply Forall_cons_2;
          [split; [vm_compute; reflexivity | eexists; vm_compute; reflexivity]|]).
  apply Forall_nil_2.
Qed.

(** The evaluator's tests: inputs and expected values. (The rows that
    [push] onto an array are not among them: see [push].) *)
Lemma evaluator_tests :
  Forall (fun t => testEval 30 t.1 = Ok t.2)
    [ ("5", object.Integer 5); ("-10", object.Integer (-10));
      ("5 + 5 + 5 + 5 - 10", object.Integer 10);
      ("2 * 2 * 2 * 2 * 2", object.Integer 32);
      ("-50 + 100 + -50", object.Integer 0);
      ("20 + 2 * -10", object.Integer 0);
      ("50 / 2 * 2 + 10", object.Integer 60);
      ("3 * (3 * 3) + 10", object.Integer 37);
      ("(5 + 10 * 2 + 15 / 3) * 2 + -10", object.Integer 50);
      (quoted "foo" +:+ " + " +:+ quoted "bar" +:+ ";", object.String "foobar");
      ("true", TRUE); ("5 == 10", FALSE); ("true != false", TRUE);
      ("1 < 2", TRUE); ("1 > 2", FALSE); ("(1 < 2) == false", FALSE);
      ("(1 > 2) == false", TRUE);
      ("if (true) { 10 }", object.Integer 10); ("if (false) { 10 }", NULL);
      ("if (1) { 10 }", object.Integer 10); ("if (1 > 2) { 10 }", NULL);
      ("if (1 > 2) { 10 } else { 20 }", object.Integer 20);
      ("!true", FALSE); ("!!true", TRUE); ("!5", FALSE); ("!!5", TRUE);
      ("return 5;", object.Integer 5); ("return 9; 10;", object.Integer 9);
      ("9; return 2 * 5; 9;", object.Integer 10);
      ("if (10 > 1) { if (10 > 1) { if (true) { return 9 } return 10; } return 1; }",
       object.Integer 9);
      ("5 + true;", object.Error "type mismatch: INTEGER + BOOLEAN");
      ("5 + true; 5;", object.Error "type mismatch: INTEGER + BOOLEAN");
      ("-true", object.Error "unknown operator: -BOOLEAN");
      ("5; true + false; 5", object.Error "unknown operator: BOOLEAN + BOOLEAN");
      ("if (10 > 1) { if (10 > 1) { return true + false; } return 1; }",
       object.Error "unknown operator: BOOLEAN + BOOLEAN");
      ("foobar", object.Error "identifier not found: foobar");
      (quoted "foobar" +:+ " - " +:+ quoted "bar" +:+ ";",
       object.Error "unknown operator: STRING - STRING");
      ("let a = 5; a;", object.Integer 5);
      ("let a = 5; let b = a; let c = a + b + 5; c;", object.Integer 15);
      ("let identity = fn(x) { return x; }; identity(5);", object.Integer 5);
      ("let add = fn(x, y) { x + y; }; add(5 + 5, add(5, 5));", object.Integer 20);
      ("fn(x) { x; }(5)", object.Integer 5);
      ("let newAdder = fn(x) { fn(y) { x + y }; }; let addTwo = newAdder(2); addTwo(2);",
       object.Integer 4);
      ("len(" +:+ quoted "hello world!" +:+ ")", object.Integer 12);
      ("len(1)", object.Error "argument to `len` not supported, got INTEGER");
      ("len(" +:+ quoted "one" +:+ ", " +:+ quoted "two" +:+ ")",
       object.Error "wrong number of arguments. got=2, want=1)");
      ("len([1, 2, 3]);", object.Integer 3); ("len([]);", object.Integer 0);
      ("head([]);", NULL); ("head([1, 2, 3]);", object.Integer 1);
      ("tail([1, 2, 3]);", object.Array [object.Integer 2; object.Integer 3]);
      ("tail([]);", object.Array []);
      ("last([]);", NULL); ("last([1, 2, 3]);", object.Integer 3);
      ("push(5);", object.Error "wrong number of arguments. got=1, want=2)");
      ("push(5, 5);", object.Error "argument to `push` not supported, got INTEGER");
      ("[1, 2 + 3, 4 * 5];",
       object.Array [object.Integer 1; object.Integer 5; object.Integer 20]);
      ("[1, 2, 3][2]", object.Integer 3); ("let i = 0; [1][i];", object.Integer 1);
      ("let myArray = [1, 2, 3]; let i = myArray[0]; myArray[i]", object.Integer 2);
      ("[1, 2, 3][3]", NULL); ("[1, 2, 3][-1]", NULL) ].
Proof.
  repeat (apply Forall_cons_2; [vm_compute; reflexivity|]).
  apply Forall_nil_2.
Qed.

End repository_tests.

(** * Further properties of the code *)

(** ** Environments: binding and lexical lookup *)

Section environment_properties.

(** With outer links that point to older environments, the depth of a
    lookup is bounded by the reference it starts from: any larger fuel
    gives the same answer. *)
Lemma Get_fuel_enough (h : object.Heap) (key : string) :
  wf_heap h ->
  forall (f1 f2 : nat) (e : object.EnvRef),
    (e < f1)%nat -> (e < f2)%nat ->
    object.Get_fuel f1 h e key = object.Get_fuel f2 h e key.
Proof.
  intros Hwf. induction f1 as [|f1 IH]; intros f2 e H1 H2; [lia|].
  destruct f2 as [|f2]; [lia|]. simpl.
  destruct (h !! e) as [env|] eqn:Hl; [|reflexivity].
  destruct (object.store env !! key); [reflexivity|].
  destruct (object.outer env) as [o|] eqn:Ho; [|reflexivity].
  specialize (Hwf _ _ _ Hl Ho). apply IH; lia.
Qed.

(** Environments allocated later are not seen by a lookup that starts in
    an older one. *)
Lemma Get_fuel_app (h ext : object.Heap) (key : string) :
  wf_heap h ->
  forall (f : nat) (e : object.EnvRef),
    (e < List.length h)%nat ->
    object.Get_fuel f (h ++ ext) e key = object.Get_fuel f h e key.
Proof.
  intros Hwf. induction f as [|f IH]; intros e He; [reflexivity|].
  simpl. rewrite lookup_app_l by done.
  destruct (h !! e) as [env|] eqn:Hl; [|reflexivity].
  destruct (object.store env !! key); [reflexivity|].
  destruct (object.outer env) as [o|] eqn:Ho; [|reflexivity].
  specialize (Hwf _ _ _ Hl Ho). apply IH. lia.
Qed.

Lemma Get_fuel_insert_younger (h : object.Heap) (c : object.EnvRef)
  (x : object.Environment) (key : string) :
  wf_heap h ->
  forall (f : nat) (e : object.EnvRef),
    (e < c)%nat ->
    object.Get_fuel f (<[c := x]> h) e key = object.Get_fuel f h e key.
Proof.
  intros Hwf. induction f as [|f IH]; intros e He; [reflexivity|].
  simpl. rewrite list_lookup_insert_ne by lia.
  destruct (h !! e) as [env|] eqn:Hl; [|reflexivity].
  destruct (object.store env !! key); [reflexivity|].
  destruct (object.outer env) as [o|] eqn:Ho; [|reflexivity].
  specialize (Hwf _ _ _ Hl Ho). apply IH. lia.
Qed.

Lemma Get_fuel_other_key (h : object.Heap) (e : object.EnvRef)
  (env : object.Environment) (key key' : string) (val : object.Object) :
  h !! e = Some env -> key' <> key ->
  forall (f : nat) (e' : object.EnvRef),
    object.Get_fuel f
      (<[e := {| object.store := <[key := val]> (object.store env);
                 object.outer := object.outer env |}]> h) e' key'
    = object.Get_fuel f h e' key'.
Proof.
  intros Hl Hne. induction f as [|f IH]; intros e'; [reflexivity|].
  simpl. destruct (decide (e' = e)) as [->|Hee].
  - rewrite list_lookup_insert_eq by (by eapply lookup_lt_Some).
    rewrite Hl. simpl. rewrite lookup_insert_ne by done.
    destruct (object.store env !! key'); [reflexivity|].
    destruct (object.outer env); [apply IH|reflexivity].
  - rewrite list_lookup_insert_ne by done.
    destruct (h !! e') as [env'|]; [|reflexivity].
    destruct (object.store env' !! key'); [reflexivity|].
    destruct (object.outer env'); [apply IH|reflexivity].
Qed.

Lemma wf_heap_insert (h : object.Heap) (e : object.EnvRef)
  (env env' : object.Environment) :
  wf_heap h -> h !! e = Some env -> object.outer env' = object.outer env ->
  wf_heap (<[e := env']> h).
Proof.
  intros Hwf Hl Hout e1 env1 o Hl1 Ho.
  destruct (decide (e1 = e)) as [->|Hne].
  - rewrite list_lookup_insert_eq in Hl1 by (by eapply lookup_lt_Some).
    simplify_eq. rewrite Hout in Ho. by eapply Hwf.
  - rewrite list_lookup_insert_ne in Hl1 by done. by eapply Hwf.
Qed.

Lemma wf_heap_snoc (h : object.Heap) (env : object.Environment) :
  wf_heap h ->
  (forall o, object.outer env = Some o -> (o < List.length h)%nat) ->
  wf_heap (h ++ [env]).
Proof.
  intros Hwf Hout e1 env1 o Hl1 Ho.
  destruct (decide (e1 < List.length h)%nat) as [Hlt|Hge].
  - rewrite lookup_app_l in Hl1 by done. by eapply Hwf.
  - rewrite lookup_app_r in Hl1 by lia.
    destruct (e1 - List.length h)%nat as [|k] eqn:Hk; simpl in Hl1; [|done].
    simplify_eq. specialize (Hout _ Ho). lia.
Qed.

(** X1. [Set] then [Get]: binding a name in an allocated environment
    returns the value, makes [Get] find it in that environment, leaves
    the lookup of every other name unchanged in every environment, and
    keeps the heap well formed. *)
Theorem Set_then_Get (h : object.Heap) (e : object.EnvRef) (key : string)
  (val : object.Object) :
  (e < List.length h)%nat ->
  exists h',
    object.Set_ h e key val = Ok (val, h')
    /\ List.length h' = List.length h
    /\ object.Get h' e key = Ok (Some val)
    /\ (forall (e' : object.EnvRef) (key' : string),
          key' <> key -> object.Get h' e' key' = object.Get h e' key')
    /\ (wf_heap h -> wf_heap h').
Proof.
  intros He. destruct (lookup_lt_is_Some_2 h e He) as [env Hl].
  unfold object.Set_. rewrite Hl. eexists. split; [reflexivity|].
  split; [by rewrite length_insert|]. split; [|split].
  - eapply Get_own_scope.
    + by apply list_lookup_insert_eq.
    + simpl. apply lookup_insert_eq.
  - intros e' key' Hne. unfold object.Get. rewrite length_insert.
    by apply Get_fuel_other_key.
  - intros Hwf. by eapply wf_heap_insert.
Qed.

Lemma Set_then_Get_witness :
  (0 < List.length heap_with_len)%nat
  /\ exists h',
       object.Set_ heap_with_len 0%nat "x" (object.Integer 1)
       = Ok (object.Integer 1, h')
       /\ object.Get h' 0%nat "x" = Ok (Some (object.Integer 1))
       /\ object.Get h' 0%nat "len" = Ok (Some (object.Integer 5)).
Proof.
  assert (Hlen : (0 < List.length heap_with_len)%nat) by (simpl; lia).
  split; [exact Hlen|].
  destruct (Set_then_Get heap_with_len 0%nat "x" (object.Integer 1) Hlen)
    as (h' & Hset & _ & Hget & Hother & _).
  exists h'. split; [exact Hset|]. split; [exact Hget|].
  rewrite (Hother 0%nat "len"); [reflexivity|discriminate].
Defined.

(** X2. Lexical lookup: in a new environment enclosed in [outer], every
    name resolves as it does in [outer]; allocating it changes the lookup
    of no older environment and keeps the heap well formed. *)
Theorem enclosed_environment_lookup (h : object.Heap) (outer : object.EnvRef)
  (key : string) :
  wf_heap h -> (outer < List.length h)%nat ->
  let callEnv := (object.NewEnclosedEnvironment outer h).1 in
  let h' := (object.NewEnclosedEnvironment outer h).2 in
  callEnv = List.length h
  /\ object.Get h' callEnv key = object.Get h outer key
  /\ (forall e : object.EnvRef,
        (e < List.length h)%nat -> object.Get h' e key = object.Get h e key)
  /\ wf_heap h'.
Proof.
  intros Hwf Hout. unfold object.NewEnclosedEnvironment. cbn [fst snd].
  split; [reflexivity|]. split; [|split].
  - unfold object.Get at 1. rewrite length_app. cbn [object.Get_fuel].
    rewrite lookup_app_r by lia. rewrite Nat.sub_diag.
    cbn [lookup list_lookup object.store object.outer]. rewrite lookup_empty.
    rewrite Get_fuel_app by done.
    unfold object.Get. apply Get_fuel_enough; [done|simpl; lia..].
  - intros e He. unfold object.Get. rewrite length_app.
    rewrite Get_fuel_app by done. apply Get_fuel_enough; [done|simpl; lia..].
  - apply wf_heap_snoc; [done|]. simpl. intros o Ho. by simplify_eq.
Qed.

Lemma enclosed_environment_lookup_witness :
  wf_heap heap_with_len /\ (0 < List.length heap_with_len)%nat
  /\ object.Get (object.NewEnclosedEnvironment 0%nat heap_with_len).2 1%nat "len"
     = Ok (Some (object.Integer 5)).
Proof.
  assert (Hlen : (0 < List.length heap_with_len)%nat) by (simpl; lia).
  split; [exact wf_heap_with_len|]. split; [exact Hlen|].
  destruct (enclosed_environment_lookup heap_with_len 0%nat "len"
              wf_heap_with_len Hlen) as (_ & Hget & _).
  exact Hget.
Defined.

(** X3. Shadowing: a binding made in an enclosed environment is found
    there, and changes what no older environment (the enclosing one
    included) resolves, for any name. *)
Theorem shadowing_keeps_outer (h : object.Heap) (outer : object.EnvRef)
  (key : string) (val : object.Object) :
  wf_heap h -> (outer < List.length h)%nat ->
  let callEnv := (object.NewEnclosedEnvironment outer h).1 in
  let h1 := (object.NewEnclosedEnvironment outer h).2 in
  exists h2,
    object.Set_ h1 callEnv key val = Ok (val, h2)
    /\ object.Get h2 callEnv key = Ok (Some val)
    /\ (forall (e : object.EnvRef) (key' : string),
          (e < List.length h)%nat -> object.Get h2 e key' = object.Get h e key')
    /\ wf_heap h2.
Proof.
  intros Hwf Hout. unfold object.NewEnclosedEnvironment. cbn [fst snd].
  set (new := {| object.store := ∅; object.outer := Some outer |}).
  assert (Hwf1 : wf_heap (h ++ [new])).
  { apply wf_heap_snoc; [done|]. simpl. intros o Ho. by simplify_eq. }
  assert (Hl : (h ++ [new]) !! List.length h = Some new).
  { rewrite lookup_app_r by lia. by rewrite Nat.sub_diag. }
  unfold object.Set_. rewrite Hl. eexists. split; [reflexivity|].
  split; [|split].
  - eapply Get_own_scope.
    + apply list_lookup_insert_eq. by eapply lookup_lt_Some.
    + simpl. apply lookup_insert_eq.
  - intros e key' He. unfold object.Get.
    rewrite length_insert, length_app.
    rewrite Get_fuel_insert_younger by done.
    rewrite Get_fuel_app by done.
    apply Get_fuel_enough; [done|simpl; lia..].
  - by eapply wf_heap_insert.
Qed.

Lemma shadowing_keeps_outer_witness :
  wf_heap heap_with_len /\ (0 < List.length heap_with_len)%nat
  /\ exists h2,
       object.Set_ (object.NewEnclosedEnvironment 0%nat heap_with_len).2 1%nat
         "len" (object.Integer 7) = Ok (object.Integer 7, h2)
       /\ object.Get h2 1%nat "len" = Ok (Some (object.Integer 7))
       /\ object.Get h2 0%nat "len" = Ok (Some (object.Integer 5)).
Proof.
  assert (Hlen : (0 < List.length heap_with_len)%nat) by (simpl; lia).
  split; [exact wf_heap_with_len|]. split; [exact Hlen|].
  destruct (shadowing_keeps_outer heap_with_len 0%nat "len" (object.Integer 7)
              wf_heap_with_len Hlen) as (h2 & Hset & Hget & Houter & _).
  exists h2. split; [exact Hset|]. split; [exact Hget|].
  rewrite (Houter 0%nat "len" Hlen). reflexivity.
Defined.

End environment_properties.

(** ** Built-in functions on arrays *)

Section array_builtins.
Import evaluator.

Lemma slice_index_last {A} (init : list A) (x : A) :
  slice_index (init ++ [x]) (Z.of_nat (List.length (init ++ [x])) - 1) = Ok x.
Proof.
  unfold slice_index. rewrite length_app. simpl.
  destruct (Z.ltb_spec (Z.of_nat (List.length init + 1) - 1) 0); [lia|].
  replace (Z.to_nat (Z.of_nat (List.length init + 1) - 1))
    with (List.length init + 0)%nat by lia.
  by rewrite lookup_app_r, Nat.add_0_r, Nat.sub_diag by lia.
Qed.

Lemma length_snoc_eqb_0 {A} (init : list A) (x : A) :
  (List.length (init ++ [x]) =? 0)%nat = false.
Proof. rewrite length_app. simpl. apply Nat.eqb_neq. lia. Qed.

Lemma last_snoc (init : list Object) (x : Object) :
  evaluator.last [object.Array (init ++ [x])] = Ok x.
Proof.
  unfold evaluator.last. rewrite slice_index_0.
  cbn [List.length Nat.eqb negb obind].
  rewrite length_snoc_eqb_0. apply slice_index_last.
Qed.

(** X4. [head], [tail] and [last] take an array apart: of a non-empty
    array [head] is the first element, [tail] the array of the others and
    [last] the last element; of the empty array [head] and [last] are
    [NULL] and [tail] is the empty array. *)
Theorem head_tail_last :
  (forall (x : Object) (rest : list Object),
     evaluator.head [object.Array (x :: rest)] = Ok x
     /\ evaluator.tail [object.Array (x :: rest)] = Ok (object.Array rest))
  /\ (forall (init : list Object) (x : Object),
        evaluator.last [object.Array (init ++ [x])] = Ok x)
  /\ evaluator.head [object.Array []] = Ok NULL
  /\ evaluator.last [object.Array []] = Ok NULL
  /\ evaluator.tail [object.Array []] = Ok (object.Array []).
Proof.
  split; [|split; [exact last_snoc|by repeat split]].
  intros x rest. split; [reflexivity|]. by rewrite tail_Array.
Qed.

(** X6. The length of [tail(a)] is the length of [a] less one, and 0 for
    the empty array. *)
Theorem len_of_tail (elements : list Object) :
  obind (evaluator.tail [object.Array elements]) (fun t => evaluator.length [t])
  = Ok (object.Integer (Z.of_nat (Nat.pred (List.length elements)))).
Proof.
  rewrite tail_Array. cbn [obind]. unfold evaluator.length.
  rewrite slice_index_0. cbn [List.length Nat.eqb negb obind].
  rewrite length_drop. do 3 f_equal. lia.
Qed.

(** X7. The messages of the built-ins. A wrong number of arguments is
    reported with the number received and the number wanted. A first
    argument of an unsupported type is reported with its type, under the
    name [len] by [len], [head], [tail] and [last] alike, and under the
    name [push] by [push]. *)
Theorem builtin_error_messages (fn : object.BuiltinFn) (arg : Object)
  (rest : list Object) (t : object.ObjectType) :
  (List.length (arg :: rest) <> arity fn ->
   callBuiltin fn (arg :: rest)
   = Ok (object.Error ("wrong number of arguments. got="
                       +:+ pretty (List.length (arg :: rest)) +:+ ", want="
                       +:+ pretty (arity fn) +:+ ")")))
  /\ (List.length (arg :: rest) = arity fn ->
      supported fn arg = false -> object.Type_of arg = Ok t ->
      callBuiltin fn (arg :: rest)
      = Ok (object.Error ("argument to `"
                          +:+ (if decide (fn = object.fn_push) then "push" else "len")
                          +:+ "` not supported, got " +:+ t))).
Proof.
  split.
  - intros Hlen.
    destruct fn; simpl in Hlen |- *;
      unfold evaluator.length, head, tail, evaluator.last, push;
      match goal with
      | |- context [(?n =? ?m)%nat] => destruct (Nat.eqb_spec n m)
      end; simpl in *; try lia; reflexivity.
  - intros Hlen Hsup Ht.
    destruct fn; simpl in Hlen;
      destruct rest as [|b [|? ?]]; simpl in Hlen; try lia;
      destruct arg; simpl in *; simplify_eq; try done.
Qed.

Lemma builtin_error_messages_witness :
  callBuiltin object.fn_head [object.Integer 1; object.Integer 2]
  = Ok (object.Error "wrong number of arguments. got=2, want=1)")
  /\ callBuiltin object.fn_head [object.Integer 1]
     = Ok (object.Error "argument to `len` not supported, got INTEGER").
Proof.
  destruct (builtin_error_messages object.fn_head (object.Integer 1)
              [object.Integer 2] object.INTEGER_OBJ) as [Hcount _].
  destruct (builtin_error_messages object.fn_head (object.Integer 1)
              [] object.INTEGER_OBJ) as [_ Htype].
  split.
  - apply Hcount. simpl. lia.
  - apply Htype; reflexivity.
Defined.

End array_builtins.

(** ** Operators *)

Section operator_properties.
Import evaluator.

Lemma wrap64_id (z : Z) : in_int64 z -> wrap64 z = z.
Proof.
  unfold in_int64, int64_min, int64_max, wrap64. intros Hz.
  rewrite Z.mod_small by lia. lia.
Qed.

Lemma to_uint64_wrap64_eq (z : Z) : to_uint64 (wrap64 z) = to_uint64 z.
Proof.
  unfold to_uint64, wrap64.
  rewrite Zminus_mod_idemp_l.
  f_equal. lia.
Qed.

Lemma String_length_append (a b : string) :
  String.length (a +:+ b) = (String.length a + String.length b)%nat.
Proof. induction a as [|c a IH]; simpl; [reflexivity|by rewrite IH]. Qed.

(** X8. The prefix [!] is the negation of truthiness, the notion that
    [if] branches on: [!x] is [TRUE] exactly when [x] is [FALSE] or
    [NULL], and [!!x] is the truthiness of [x] as a boolean. *)
Theorem bang_is_not_truthy (x : Object) :
  evalBangPrefixOperatorExpression x
  = nativeBoolToBooleanObject (negb (isTruthy x))
  /\ evalBangPrefixOperatorExpression (evalBangPrefixOperatorExpression x)
     = nativeBoolToBooleanObject (isTruthy x)
  /\ (isTruthy x = false <-> x = FALSE \/ x = NULL).
Proof.
  split; [|split].
  - by destruct x as [| |[]| | | | | | | |].
  - by destruct x as [| |[]| | | | | | | |].
  - split.
    + destruct x as [| |[]| | | | | | | |]; simpl; intros; try done; eauto.
    + by intros [->| ->].
Qed.

Lemma bang_is_not_truthy_witness :
  isTruthy (object.Integer 0) = true
  /\ evalBangPrefixOperatorExpression (object.Integer 0) = FALSE
  /\ (isTruthy NULL = false <-> NULL = FALSE \/ NULL = NULL).
Proof.
  destruct (bang_is_not_truthy (object.Integer 0)) as (Hbang & _ & _).
  destruct (bang_is_not_truthy NULL) as (_ & _ & Hfalsy).
  split; [reflexivity|]. split; [exact Hbang|exact Hfalsy].
Defined.

(** X9. Integer arithmetic is arithmetic modulo [2^64]: for each of
    [+], [-], [*] and [/] (by a divisor other than 0, truncating toward
    zero) the result is the 64-bit integer that has the same 64 bits as
    the exact result, so it is the exact result whenever that is a
    64-bit integer, and wraps around otherwise. Division by zero is a
    run-time panic, not an [Error] value. *)
Theorem integer_arithmetic (a b : Z) :
  (forall (op : string) (exact : Z),
     (op = "+" /\ exact = a + b) \/ (op = "-" /\ exact = a - b)
     \/ (op = "*" /\ exact = a * b)
     \/ (op = "/" /\ b <> 0 /\ exact = Z.quot a b) ->
     exists r : Z,
       evalInfixExpression op (object.Integer a) (object.Integer b)
       = Ok (object.Integer r)
       /\ in_int64 r
       /\ to_uint64 r = to_uint64 exact
       /\ (in_int64 exact -> r = exact))
  /\ evalInfixExpression "/" (object.Integer a) (object.Integer 0)
     = Panic integer_divide_by_zero
  /\ evalInfixExpression "+" (object.Integer int64_max) (object.Integer 1)
     = Ok (object.Integer int64_min)
  /\ evalInfixExpression "-" (object.Integer int64_min) (object.Integer 1)
     = Ok (object.Integer int64_max)
  /\ evalInfixExpression "*" (object.Integer int64_max) (object.Integer 2)
     = Ok (object.Integer (-2))
  /\ evalInfixExpression "/" (object.Integer int64_min) (object.Integer (-1))
     = Ok (object.Integer int64_min).
Proof.
  split; [|repeat split; reflexivity].
  intros op exact Hop. exists (wrap64 exact).
  split; [|split; [apply wrap64_in_int64|split; [apply to_uint64_wrap64_eq|apply wrap64_id]]].
  destruct Hop as [[-> ->]|[[-> ->]|[[-> ->]|(-> & Hb & ->)]]]; cbn;
    try reflexivity.
  by destruct (Z.eqb_spec b 0).
Qed.

Lemma integer_arithmetic_witness :
  in_int64 (7 + -2) /\ in_int64 (Z.quot (-7) 2) /\ 2 <> 0
  /\ evalInfixExpression "+" (object.Integer 7) (object.Integer (-2))
     = Ok (object.Integer 5)
  /\ evalInfixExpression "/" (object.Integer (-7)) (object.Integer 2)
     = Ok (object.Integer (-3)).
Proof.
  assert (H1 : in_int64 (7 + -2)) by (unfold in_int64, int64_min, int64_max; lia).
  assert (H2 : in_int64 (Z.quot (-7) 2))
    by (vm_compute; split; discriminate).
  assert (H3 : 2 <> 0) by lia.
  split; [exact H1|]. split; [exact H2|]. split; [exact H3|].
  destruct (proj1 (integer_arithmetic 7 (-2)) "+" (7 + -2))
    as (r & Hr & _ & _ & Hexact); [by left|].
  destruct (proj1 (integer_arithmetic (-7) 2) "/" (Z.quot (-7) 2))
    as (q & Hq & _ & _ & Hquot); [by right; right; right|].
  split.
  - rewrite Hr. by rewrite (Hexact H1).
  - rewrite Hq. by rewrite (Hquot H2).
Defined.

(** X10. Operands of different types are a [type mismatch] error for
    every operator, [==] and [!=] included. *)
Theorem infix_type_mismatch (op : string) (left right : Object)
  (lt rt : object.ObjectType) :
  object.Type_of left = Ok lt -> object.Type_of right = Ok rt -> lt <> rt ->
  evalInfixExpression op left right
  = Ok (object.Error ("type mismatch: " +:+ lt +:+ " " +:+ op +:+ " " +:+ rt)).
Proof.
  intros Hl Hr Hne. unfold evalInfixExpression. rewrite Hl, Hr. cbn [obind].
  by rewrite (proj2 (String.eqb_neq lt rt) Hne).
Qed.

Lemma infix_type_mismatch_witness :
  evalInfixExpression "==" (object.Integer 1) TRUE
  = Ok (object.Error "type mismatch: INTEGER == BOOLEAN").
Proof.
  apply (infix_type_mismatch "==" (object.Integer 1) TRUE
           object.INTEGER_OBJ object.BOOLEAN_OBJ); [reflexivity..|discriminate].
Defined.

(** X11. On two strings [+] is concatenation, so that [len] adds up; every
    other operator, the comparisons [==] and [!=] included, is an
    [unknown operator] error. *)
Theorem string_operators (op a b : string) :
  evalInfixExpression op (object.String a) (object.String b)
  = Ok (if String.eqb op "+" then object.String (a +:+ b)
        else object.Error ("unknown operator: STRING " +:+ op +:+ " STRING"))
  /\ evaluator.length [object.String (a +:+ b)]
     = Ok (object.Integer (Z.of_nat (String.length a) + Z.of_nat (String.length b))).
Proof.
  split.
  - cbn. by destruct (String.eqb op "+").
  - unfold evaluator.length. rewrite slice_index_0.
    cbn [List.length Nat.eqb negb obind].
    rewrite String_length_append. do 2 f_equal. lia.
Qed.

(** X12. On two booleans [==] and [!=] compare the values, and every other
    operator is an [unknown operator] error; [null == null] holds. *)
Theorem boolean_operators (op : string) (a b : bool) :
  evalInfixExpression op (object.Boolean a) (object.Boolean b)
  = Ok (if String.eqb op "==" then nativeBoolToBooleanObject (Bool.eqb a b)
        else if String.eqb op "!=" then nativeBoolToBooleanObject (negb (Bool.eqb a b))
        else object.Error ("unknown operator: BOOLEAN " +:+ op +:+ " BOOLEAN"))
  /\ evalInfixExpression "==" NULL NULL = Ok TRUE
  /\ evalInfixExpression "!=" NULL NULL = Ok FALSE.
Proof.
  split; [|by split]. cbn.
  destruct (String.eqb op "=="); [reflexivity|].
  by destruct (String.eqb op "!=").
Qed.

(** X13. Indexing an array with an integer never fails: inside the bounds
    it is the element, outside (negative indices included) it is [NULL].
    An index that is not an integer makes the type assertion panic.
    Indexing anything but an array or a hash is [NULL]. *)
Theorem array_index (elements : list Object) (i : Z) :
  evalIndexExpression (object.Array elements) (object.Integer i)
  = Ok (if (0 <=? i) && (i <? Z.of_nat (List.length elements))
        then default NULL (elements !! Z.to_nat i) else NULL)
  /\ (0 <= i < Z.of_nat (List.length elements) ->
      exists x, elements !! Z.to_nat i = Some x
                /\ evalIndexExpression (object.Array elements) (object.Integer i)
                   = Ok x)
  /\ (forall index : Object,
        (forall n, index <> object.Integer n) ->
        evalIndexExpression (object.Array elements) index
        = Panic interface_conversion)
  /\ (forall left index : Object,
        is_Array left = false -> (forall pairs, left <> object.Hash pairs) ->
        evalIndexExpression left index = Ok NULL).
Proof.
  assert (Hgen : evalIndexExpression (object.Array elements) (object.Integer i)
                 = Ok (if (0 <=? i) && (i <? Z.of_nat (List.length elements))
                       then default NULL (elements !! Z.to_nat i) else NULL)).
  { unfold evalIndexExpression, slice_index.
    destruct (Z.ltb_spec i 0), (Z.leb_spec 0 i); try lia; cbn [orb andb];
      [reflexivity|].
    destruct (Z.gtb_spec i (Z.of_nat (List.length elements) - 1)),
      (Z.ltb_spec i (Z.of_nat (List.length elements))); try lia; [reflexivity|].
    destruct (elements !! Z.to_nat i) eqn:Hl; [reflexivity|].
    apply lookup_ge_None in Hl. lia. }
  split; [exact Hgen|]. split; [|split].
  - intros Hi. destruct (lookup_lt_is_Some_2 elements (Z.to_nat i)) as [x Hx]; [lia|].
    exists x. split; [exact Hx|]. rewrite Hgen, Hx.
    destruct (Z.leb_spec 0 i), (Z.ltb_spec i (Z.of_nat (List.length elements)));
      try lia; reflexivity.
  - intros index Hindex. destruct index; try reflexivity. by destruct (Hindex Value).
  - intros left index Harr Hhash.
    destruct left; try reflexivity; [done|by destruct (Hhash Pairs)].
Qed.

Lemma array_index_witness :
  0 <= 1 < Z.of_nat (List.length [object.Integer 1; object.Integer 2])
  /\ evalIndexExpression (object.Array [object.Integer 1; object.Integer 2])
       (object.Integer 1) = Ok (object.Integer 2)
  /\ evalIndexExpression (object.Array [object.Integer 1]) TRUE
     = Panic interface_conversion
  /\ evalIndexExpression (object.Integer 1) (object.Integer 0) = Ok NULL.
Proof.
  assert (H : 0 <= 1 < Z.of_nat (List.length [object.Integer 1; object.Integer 2]))
    by (simpl; lia).
  split; [exact H|].
  destruct (array_index [object.Integer 1; object.Integer 2] 1)
    as (_ & Hin & _ & _).
  destruct (array_index [object.Integer 1] 0) as (_ & _ & Hpanic & Hother).
  split; [|split].
  - destruct (Hin H) as (x & Hx & Heval). simpl in Hx. by simplify_eq.
  - apply Hpanic. discriminate.
  - apply Hother; [reflexivity|discriminate].
Defined.

(** X14. Indexing a hash: a pair stored under the hash key of [key] is
    found by [key]; a key without a pair gives [NULL]; a pair stored under
    the key of a value of another type is never in the way; and an index
    that is not hashable is an [unusable as hash key] error. *)
Theorem hash_index (pairs : gmap object.HashKey object.HashPair)
  (key val : Object) (hashKey : object.HashKey) :
  object.HashKey_of key = Some hashKey ->
  evalIndexExpression
    (object.Hash (<[hashKey := object.mkHashPair key val]> pairs)) key = Ok val
  /\ (pairs !! hashKey = None ->
      evalIndexExpression (object.Hash pairs) key = Ok NULL)
  /\ (forall (key' : Object) (hashKey' : object.HashKey) (entry : object.HashPair),
        object.HashKey_of key' = Some hashKey' ->
        object.Type_of key' <> object.Type_of key ->
        evalIndexExpression (object.Hash (<[hashKey' := entry]> pairs)) key
        = evalIndexExpression (object.Hash pairs) key)
  /\ (forall (index : Object) (t : object.ObjectType),
        object.HashKey_of index = None -> object.Type_of index = Ok t ->
        evalIndexExpression (object.Hash pairs) index
        = Ok (object.Error ("unusable as hash key: " +:+ t))).
Proof.
  intros Hkey. split; [|split; [|split]].
  - unfold evalIndexExpression. by rewrite Hkey, lookup_insert_eq.
  - intros Hnone. unfold evalIndexExpression. by rewrite Hkey, Hnone.
  - intros key' hashKey' entry Hkey' Hty. unfold evalIndexExpression.
    rewrite Hkey. rewrite lookup_insert_ne; [reflexivity|].
    intros ->.
    destruct key; try discriminate; destruct key'; try discriminate;
      simpl in *; simplify_eq; by apply Hty.
  - intros index t Hnone Ht. unfold evalIndexExpression.
    by rewrite Hnone, Ht.
Qed.

Lemma hash_index_witness :
  object.HashKey_of (object.Integer 1) = Some (object.Integer_HashKey 1)
  /\ evalIndexExpression
       (object.Hash (<[object.Boolean_HashKey true
                       := object.mkHashPair TRUE (object.Integer 5)]>
                       (<[object.Integer_HashKey 1
                          := object.mkHashPair (object.Integer 1) (object.Integer 4)]>
                          ∅)))
       (object.Integer 1)
     = Ok (object.Integer 4).
Proof.
  split; [reflexivity|].
  destruct (hash_index ∅ (object.Integer 1) (object.Integer 4)
              (object.Integer_HashKey 1) eq_refl) as (Hfound & _ & _ & _).
  destruct (hash_index (<[object.Integer_HashKey 1
                          := object.mkHashPair (object.Integer 1) (object.Integer 4)]> ∅)
              (object.Integer 1) (object.Integer 4)
              (object.Integer_HashKey 1) eq_refl) as (_ & _ & Hother & _).
  rewrite (Hother TRUE (object.Boolean_HashKey true)); [exact Hfound|reflexivity|].
  discriminate.
Defined.

End operator_properties.

(** ** Evaluation: values, errors and calls *)

Section evaluation_properties.
Import evaluator.
Local Open Scope eval_scope.

Lemma evalExpressions_loop_shape (ev : ast.Node -> EnvRef -> E Object)
  (nodes : list ast.Expression) (env : EnvRef) :
  forall (acc : list Object) (h h' : Heap) (objects : list Object),
    Forall no_error acc ->
    evalExpressions_loop ev nodes env acc h = Ok (objects, h') ->
    (List.length objects = (List.length acc + List.length nodes)%nat
     /\ Forall no_error objects)
    \/ (exists e, objects = [e] /\ isError e = true).
Proof.
  induction nodes as [|node rest IH]; intros acc h h' objects Hacc Heval;
    simpl in Heval.
  - unfold ret in Heval. simplify_eq. left. split; [simpl; lia|done].
  - unfold bind in Heval.
    destruct (ev (ast.NExpression node) env h) as [[obj h1]| | |] eqn:Hnode;
      simpl in Heval; try discriminate.
    destruct (isError obj) eqn:Herr.
    + unfold ret in Heval. simplify_eq. right. eauto.
    + apply IH in Heval as [[Hlen Hall]|Herror].
      * left. split; [|done]. rewrite Hlen, length_app. simpl. lia.
      * by right.
      * apply Forall_app. split; [done|]. by repeat constructor.
Qed.

Lemma EvaluatesTo_length ev env nodes h objects h' :
  EvaluatesTo ev env nodes h objects h' ->
  List.length objects = List.length nodes /\ Forall no_error objects.
Proof.
  induction 1 as [|node rest h h1 h2 obj objects Hnode Herr _ [IHlen IHall]];
    [by split|].
  split; [simpl; by rewrite IHlen|by constructor].
Qed.

(** The loop of [evalExpressions] on expressions of which the first
    ones evaluate to values. *)
Lemma evalExpressions_loop_through ev env pre h objects h1 :
  EvaluatesTo ev env pre h objects h1 ->
  forall post acc,
    evalExpressions_loop ev (pre ++ post) env acc h
    = evalExpressions_loop ev post env (acc ++ objects) h1.
Proof.
  induction 1 as [|node rest h h1 h2 obj objects Hnode Herr _ IH];
    intros post acc.
  - by rewrite app_nil_r.
  - simpl. unfold bind. rewrite Hnode. simpl. rewrite Herr.
    rewrite IH. by rewrite <- app_assoc.
Qed.

(** X15. The value of an array literal. When its expressions evaluate
    in sequence to values none of which is an [Error], the literal
    evaluates to the array of these values, one for each expression.
    When the first ones do and the next one evaluates to an [Error],
    the literal evaluates to that error, and when the next one does not
    return (it panics, say), neither does the literal: the expressions
    after it are not evaluated.
    So whatever a literal returns is an array of as many elements as
    the literal has, none of them an [Error], or is an [Error]. *)
Theorem array_literal_value (fuel : nat) (tok : token.Token) (env : EnvRef) :
  (forall elements h objects h',
     EvaluatesTo (Eval fuel) env elements h objects h' ->
     Eval (S fuel) (ast.NExpression (ast.ArrayLiteral tok elements)) env h
     = Ok (object.Array objects, h')
     /\ List.length objects = List.length elements)
  /\ (forall pre node post h objects h1 msg h2,
        EvaluatesTo (Eval fuel) env pre h objects h1 ->
        Eval fuel (ast.NExpression node) env h1 = Ok (object.Error msg, h2) ->
        Eval (S fuel)
          (ast.NExpression (ast.ArrayLiteral tok (pre ++ node :: post))) env h
        = Ok (object.Error msg, h2))
  /\ (forall pre node post h objects h1 outcome,
        EvaluatesTo (Eval fuel) env pre h objects h1 ->
        Eval fuel (ast.NExpression node) env h1 = outcome ->
        (forall r, outcome <> Ok r) ->
        Eval (S fuel)
          (ast.NExpression (ast.ArrayLiteral tok (pre ++ node :: post))) env h
        = outcome)
  /\ (forall elements h v h',
        Eval (S fuel) (ast.NExpression (ast.ArrayLiteral tok elements)) env h
        = Ok (v, h') ->
        (exists objects,
           v = object.Array objects
           /\ List.length objects = List.length elements
           /\ Forall no_error objects)
        \/ isError v = true).
Proof.
  split; [|split; [|split]].
  - intros elements h objects h' Hall.
    destruct (EvaluatesTo_length _ _ _ _ _ _ Hall) as [Hlen Hok].
    split; [|exact Hlen].
    cbn [Eval Eval_body Eval_expression]. unfold bind, evalExpressions.
    rewrite <- (app_nil_r elements).
    rewrite (evalExpressions_loop_through _ _ _ _ _ _ Hall [] []).
    cbn [evalExpressions_loop app]. unfold ret. cbn [obind fst snd].
    destruct objects as [|o [|? ?]]; try reflexivity.
    apply Forall_cons in Hok as [Ho _]. unfold no_error in Ho.
    by rewrite Ho.
  - intros pre node post h objects h1 msg h2 Hall Hnode.
    cbn [Eval Eval_body Eval_expression]. unfold bind, evalExpressions.
    rewrite (evalExpressions_loop_through _ _ _ _ _ _ Hall (node :: post) []).
    cbn [evalExpressions_loop]. unfold bind. rewrite Hnode. reflexivity.
  - intros pre node post h objects h1 outcome Hall Hnode Hfails.
    cbn [Eval Eval_body Eval_expression]. unfold bind, evalExpressions.
    rewrite (evalExpressions_loop_through _ _ _ _ _ _ Hall (node :: post) []).
    cbn [evalExpressions_loop]. unfold bind. rewrite Hnode.
    destruct outcome as [r| | |]; [by destruct (Hfails r)|reflexivity..].
  - intros elements h v h'.
    cbn [Eval Eval_body Eval_expression]. unfold bind, evalExpressions.
    destruct (evalExpressions_loop (Eval fuel) elements env [] h)
      as [[objects h1]| | |] eqn:Hloop; simpl; try discriminate.
    apply evalExpressions_loop_shape in Hloop; [|by constructor].
    destruct Hloop as [[Hlen Hall]|[e [-> He]]].
    + intros Hv. left. exists objects.
      destruct objects as [|o [|? ?]]; unfold ret in Hv.
      * by simplify_eq.
      * apply Forall_cons in Hall as [Ho _]. unfold no_error in Ho.
        rewrite Ho in Hv. simplify_eq. split; [done|]. split; [done|].
        by repeat constructor.
      * by simplify_eq.
    + rewrite He. unfold ret. intros Hv. simplify_eq. by right.
Qed.

Lemma array_literal_value_witness :
  let int n s := ast.IntegerLiteral {| token.Type_ := token.INT; token.Literal := s |} n in
  let tok := {| token.Type_ := token.LBRACKET; token.Literal := "[" |} in
  let div := {| token.Type_ := token.SLASH; token.Literal := "/" |} in
  let h := [{| object.store := ∅; object.outer := None |}] in
  EvaluatesTo (Eval 2) 0%nat [int 1 "1"; int 2 "2"] h
    [object.Integer 1; object.Integer 2] h
  /\ Eval 3 (ast.NExpression (ast.ArrayLiteral tok [int 1 "1"; int 2 "2"])) 0%nat h
     = Ok (object.Array [object.Integer 1; object.Integer 2], h)
  /\ Eval 2 (ast.NExpression (ast.Ident (name "y"))) 0%nat h
     = Ok (object.Error "identifier not found: y", h)
  /\ Eval 3 (ast.NExpression
               (ast.ArrayLiteral tok
                  ([int 1 "1"; int 2 "2"] ++ ast.Ident (name "y") :: [int 3 "3"])))
       0%nat h
     = Ok (object.Error "identifier not found: y", h)
  /\ Eval 2 (ast.NExpression (ast.InfixExpression div (int 1 "1") "/" (int 0 "0")))
       0%nat h
     = Panic integer_divide_by_zero
  /\ Eval 3 (ast.NExpression
               (ast.ArrayLiteral tok
                  ([int 1 "1"; int 2 "2"]
                   ++ ast.InfixExpression div (int 1 "1") "/" (int 0 "0") :: [])))
       0%nat h
     = Panic integer_divide_by_zero.
Proof.
  intros int tok div h.
  assert (Hall : EvaluatesTo (Eval 2) 0%nat [int 1 "1"; int 2 "2"] h
                   [object.Integer 1; object.Integer 2] h).
  { apply EvaluatesTo_cons with (h1 := h); [reflexivity..|].
    apply EvaluatesTo_cons with (h1 := h); [reflexivity..|].
    apply EvaluatesTo_nil. }
  destruct (array_literal_value 2 tok 0%nat) as (Hvalues & Herror & Hpanic & _).
  split; [exact Hall|].
  split; [exact (proj1 (Hvalues _ _ _ _ Hall))|].
  split; [reflexivity|].
  split; [exact (Herror _ (ast.Ident (name "y")) [int 3 "3"] _ _ _
                   "identifier not found: y" h Hall eq_refl)|].
  split; [reflexivity|].
  apply (Hpanic _ (ast.InfixExpression div (int 1 "1") "/" (int 0 "0")) [] _ _ _
           (Panic integer_divide_by_zero) Hall eq_refl).
  discriminate.
Defined.

(** X16. Errors short-circuit. When a sub-expression evaluates to an
    [Error], the prefix expression, return statement, let statement,
    expression statement, index expression, call and [if] around it
    evaluate to that same error, without touching the heap any further
    (the let statement binds nothing). An infix expression evaluates its
    right operand before it looks at the left one, and then returns the
    left error. *)
Theorem error_short_circuit (fuel : nat) (sub : ast.Expression) (env : EnvRef)
  (h h1 : Heap) (msg : string) :
  Eval fuel (ast.NExpression sub) env h = Ok (object.Error msg, h1) ->
  (forall tok op,
     Eval (S fuel) (ast.NExpression (ast.PrefixExpression tok op sub)) env h
     = Ok (object.Error msg, h1))
  /\ (forall tok,
        Eval (S fuel) (ast.NStatement (ast.ReturnStatement tok sub)) env h
        = Ok (object.Error msg, h1))
  /\ (forall tok name,
        Eval (S fuel) (ast.NStatement (ast.LetStatement tok name sub)) env h
        = Ok (object.Error msg, h1))
  /\ (forall tok,
        Eval (S fuel) (ast.NStatement (ast.ExpressionStatement tok sub)) env h
        = Ok (object.Error msg, h1))
  /\ (forall index,
        Eval (S fuel) (ast.NExpression (ast.IndexExpression sub index)) env h
        = Ok (object.Error msg, h1))
  /\ (forall tok args,
        Eval (S fuel) (ast.NExpression (ast.CallExpression tok sub args)) env h
        = Ok (object.Error msg, h1))
  /\ (forall tok consequence alternative,
        Eval (S fuel)
          (ast.NExpression (ast.IfExpression tok sub consequence alternative)) env h
        = Ok (object.Error msg, h1))
  /\ (forall tok op right r h2,
        Eval fuel (ast.NExpression right) env h1 = Ok (r, h2) ->
        Eval (S fuel) (ast.NExpression (ast.InfixExpression tok sub op right)) env h
        = Ok (object.Error msg, h2)).
Proof.
  intros Hsub.
  repeat split; intros; simpl; unfold evalIfExpression, bind; rewrite Hsub; simpl;
    try reflexivity.
  by match goal with H : Eval _ _ _ _ = _ |- _ => rewrite H end.
Qed.

Lemma error_short_circuit_witness :
  let unbound := ast.Ident {| ast.Token := {| token.Type_ := token.IDENT;
                                              token.Literal := "y" |};
                              ast.Value := "y" |} in
  let x := {| ast.Token := {| token.Type_ := token.IDENT; token.Literal := "x" |};
              ast.Value := "x" |} in
  let h := [{| object.store := ∅; object.outer := None |}] in
  Eval 1 (ast.NExpression unbound) 0%nat h
  = Ok (object.Error "identifier not found: y", h)
  /\ Eval 2 (ast.NStatement (ast.LetStatement token.zero x unbound)) 0%nat h
     = Ok (object.Error "identifier not found: y", h).
Proof.
  intros unbound x h. split; [reflexivity|].
  destruct (error_short_circuit 1 unbound 0%nat h h "identifier not found: y" eq_refl)
    as (_ & _ & Hlet & _).
  apply Hlet.
Defined.

(** X17. Binding the arguments of a call. With at most as many arguments
    as parameters the loop of [applyFunction] does not fail; it writes to
    the environment of the call only, keeps its enclosing environment,
    and, the parameter names being distinct, binds each parameter that
    has an argument to that argument; parameters without an argument stay
    unbound. *)
Theorem bindArguments_positional (parameters : list ast.Identifier)
  (callEnv : EnvRef) (args : list Object) (h : Heap) (env : object.Environment) :
  h !! callEnv = Some env ->
  (List.length args <= List.length parameters)%nat ->
  NoDup (ast.Value <$> parameters) ->
  exists h' env',
    bindArguments parameters callEnv 0 args h = Ok (tt, h')
    /\ List.length h' = List.length h
    /\ (forall e : EnvRef, e <> callEnv -> h' !! e = h !! e)
    /\ h' !! callEnv = Some env'
    /\ object.outer env' = object.outer env
    /\ (forall (i : nat) param arg,
          parameters !! i = Some param -> args !! i = Some arg ->
          object.store env' !! ast.Value param = Some arg)
    /\ (forall (i : nat) param,
          parameters !! i = Some param -> (List.length args <= i)%nat ->
          object.store env' !! ast.Value param = object.store env !! ast.Value param).
Proof.
  intros Hl Hlen Hnodup.
  assert (Hgen : forall (args : list Object) (k : nat) (h : Heap) env,
    h !! callEnv = Some env ->
    (k + List.length args <= List.length parameters)%nat ->
    exists h' env',
      bindArguments parameters callEnv (Z.of_nat k) args h = Ok (tt, h')
      /\ List.length h' = List.length h
      /\ (forall e : EnvRef, e <> callEnv -> h' !! e = h !! e)
      /\ h' !! callEnv = Some env'
      /\ object.outer env' = object.outer env
      /\ (forall (j : nat) param arg,
            parameters !! (k + j)%nat = Some param -> args !! j = Some arg ->
            object.store env' !! ast.Value param = Some arg)
      /\ (forall (i : nat) param,
            parameters !! i = Some param ->
            (i < k \/ k + List.length args <= i)%nat ->
            object.store env' !! ast.Value param
            = object.store env !! ast.Value param)).
  { clear args h env Hl Hlen.
    induction args as [|arg rest IH]; intros k h env Hl Hlen.
    - exists h, env. simpl. unfold ret. by repeat split.
    - simpl in Hlen.
      destruct (lookup_lt_is_Some_2 parameters k ltac:(lia)) as [param Hparam].
      cbn [bindArguments]. unfold bind, lift.
      assert (Hidx : slice_index parameters (Z.of_nat k) = Ok param).
      { unfold slice_index. destruct (Z.ltb_spec (Z.of_nat k) 0); [lia|].
        by rewrite Nat2Z.id, Hparam. }
      rewrite Hidx. cbn [obind fst snd].
      unfold Env_Set, object.Set_. rewrite Hl. cbn [obind fst snd].
      set (env1 := {| object.store := <[ast.Value param := arg]> (object.store env);
                      object.outer := object.outer env |}).
      assert (Hl1 : <[callEnv := env1]> h !! callEnv = Some env1).
      { apply list_lookup_insert_eq. by eapply lookup_lt_Some. }
      replace (Z.of_nat k + 1) with (Z.of_nat (S k)) by lia.
      destruct (IH (S k) (<[callEnv := env1]> h) env1 Hl1 ltac:(lia))
        as (h' & env' & Hbind & Hlen' & Hother & Hl' & Hout & Hbound & Hkept).
      exists h', env'. split; [exact Hbind|].
      split; [by rewrite Hlen', length_insert|].
      split; [intros e He; rewrite Hother by done; by apply list_lookup_insert_ne|].
      split; [exact Hl'|]. split; [by rewrite Hout|]. split.
      + intros j param' arg' Hp Ha. destruct j as [|j]; simpl in Ha.
        * rewrite Nat.add_0_r in Hp. simplify_eq.
          rewrite (Hkept k _ Hparam ltac:(lia)). simpl.
          apply lookup_insert_eq.
        * apply (Hbound j); [|done].
          by replace (S k + j)%nat with (k + S j)%nat by lia.
      + intros i param' Hp Hi.
        rewrite (Hkept i param' Hp ltac:(simpl in *; lia)). simpl.
        apply lookup_insert_ne. intros Heq.
        assert (Hik : i <> k) by (simpl in Hi; lia).
        apply Hik. eapply NoDup_lookup; [exact Hnodup|..].
        * rewrite list_lookup_fmap, Hp. reflexivity.
        * rewrite list_lookup_fmap, Hparam. simpl. by rewrite Heq. }
  destruct (Hgen args 0%nat h env Hl ltac:(simpl; lia))
    as (h' & env' & Hbind & Hlen' & Hother & Hl' & Hout & Hbound & Hkept).
  exists h', env'. repeat split; try done.
  intros i param Hp Hi. apply (Hkept i); [done|]. right. simpl. lia.
Qed.

Lemma bindArguments_positional_witness :
  let ident s := {| ast.Token := {| token.Type_ := token.IDENT; token.Literal := s |};
                    ast.Value := s |} in
  let env := {| object.store := ∅; object.outer := None |} in
  [env] !! 0%nat = Some env
  /\ (1 <= 2)%nat
  /\ NoDup (ast.Value <$> [ident "x"; ident "y"])
  /\ exists h' env',
       bindArguments [ident "x"; ident "y"] 0%nat 0 [object.Integer 5] [env]
       = Ok (tt, h')
       /\ h' !! 0%nat = Some env'
       /\ object.store env' !! "x" = Some (object.Integer 5)
       /\ object.store env' !! "y" = None.
Proof.
  intros ident env.
  assert (Hnodup : NoDup (ast.Value <$> [ident "x"; ident "y"])).
  { simpl. apply NoDup_cons. split; [|apply NoDup_singleton].
    intros Hin. apply list_elem_of_singleton in Hin. discriminate. }
  split; [reflexivity|]. split; [lia|]. split; [exact Hnodup|].
  destruct (bindArguments_positional [ident "x"; ident "y"] 0%nat
              [object.Integer 5] [env] env eq_refl ltac:(simpl; lia) Hnodup)
    as (h' & env' & Hbind & _ & _ & Hl' & _ & Hbound & Hkept).
  exists h', env'. split; [exact Hbind|]. split; [exact Hl'|]. split.
  - exact (Hbound 0%nat (ident "x") (object.Integer 5) eq_refl eq_refl).
  - exact (Hkept 1%nat (ident "y") eq_refl ltac:(simpl; lia)).
Defined.

End evaluation_properties.

(** ** Evaluation: what happens to the heap *)

Section heap_invariant.
Import evaluator.
Local Open Scope eval_scope.

Lemma extends_refl (h : Heap) : extends h h.
Proof. split; [lia|]. intros e env Hl. exists env. by repeat split. Qed.

Lemma extends_trans (h1 h2 h3 : Heap) :
  extends h1 h2 -> extends h2 h3 -> extends h1 h3.
Proof.
  intros [Hlen12 H12] [Hlen23 H23]. split; [lia|].
  intros e env1 Hl1.
  destruct (H12 _ _ Hl1) as (env2 & Hl2 & Hout2 & Hdom2).
  destruct (H23 _ _ Hl2) as (env3 & Hl3 & Hout3 & Hdom3).
  exists env3. split; [done|]. split; [congruence|]. eauto.
Qed.

Lemma keeps_ret {A} (a : A) : keeps (ret a).
Proof. intros h a' h' H. unfold ret in H. simplify_eq. apply extends_refl. Qed.

Lemma keeps_lift {A} (o : Outcome A) : keeps (lift o).
Proof.
  intros h a h' H. unfold lift in H. destruct o; simplify_eq/=.
  apply extends_refl.
Qed.

Lemma keeps_bind {A B} (m : E A) (k : A -> E B) :
  keeps m -> (forall a, keeps (k a)) -> keeps (bind m k).
Proof.
  intros Hm Hk h b h' H. unfold bind in H.
  destruct (m h) as [[a h1]| | |] eqn:H1; simplify_eq/=.
  eapply extends_trans; [by eapply Hm|by eapply Hk].
Qed.

Lemma keeps_Env_Get e key : keeps (Env_Get e key).
Proof.
  intros h a h' H. unfold Env_Get in H.
  destruct (object.Get h e key); simplify_eq/=. apply extends_refl.
Qed.

Lemma keeps_Env_Set e key val : keeps (Env_Set e key val).
Proof.
  intros h a h' H. unfold Env_Set, object.Set_ in H.
  destruct (h !! e) as [env|] eqn:Hl; simplify_eq.
  split; [by rewrite length_insert|].
  intros e1 env1 Hl1. destruct (decide (e1 = e)) as [->|Hne].
  - eexists. split; [apply list_lookup_insert_eq; by eapply lookup_lt_Some|].
    simplify_eq. split; [reflexivity|]. simpl. intros key' Hsome.
    destruct (decide (key = key')) as [->|Hk].
    + rewrite lookup_insert_eq. eauto.
    + by rewrite lookup_insert_ne.
  - exists env1. by rewrite list_lookup_insert_ne.
Qed.

Lemma keeps_NewEnclosedEnvironment outer : keeps (NewEnclosedEnvironment outer).
Proof.
  intros h a h' H. unfold NewEnclosedEnvironment, object.NewEnclosedEnvironment in H.
  simplify_eq. split; [rewrite length_app; lia|].
  intros e env Hl. exists env. split; [|done].
  rewrite lookup_app_l; [done|]. by eapply lookup_lt_Some.
Qed.

Ltac keeps_step :=
  first
    [ assumption
    | apply keeps_ret
    | apply keeps_lift
    | apply keeps_Env_Get
    | apply keeps_Env_Set
    | apply keeps_NewEnclosedEnvironment
    | apply keeps_bind; [|intros ?]
    | match goal with
      | |- keeps (if ?b then _ else _) => destruct b
      | |- keeps (match ?x with _ => _ end) => destruct x
      | H : context [keeps] |- keeps _ => apply H
      end ].

Ltac keeps_auto := repeat keeps_step.

Section combinators_keep.
Variable ev : ast.Node -> EnvRef -> E Object.
Hypothesis Hev : forall node env, keeps (ev node env).

Lemma evalProgram_loop_keeps statements env result :
  keeps (evalProgram_loop ev statements env result).
Proof.
  revert result. induction statements as [|s rest IH]; intros result; simpl;
    keeps_auto.
Qed.

Lemma evalBlockStatement_loop_keeps statements env result :
  keeps (evalBlockStatement_loop ev statements env result).
Proof.
  revert result. induction statements as [|s rest IH]; intros result; simpl;
    keeps_auto.
Qed.

Lemma evalExpressions_loop_keeps nodes env objects :
  keeps (evalExpressions_loop ev nodes env objects).
Proof.
  revert objects. induction nodes as [|n rest IH]; intros objects; simpl;
    keeps_auto.
Qed.

Lemma evalHashLiteral_loop_keeps node_pairs env pairs :
  keeps (evalHashLiteral_loop ev node_pairs env pairs).
Proof.
  revert pairs. induction node_pairs as [|[k v] rest IH]; intros pairs; simpl;
    keeps_auto.
Qed.

Lemma bindArguments_keeps parameters callEnv i args :
  keeps (bindArguments parameters callEnv i args).
Proof.
  revert i. induction args as [|arg rest IH]; intros i; simpl; keeps_auto.
Qed.

Lemma applyFunction_keeps fn args : keeps (applyFunction ev fn args).
Proof.
  pose proof bindArguments_keeps. pose proof evalBlockStatement_loop_keeps.
  destruct fn; simpl; unfold evalBlockStatement; keeps_auto.
Qed.

Lemma Eval_body_keeps node env : keeps (Eval_body ev node env).
Proof.
  pose proof evalProgram_loop_keeps. pose proof evalBlockStatement_loop_keeps.
  pose proof evalExpressions_loop_keeps. pose proof evalHashLiteral_loop_keeps.
  pose proof applyFunction_keeps.
  destruct node as [program|statement|expression]; simpl.
  - apply evalProgram_loop_keeps.
  - destruct statement; simpl; unfold evalBlockStatement; keeps_auto.
  - destruct expression; simpl;
      unfold evalIfExpression, evalExpressions, evalIdentifier; keeps_auto.
Qed.

End combinators_keep.

(** X18. Evaluation only extends the heap. Whatever node is evaluated, in
    whatever environment: every environment that existed before still
    exists, is still enclosed in the same environment, and still binds
    every name it bound (a binding can be replaced, never removed). *)
Theorem Eval_extends_heap (fuel : nat) (node : ast.Node) (env : EnvRef)
  (h h' : Heap) (v : Object) :
  Eval fuel node env h = Ok (v, h') -> extends h h'.
Proof.
  revert node env h h' v. induction fuel as [|fuel IH]; intros node env h h' v.
  - discriminate.
  - simpl. apply Eval_body_keeps. intros node' env' h1 a h1'. apply IH.
Qed.

Lemma Eval_extends_heap_witness :
  exists program h',
    parser.parse 10 "let x = 1; let f = fn(y) { let x = y; x }; f(2);"
    = Some (program, [])
    /\ Eval 10 (ast.NProgram program) 0%nat
         [{| object.store := ∅; object.outer := None |}]
       = Ok (object.Integer 2, h')
    /\ extends [{| object.store := ∅; object.outer := None |}] h'
    /\ object.Get h' 0%nat "x" = Ok (Some (object.Integer 1)).
Proof.
  eexists _, _. split; [vm_compute; reflexivity|].
  match goal with
  | |- ?eval = Ok (_, ?h') /\ _ =>
      assert (Heval : eval = Ok (object.Integer 2, h')) by (vm_compute; reflexivity)
  end.
  split; [exact Heval|]. split; [|vm_compute; reflexivity].
  exact (Eval_extends_heap _ _ _ _ _ _ Heval).
Defined.

(** X19. An empty block evaluates to the nil interface, not to [NULL]:
    so do the empty program and an [if] whose condition is truthy and
    whose consequence is empty. An [if] without alternative whose
    condition is falsy evaluates to [NULL]. *)
Theorem empty_block_is_nil (fuel : nat) (env : EnvRef) (h h1 : Heap)
  (condition : ast.Expression) (c : Object) :
  (forall tok,
     Eval (S fuel) (ast.NStatement (ast.Block (ast.mkBlock tok []))) env h
     = Ok (object.Nil, h))
  /\ Eval (S fuel) (ast.NProgram {| ast.Statements := [] |}) env h
     = Ok (object.Nil, h)
  /\ (Eval (S fuel) (ast.NExpression condition) env h = Ok (c, h1) ->
      isError c = false ->
      forall tok tok' alternative consequence,
        (isTruthy c = true ->
         Eval (S (S fuel))
           (ast.NExpression
              (ast.IfExpression tok condition (ast.mkBlock tok' []) alternative))
           env h = Ok (object.Nil, h1))
        /\ (isTruthy c = false ->
            Eval (S (S fuel))
              (ast.NExpression (ast.IfExpression tok condition consequence None))
              env h = Ok (NULL, h1))).
Proof.
  split; [reflexivity|]. split; [reflexivity|].
  intros Hcond Herr tok tok' alternative consequence.
  split; intros Htruthy;
    change (Eval (S (S fuel)) ?n env h) with (Eval_body (Eval (S fuel)) n env h);
    cbn [Eval_body Eval_expression]; unfold evalIfExpression, bind;
    rewrite Hcond; cbn [obind fst snd]; rewrite Herr, Htruthy; reflexivity.
Qed.

Lemma empty_block_is_nil_witness :
  let zero := ast.IntegerLiteral {| token.Type_ := token.INT; token.Literal := "0" |} 0 in
  let h := [{| object.store := ∅; object.outer := None |}] in
  Eval 1 (ast.NExpression zero) 0%nat h = Ok (object.Integer 0, h)
  /\ isTruthy (object.Integer 0) = true
  /\ Eval 2 (ast.NExpression
               (ast.IfExpression token.zero zero (ast.mkBlock token.zero []) None))
       0%nat h = Ok (object.Nil, h).
Proof.
  intros zero h. split; [reflexivity|]. split; [reflexivity|].
  destruct (empty_block_is_nil 0 0%nat h h zero (object.Integer 0))
    as (_ & _ & Hif).
  destruct (Hif eq_refl eq_refl token.zero token.zero None (ast.mkBlock token.zero []))
    as [Htrue _].
  by apply Htrue.
Defined.

(** X20. Calling a value that is neither a function nor a built-in is the
    error [not a function: <type>]; neither the arguments nor the heap
    matter. *)
Theorem call_of_non_function (ev : ast.Node -> EnvRef -> E Object) (fn : Object)
  (args : list Object) (h : Heap) (t : object.ObjectType) :
  object.Type_of fn = Ok t ->
  t <> object.FUNCTION_OBJ -> t <> object.BUILTIN_OBJ ->
  applyFunction ev fn args h = Ok (object.Error ("not a function: " +:+ t), h).
Proof.
  intros Ht Hf Hb. destruct fn; simpl in *; simplify_eq; try done.
Qed.

Lemma call_of_non_function_witness :
  testEval 6 "let x = 5; x(1, 2)" = Ok (object.Error "not a function: INTEGER")
  /\ applyFunction (Eval 0) (object.Integer 5) [] []
     = Ok (object.Error "not a function: INTEGER", []).
Proof.
  split; [vm_compute; reflexivity|].
  apply (call_of_non_function (Eval 0) (object.Integer 5) [] [] object.INTEGER_OBJ);
    [reflexivity|discriminate..].
Defined.

End heap_invariant.

(** ** The parser: errors and nil *)

Section parser_errors.
Import parser.
Local Open Scope parser_scope.

Lemma recorded_ret {A} (P : Prop) (a : A) (Q : A -> Prop) :
  (P -> Q a) -> recorded P (ret a) Q.
Proof.
  intros HQ p a' p' H. unfold ret in H. simplify_eq.
  split; [reflexivity|auto].
Qed.

Lemma recorded_out_of_fuel {A} (P : Prop) (Q : A -> Prop) :
  recorded P out_of_fuel Q.
Proof. intros p a p' H. discriminate. Qed.

Lemma recorded_pre {A} (P P' : Prop) (m : M A) (Q : A -> Prop) :
  recorded P m Q -> (P' -> P) -> recorded P' m Q.
Proof. intros Hm HP p a p' H. destruct (Hm _ _ _ H). split; auto. Qed.

Lemma recorded_bind {A B} (P : Prop) (m : M A) (k : A -> M B)
  (Q : A -> Prop) (R : B -> Prop) :
  recorded P m Q -> (forall a, recorded (P /\ Q a) (k a) R) ->
  recorded P (bind m k) R.
Proof.
  intros Hm Hk p b p' H. unfold bind in H.
  destruct (m p) as [[a p1]|] eqn:H1; [|discriminate].
  destruct (Hm _ _ _ H1) as [Hpre1 HQ]. destruct (Hk _ _ _ _ H) as [Hpre2 HR].
  split; [by etrans|].
  intros HP Heq. rewrite Heq in Hpre2.
  assert (errors p1 = errors p).
  { apply (anti_symm prefix); done. }
  apply HR; [split; auto|congruence].
Qed.

Lemma recorded_reads {A} (P : Prop) (f : Parser -> A) :
  recorded P (reads f) (fun _ => True).
Proof. intros p a p' H. unfold reads in H. simplify_eq. by split. Qed.

Lemma recorded_nextToken (P : Prop) : recorded P nextToken (fun _ => True).
Proof.
  intros p a p' H. unfold nextToken in H. simplify_eq.
  rewrite errors_advance. by split.
Qed.

Lemma recorded_appendError (P : Prop) (msg : string) :
  recorded P (appendError msg) (fun _ => False).
Proof.
  intros p a p' H. unfold appendError, with_error in H. simplify_eq. simpl.
  split; [by apply prefix_app_r|].
  intros _ Heq. apply (f_equal List.length) in Heq.
  rewrite length_app in Heq. simpl in Heq. lia.
Qed.

Lemma recorded_expectPeek (P : Prop) (t : token.TokenType) :
  recorded P (expectPeek t) (fun ok => ok = true).
Proof.
  unfold expectPeek, peekError.
  eapply recorded_bind; [apply recorded_reads|]. intros is_t.
  destruct is_t.
  - eapply recorded_bind; [apply recorded_nextToken|]. intros ?.
    by apply recorded_ret.
  - eapply recorded_bind.
    + eapply recorded_bind; [apply recorded_reads|]. intros peek.
      apply recorded_appendError.
    + intros ?. apply recorded_ret. by intros [_ []].
Qed.

Lemma recorded_noPrefixParseFuncError (P : Prop) (t : token.TokenType) :
  recorded P (noPrefixParseFuncError t) (fun _ => False).
Proof. apply recorded_appendError. Qed.

(** The facts collected along a sequence of calls give the result. *)
Ltac solve_post :=
  intros; destruct_and?; simplify_eq/=; try done;
  rewrite ?List.forallb_app, ?andb_true_iff; simpl;
  rewrite ?andb_true_iff; intuition (eauto; congruence).

Ltac rec_prim lemmas :=
  first
    [ apply recorded_reads
    | apply recorded_nextToken
    | apply recorded_expectPeek
    | apply recorded_appendError
    | apply recorded_noPrefixParseFuncError
    | apply (recorded_ret _ _ (fun _ => True)); done
    | lemmas
    | match goal with
      | H : context [recorded] |- recorded _ _ _ => apply H
      | H : context [recorded] |- recorded _ _ _ =>
          eapply recorded_pre; [apply H|solve_post]
      end ].

Ltac rec_step lemmas :=
  lazymatch goal with
  | |- recorded _ (bind (if ?b then _ else _) _) _ => destruct b
  | |- recorded _ (bind (match ?x with _ => _ end) _) _ => destruct x
  | |- recorded _ (bind _ _) _ =>
      eapply recorded_bind; [rec_prim lemmas | intros ?]
  | |- recorded _ (ret _) _ => apply recorded_ret; solve_post
  | |- recorded _ out_of_fuel _ => apply recorded_out_of_fuel
  | |- recorded _ (if negb ?b then _ else _) _ => destruct b; cbn [negb]
  | |- recorded _ (if ?b then _ else _) _ => destruct b
  | |- recorded _ (match ?x with _ => _ end) _ => destruct x
  | |- recorded _ (let '(_, _) := ?x in _) _ => destruct x
  | |- recorded _ _ _ => rec_prim lemmas
  end.

Ltac rec_auto lemmas := repeat (rec_step lemmas).

Lemma parseFunctionParameters_loop_recorded (P : Prop) (fuel : nat) :
  forall params,
    recorded P (parseFunctionParameters_loop fuel params) (fun _ => True).
Proof.
  induction fuel as [|fuel IH]; intros params; simpl; rec_auto ltac:(fail).
Qed.

Lemma parseFunctionParameters_recorded (P : Prop) (fuel : nat) :
  recorded P (parseFunctionParameters fuel) (fun _ => True).
Proof.
  unfold parseFunctionParameters, curIdentifier.
  rec_auto ltac:(apply parseFunctionParameters_loop_recorded).
Qed.

Lemma parseIntegerLiteral_recorded (P : Prop) :
  recorded P parseIntegerLiteral (fun e => nil_free_Expression e = true).
Proof. unfold parseIntegerLiteral. rec_auto ltac:(fail). Qed.

Section methods_recorded.
Variables (recE : Z -> M ast.Expression) (recS : M ast.Statement) (fuel : nat).
Hypothesis HE : forall P precedence,
  recorded P (recE precedence) (fun e => nil_free_Expression e = true).
Hypothesis HS : forall P,
  recorded P recS (fun s => nil_free_Statement s = true).

Lemma parseBlockStatement_loop_recorded (n : nat) :
  forall stmts,
    recorded (List.forallb nil_free_Statement stmts = true)
      (parseBlockStatement_loop recS n stmts)
      (fun r => List.forallb nil_free_Statement r = true).
Proof.
  induction n as [|n IH]; intros stmts; simpl; rec_auto ltac:(fail).
Qed.

Lemma parseBlockStatement_recorded (P : Prop) :
  recorded P (parseBlockStatement recS fuel)
    (fun b => nil_free_Block b = true).
Proof.
  unfold parseBlockStatement.
  rec_auto ltac:(eapply recorded_pre;
                 [apply parseBlockStatement_loop_recorded|done]).
Qed.

Lemma parseExpressionList_loop_recorded (n : nat) :
  forall args,
    recorded (List.forallb nil_free_Expression args = true)
      (parseExpressionList_loop recE n args)
      (fun r => List.forallb nil_free_Expression r = true).
Proof.
  induction n as [|n IH]; intros args; simpl; rec_auto ltac:(fail).
Qed.

Lemma parseExpressionList_recorded (P : Prop) (end_ : token.TokenType) :
  recorded P (parseExpressionList recE fuel end_)
    (fun r => List.forallb nil_free_Expression r = true).
Proof.
  unfold parseExpressionList.
  rec_auto ltac:(eapply recorded_pre;
                 [apply parseExpressionList_loop_recorded|solve_post]).
Qed.

Lemma callPrefix_recorded (P : Prop) (fn : prefixParseFn) :
  recorded P (callPrefix recE recS fuel fn)
    (fun e => nil_free_Expression e = true).
Proof.
  pose proof parseBlockStatement_recorded as Hblock.
  pose proof parseExpressionList_recorded as Hlist.
  pose proof parseFunctionParameters_recorded as Hparams.
  destruct fn; simpl;
    unfold parseIdentifier, curIdentifier, parsePrefixExpression, parseBoolean,
      parseGroupedExpression, parseIfExpression, parseFunctionLiteral,
      parseStringLiteral, parseArrayLiteral, curTokenIs;
    try apply parseIntegerLiteral_recorded;
    rec_auto ltac:(fail).
Qed.

Lemma callInfix_recorded (fn : infixParseFn) (left : ast.Expression) :
  recorded (nil_free_Expression left = true) (callInfix recE fuel fn left)
    (fun e => nil_free_Expression e = true).
Proof.
  pose proof parseExpressionList_recorded as Hlist.
  destruct fn; simpl;
    unfold parseInfixExpression, parseCallExpression, parseIndexExpression,
      curPrecedence;
    rec_auto ltac:(fail).
Qed.

Lemma parseExpression_loop_recorded (n : nat) :
  forall precedence leftExp,
    recorded (nil_free_Expression leftExp = true)
      (parseExpression_loop recE fuel n precedence leftExp)
      (fun e => nil_free_Expression e = true).
Proof.
  induction n as [|n IH]; intros precedence leftExp; simpl;
    unfold peekPrecedence, peekTokenIs;
    rec_auto ltac:(eapply recorded_pre; [apply callInfix_recorded|solve_post]).
Qed.

Lemma parseExpression_body_recorded (P : Prop) (precedence : Z) :
  recorded P (parseExpression_body recE recS fuel precedence)
    (fun e => nil_free_Expression e = true).
Proof.
  unfold parseExpression_body.
  rec_auto ltac:(first
    [ apply callPrefix_recorded
    | eapply recorded_pre; [apply parseExpression_loop_recorded|solve_post] ]).
Qed.

Lemma parseStatement_body_recorded (P : Prop) :
  recorded P (parseStatement_body recE)
    (fun s => nil_free_Statement s = true).
Proof.
  unfold parseStatement_body, parseLetStatement, parseReturnStatement,
    parseExpressionStatement, curIdentifier, peekTokenIs.
  rec_auto ltac:(fail).
Qed.

End methods_recorded.

Lemma parse_recorded (fuel : nat) :
  (forall P precedence,
     recorded P (parseExpression fuel precedence)
       (fun e => nil_free_Expression e = true))
  /\ (forall P,
        recorded P (parseStatement fuel) (fun s => nil_free_Statement s = true)).
Proof.
  induction fuel as [|fuel [IHE IHS]].
  { split; intros; apply recorded_out_of_fuel. }
  split; intros; simpl.
  - by apply parseExpression_body_recorded.
  - by apply parseStatement_body_recorded.
Qed.

Lemma ParseProgram_loop_recorded (fuel n : nat) :
  forall stmts,
    recorded (List.forallb nil_free_Statement stmts = true)
      (ParseProgram_loop fuel n stmts)
      (fun r => List.forallb nil_free_Statement r = true).
Proof.
  induction n as [|n IH]; intros stmts; simpl; unfold curTokenIs;
    rec_auto ltac:(apply (proj2 (parse_recorded fuel))).
Qed.

Lemma errors_New (lx : lexer.Lexer) : errors (New lx) = [].
Proof. unfold New. by rewrite !errors_advance. Qed.

(** X21. The error list is append-only: whatever [parseExpression],
    [parseStatement] and [ParseProgram] do, the errors recorded before
    are a prefix of the errors recorded after. *)
Theorem parser_errors_append_only (fuel : nat) (p p' : Parser) :
  (forall precedence e,
     parseExpression fuel precedence p = Some (e, p') ->
     errors p `prefix_of` errors p')
  /\ (forall s,
        parseStatement fuel p = Some (s, p') -> errors p `prefix_of` errors p')
  /\ (forall program,
        ParseProgram fuel p = Some (program, p') ->
        errors p `prefix_of` errors p').
Proof.
  split; [|split].
  - intros precedence e H.
    by destruct (proj1 (parse_recorded fuel) True precedence _ _ _ H).
  - intros s H. by destruct (proj2 (parse_recorded fuel) True _ _ _ H).
  - intros program H. unfold ParseProgram, bind in H.
    destruct (ParseProgram_loop fuel fuel [] p) as [[stmts p1]|] eqn:Hloop;
      [|discriminate].
    unfold ret in H. simplify_eq.
    by destruct (ParseProgram_loop_recorded fuel fuel [] _ _ _ Hloop).
Qed.

Lemma parser_errors_append_only_witness :
  exists p s p',
    parseStatement 4 (New (lexer.New "let = 5;")) = Some (ast.NilLetStatement, p)
    /\ errors (advance p) = ["Expected token IDENT, instead got ="]
    /\ parseStatement 4 (advance p) = Some (s, p')
    /\ errors (advance p) `prefix_of` errors p'
    /\ errors p' = [ "Expected token IDENT, instead got =";
                     "No prefix parse function found for =" ].
Proof.
  destruct (parseStatement 4 (New (lexer.New "let = 5;"))) as [[s0 p]|] eqn:H0;
    [|vm_compute in H0; discriminate].
  assert (Hs0 : s0 = ast.NilLetStatement) by (vm_compute in H0; congruence).
  assert (Hp : advance p
               = {| l := {| lexer.pending :=
                              [{| token.Type_ := token.SEMICOLON;
                                  token.Literal := ";" |}] |};
                    curToken := {| token.Type_ := token.ASSIGN;
                                   token.Literal := "=" |};
                    peekToken := {| token.Type_ := token.INT;
                                    token.Literal := "5" |};
                    errors := ["Expected token IDENT, instead got ="] |}).
  { vm_compute in H0. injection H0 as _ <-. reflexivity. }
  subst s0.
  destruct (parseStatement 4 (advance p)) as [[s p']|] eqn:H1;
    [|rewrite Hp in H1; vm_compute in H1; discriminate].
  exists p, s, p'.
  split; [reflexivity|]. split; [by rewrite Hp|]. split; [exact H1|].
  split; [exact (proj1 (proj2 (parser_errors_append_only 4 _ p')) s H1)|].
  rewrite Hp in H1. vm_compute in H1. by injection H1 as _ <-.
Defined.

(** X22. Nil comes with an error. A statement or a program that the
    parser returns without recording an error holds no nil: no missing
    expression and no nil let statement, at any depth. So a program
    parsed with an empty error list is free of nil, and a nil let
    statement always leaves an error behind. *)
Theorem error_free_parse_is_nil_free (fuel : nat) :
  (forall p s p',
     parseStatement fuel p = Some (s, p') ->
     (errors p' = errors p -> nil_free_Statement s = true)
     /\ (s = ast.NilLetStatement -> errors p' <> errors p))
  /\ (forall input program,
        parse fuel input = Some (program, []) ->
        List.forallb nil_free_Statement (ast.Statements program) = true).
Proof.
  split.
  - intros p s p' H.
    destruct (proj2 (parse_recorded fuel) True _ _ _ H) as [_ Hfree].
    split; [auto|].
    intros -> Heq. specialize (Hfree I Heq). discriminate.
  - intros input program H. unfold parse in H.
    destruct (ParseProgram fuel (New (lexer.New input))) as [[prog p']|] eqn:Hp;
      [|discriminate].
    injection H as -> Herr.
    unfold ParseProgram, bind in Hp.
    destruct (ParseProgram_loop fuel fuel [] _) as [[stmts p1]|] eqn:Hloop;
      [|discriminate].
    unfold ret in Hp. simplify_eq. simpl.
    destruct (ParseProgram_loop_recorded fuel fuel [] _ _ _ Hloop) as [_ Hfree].
    apply Hfree; [reflexivity|].
    unfold Errors in Herr. by rewrite Herr, errors_New.
Qed.

Lemma error_free_parse_is_nil_free_witness :
  exists program,
    parse 10 "let add = fn(x, y) { x + y }; add(1, 2);" = Some (program, [])
    /\ List.forallb nil_free_Statement (ast.Statements program) = true.
Proof.
  destruct (parse 10 "let add = fn(x, y) { x + y }; add(1, 2);")
    as [[program errs]|] eqn:H; [|vm_compute in H; discriminate].
  assert (Herrs : errs = []) by (vm_compute in H; congruence).
  subst errs. exists program. split; [reflexivity|].
  exact (proj2 (error_free_parse_is_nil_free 10) _ program H).
Defined.

(** X23. The current token decides the kind of statement: [let] gives a
    let statement or, with an error, a nil one; [return] gives a return
    statement; any other token gives an expression statement; and the
    statement carries the token it started at. *)
Theorem parseStatement_kind (fuel : nat) (p p' : Parser) (s : ast.Statement) :
  parseStatement fuel p = Some (s, p') ->
  match s with
  | ast.NilLetStatement =>
      token.Type_ (curToken p) = token.LET /\ errors p' <> errors p
  | ast.LetStatement tok _ _ =>
      token.Type_ (curToken p) = token.LET /\ tok = curToken p
  | ast.ReturnStatement tok _ =>
      token.Type_ (curToken p) = token.RETURN /\ tok = curToken p
  | ast.ExpressionStatement tok _ =>
      token.Type_ (curToken p) <> token.LET
      /\ token.Type_ (curToken p) <> token.RETURN /\ tok = curToken p
  | ast.Block _ => False
  end.
Proof.
  intros H.
  assert (Hnil : s = ast.NilLetStatement -> errors p' <> errors p).
  { destruct (proj2 (parse_recorded fuel) True _ _ _ H) as [_ Hfree].
    intros -> Heq. specialize (Hfree I Heq). discriminate. }
  destruct fuel as [|fuel]; [discriminate|]. simpl in H.
  unfold parseStatement_body, bind, reads in H.
  destruct (String.eqb_spec (token.Type_ (curToken p)) token.LET) as [Hlet|Hlet].
  - unfold parseLetStatement, bind, reads, ret, curIdentifier in H.
    repeat case_match; simplify_eq; auto.
  - destruct (String.eqb_spec (token.Type_ (curToken p)) token.RETURN) as [Hret|Hret].
    + unfold parseReturnStatement, bind, reads, ret, nextToken in H.
      repeat case_match; simplify_eq; auto.
    + unfold parseExpressionStatement, bind, reads, ret in H.
      repeat case_match; simplify_eq; auto.
Qed.

Lemma parseStatement_kind_witness :
  exists s p',
    parseStatement 4 (New (lexer.New "return 5;")) = Some (s, p')
    /\ match s with
       | ast.ReturnStatement tok _ =>
           tok = {| token.Type_ := token.RETURN; token.Literal := "return" |}
       | _ => False
       end.
Proof.
  destruct (parseStatement 4 (New (lexer.New "return 5;"))) as [[s p']|] eqn:H;
    [|vm_compute in H; discriminate].
  exists s, p'. split; [reflexivity|].
  pose proof (parseStatement_kind 4 _ p' s H) as Hkind.
  destruct s; try (vm_compute in H; discriminate).
  destruct Hkind as [_ ->]. reflexivity.
Defined.

Lemma parseIntegerLiteral_spec_witness :
  let p := New (lexer.New "2147483648") in
  token.Literal (curToken p) = "2147483648"
  /\ strconv.digits "2147483648" 0 = Some 2147483648
  /\ parseIntegerLiteral p
     = Some (ast.IntegerLiteral (curToken p) 2147483647,
             with_error p "could not parse 2147483648 as integer").
Proof.
  intros p. split; [reflexivity|]. split; [reflexivity|].
  exact (parseIntegerLiteral_spec p "2" "147483648" 2147483648 eq_refl eq_refl).
Defined.

End parser_errors.

(** ** Lexical scope *)

Section lexical_scope.
Import evaluator.

(** X25. Functions are closures over the environment of their definition.
    In [let x = a; let f = fn() { x }; let g = fn(x) { f() }; g(b)] the
    call of [f] inside [g] sees the global [x], not the parameter [x] of
    its caller: the program evaluates to [a], whatever [a] and [b] are. *)
Theorem closures_are_lexical (fuel : nat) (a b : Z) (lit_a lit_b : string) :
  (8 <= fuel)%nat ->
  exists h',
    Eval fuel (ast.NProgram (scoping_program a b lit_a lit_b)) 0%nat
      [{| object.store := ∅; object.outer := None |}]
    = Ok (object.Integer a, h').
Proof.
  intros Hfuel.
  assert (H8 : exists h',
             Eval 8 (ast.NProgram (scoping_program a b lit_a lit_b)) 0%nat
               [{| object.store := ∅; object.outer := None |}]
             = Ok (object.Integer a, h')).
  { eexists. vm_compute. reflexivity. }
  destruct H8 as [h' H8]. exists h'.
  by apply (Eval_fuel_mono 8 fuel).
Qed.

Lemma closures_are_lexical_witness :
  (8 <= 8)%nat
  /\ parser.parse 8 "let x = 1; let f = fn() { x }; let g = fn(x) { f() }; g(2)"
     = Some (scoping_program 1 2 "1" "2", [])
  /\ exists h',
       Eval 8 (ast.NProgram (scoping_program 1 2 "1" "2")) 0%nat
         [{| object.store := ∅; object.outer := None |}]
       = Ok (object.Integer 1, h').
Proof.
  split; [lia|]. split; [vm_compute; reflexivity|].
  exact (closures_are_lexical 8 1 2 "1" "2" ltac:(lia)).
Defined.

End lexical_scope.
